(** * Local filesystem storage backend (pkg/storage/local.go)

    A shallow embedding of the [Local] backend of clickhouse-backup and of
    the parts of Go's standard library it calls ([path], [path/filepath],
    [strings], [os], [io]), followed by the properties of the backend.

    Layout:
    - [GoPath]   : lexical path functions on Unix ([Clean], [Join], [Base],
                   [Dir], [Rel]) and [strings.HasPrefix];
    - [OS]       : a symlink-free, permission-free POSIX directory tree with
                   an inode table, a working directory and mount points;
    - [Storage]  : the functions of local.go, one definition per Go function;
    - [PathSpec], [TreeSpec] : the notions the properties are stated with;
    - [Sample]   : a concrete disk and backend;
    - properties of [containedPath], the single-file operations, the batch
      delete, [CopyObject] and [Walk], then their instances on the sample
      disk;
    - further properties: what each operation leaves alone, [Connect],
      deletion, enumeration with an arbitrary visitor, cancellation, hard
      links, and their instances on the sample disk. *)

From Stdlib Require Import Ascii String List ZArith Lia Bool Permutation.
From Stdlib Require Import DecimalString.
From stdpp Require Import base option list gmap strings sorting.

Local Open Scope string_scope.
Local Open Scope list_scope.

(** ** Go's lexical path functions (Unix) *)

Module GoPath.

(** [os.PathSeparator] on Unix. *)
Definition Separator : ascii := "/"%char.

(** [strings.Split(s, "/")]: the fields of [s] between separators; always
    at least one field. *)
Fixpoint Split (s : string) : list string :=
  match s with
  | EmptyString => [EmptyString]
  | String c s' =>
      if Ascii.eqb c Separator then EmptyString :: Split s'
      else match Split s' with
           | [] => [String c EmptyString]
           | x :: xs => String c x :: xs
           end
  end.

(** [strings.HasPrefix(s, prefix)]. *)
Definition HasPrefix (s prefix : string) : bool := String.prefix prefix s.

(** A path is rooted when it begins with the separator. *)
Definition IsRooted (s : string) : bool :=
  match s with
  | String c _ => Ascii.eqb c Separator
  | EmptyString => false
  end.

(** One step of [Clean]'s scan.  [out] is the output written so far, as a
    stack of elements (most recent first).  An empty element (doubled or
    trailing separator) and [.] are dropped; [..] removes the preceding
    element when there is one to remove, is kept at the front of a
    relative path and vanishes at the root. *)
Definition clean_step (rooted : bool) (out : list string) (c : string)
  : list string :=
  if String.eqb c "" then out
  else if String.eqb c "." then out
  else if String.eqb c ".." then
    match out with
    | top :: rest => if String.eqb top ".." then c :: out else rest
    | [] => if rooted then out else [c]
    end
  else c :: out.

(** The elements of the cleaned form of [s], in order. *)
Definition elements (s : string) : list string :=
  rev (fold_left (clean_step (IsRooted s)) (Split s) []).

(** The text of a cleaned path: elements separated by single separators,
    [/] in front when rooted, and [.] for the empty relative path. *)
Definition render (rooted : bool) (cs : list string) : string :=
  let body := String.concat "/" cs in
  if rooted then "/" +:+ body
  else if String.eqb body "" then "." else body.

(** [filepath.Clean] / [path.Clean]. *)
Definition Clean (path : string) : string :=
  if String.eqb path "" then "."
  else render (IsRooted path) (elements path).

(** [filepath.Join(a, b)]: empty elements before the first non-empty one are
    ignored, the rest is joined with separators and cleaned. *)
Definition filepath_Join (a b : string) : string :=
  if negb (String.eqb a "") then Clean (a +:+ "/" +:+ b)
  else if negb (String.eqb b "") then Clean b
  else "".

(** [path.Join(a, b)]: the loop appends an element when the buffer is
    non-empty or the element is. *)
Definition path_Join (a b : string) : string :=
  if (String.length a + String.length b =? 0)%nat then ""
  else
    let add (buf e : string) : string :=
      if negb (String.eqb buf "") || negb (String.eqb e "") then
        (if negb (String.eqb buf "") then buf +:+ "/" else buf) +:+ e
      else buf in
    Clean (fold_left add [a; b] "").

(** [filepath.Base]: the last element of the path after trailing separators
    are stripped; [.] for the empty path, [/] for a path of separators. *)
Definition filepath_Base (path : string) : string :=
  if String.eqb path "" then "."
  else match rev (filter (fun c => c ≠ "") (Split path)) with
       | c :: _ => c
       | [] => "/"
       end.

(** [filepath.Dir]: everything up to and including the last separator,
    cleaned. *)
Definition filepath_Dir (path : string) : string :=
  Clean (String.concat "/" (removelast (Split path) ++ [""])).

(** The longest common leading run of elements is dropped from both
    lists. *)
Fixpoint strip_common (b t : list string) : list string * list string :=
  match b, t with
  | x :: b', y :: t' =>
      if String.eqb x y then strip_common b' t' else (b, t)
  | _, _ => (b, t)
  end.

(** [filepath.Rel(basepath, targpath)]; [None] is the "can't make relative"
    error.  A base or a target that cleans to [.] has no elements. *)
Definition filepath_Rel (basepath targpath : string) : option string :=
  let base := Clean basepath in
  let targ := Clean targpath in
  if String.eqb targ base then Some "."
  else
    let base := if String.eqb base "." then "" else base in
    let targ := if String.eqb targ "." then "" else targ in
    if negb (Bool.eqb (IsRooted base) (IsRooted targ)) then None
    else
      let '(rb, rt) :=
        strip_common (filter (fun c => c ≠ "") (Split base))
                     (filter (fun c => c ≠ "") (Split targ)) in
      match rb with
      | [] => Some (String.concat "/" rt)
      | x :: _ =>
          if String.eqb x ".." then None
          else Some (String.concat "/" (map (fun _ => "..") rb ++ rt))
      end.

End GoPath.

Import GoPath.

(** ** The operating system: a directory tree with inodes

    The model has no symbolic links, no permissions, no quotas and a single
    thread of control: a system call fails only for the reasons the tree
    itself gives (a missing or misplaced entry, a mount boundary).  A path
    is resolved lexically against the working directory: this is the
    resolution of the kernel on a path in cleaned form; where a [..]
    follows a name that is not a directory, or a separator trails the
    name of a regular file, the kernel answers [ENOTDIR] or [ENOENT] and
    the model resolves.  Names are not checked against the limits of the
    kernel (a NUL byte, more than [NAME_MAX] bytes).  The properties that
    conclude from the tree that a call succeeds are stated on plain paths
    ([PathSpec.plain_path]), where neither matters.
    Hard links are modelled by inode sharing: a file entry holds an inode
    number and the bytes live in the inode table.  Mount points decide
    whether two paths are on the same device. *)

Module OS.

(** The error numbers the modelled system calls return. *)
Inductive errno :=
  ENOENT | ENOTDIR | EISDIR | EEXIST | EINVAL | EPERM | EXDEV | ENOTEMPTY
| EBUSY.

(** A Go result pair [(value, error)]: the value, or the error. *)
Inductive result (E A : Type) :=
| Ok (a : A)
| Err (e : E).
Arguments Ok {E A} a.
Arguments Err {E A} e.

(** A tree node: a regular file, as the number of its inode, or a
    directory with its modification time and entries. *)
#[warnings="-register-all"]
Inductive node :=
| File (ino : nat)
| Dir (mtime : Z) (entries : list (string * node)).

(** An inode: the bytes of a file and its modification time. *)
Record inode := { i_data : list Byte.byte; i_mtime : Z }.

(** The root is a directory by construction: the record holds its
    modification time and entries. *)
Record filesystem := {
  root_mtime : Z;
  root_entries : list (string * node);
  inodes : gmap nat inode;
  next_ino : nat;
  cwd : list string;
  mounts : list (list string);
  clock : Z;
}.

(** The root directory as a node. *)
Definition root (fs : filesystem) : node :=
  Dir (root_mtime fs) (root_entries fs).

(** *** Directory entries *)

Fixpoint entry_lookup (name : string) (es : list (string * node))
  : option node :=
  match es with
  | [] => None
  | (n, x) :: es' =>
      if String.eqb n name then Some x else entry_lookup name es'
  end.

Fixpoint entry_set (name : string) (x : node) (es : list (string * node))
  : list (string * node) :=
  match es with
  | [] => [(name, x)]
  | (n, y) :: es' =>
      if String.eqb n name then (n, x) :: es'
      else (n, y) :: entry_set name x es'
  end.

Fixpoint entry_remove (name : string) (es : list (string * node))
  : list (string * node) :=
  match es with
  | [] => []
  | (n, y) :: es' =>
      if String.eqb n name then entry_remove name es'
      else (n, y) :: entry_remove name es'
  end.

(** *** Trees addressed by absolute element lists *)

(** Path lookup: [ENOENT] when an element is missing, [ENOTDIR] when the
    walk has to pass through a regular file. *)
Fixpoint resolve (p : list string) (n : node) : result errno node :=
  match p with
  | [] => Ok n
  | c :: p' =>
      match n with
      | File _ => Err ENOTDIR
      | Dir _ es =>
          match entry_lookup c es with
          | None => Err ENOENT
          | Some n' => resolve p' n'
          end
      end
  end.

(** Rewrite the entry list of the directory at [d]; [f] receives the
    directory's entries and returns the new modification time and
    entries. *)
Fixpoint at_dir (d : list string)
    (f : Z -> list (string * node) -> result errno node) (n : node)
  : result errno node :=
  match n with
  | File _ => Err ENOTDIR
  | Dir mt es =>
      match d with
      | [] => f mt es
      | c :: d' =>
          match entry_lookup c es with
          | None => Err ENOENT
          | Some n' =>
              match at_dir d' f n' with
              | Ok n'' => Ok (Dir mt (entry_set c n'' es))
              | Err e => Err e
              end
          end
      end
  end.

(** Create every missing directory along [p]. *)
Fixpoint mkdir_all (now : Z) (p : list string) (n : node)
  : result errno node :=
  match n with
  | File _ => Err ENOTDIR
  | Dir mt es =>
      match p with
      | [] => Ok n
      | c :: p' =>
          match entry_lookup c es with
          | Some n' =>
              match mkdir_all now p' n' with
              | Ok n'' => Ok (Dir mt (entry_set c n'' es))
              | Err e => Err e
              end
          | None =>
              match mkdir_all now p' (Dir now []) with
              | Ok n'' => Ok (Dir now (entry_set c n'' es))
              | Err e => Err e
              end
          end
      end
  end.

Definition parent (p : list string) : list string := removelast p.
Definition leaf (p : list string) : string := List.last p "".

Definition add_entry (now : Z) (name : string) (x : node)
  : Z -> list (string * node) -> result errno node :=
  fun _ es => Ok (Dir now (entry_set name x es)).

Definition del_entry (now : Z) (name : string)
  : Z -> list (string * node) -> result errno node :=
  fun _ es => Ok (Dir now (entry_remove name es)).

(** *** Path strings *)

(** The absolute element list a path string denotes: the string's elements
    are applied to the root (rooted path) or to the working directory. *)
Definition abs (fs : filesystem) (s : string) : list string :=
  rev (fold_left (clean_step true) (Split s)
                 (if IsRooted s then [] else rev (cwd fs))).

(** The empty path names nothing. *)
Definition locate (fs : filesystem) (s : string)
  : result errno (list string) :=
  if String.eqb s "" then Err ENOENT else Ok (abs fs s).

(** The device of a path is its longest enclosing mount point. *)
Fixpoint is_prefix (p q : list string) : bool :=
  match p, q with
  | [], _ => true
  | x :: p', y :: q' => String.eqb x y && is_prefix p' q'
  | _ :: _, [] => false
  end.

Definition device (fs : filesystem) (p : list string) : list string :=
  fold_left (fun best m =>
               if is_prefix m p && (length best <? length m)%nat
               then m else best)
            (mounts fs) [].

(** *** File metadata *)

Record FileInfo := {
  fi_name : string;
  fi_size : Z;
  fi_mtime : Z;
  fi_isdir : bool;
}.

(** The size a directory reports is system-dependent; one block here. *)
Definition dir_size : Z := 4096.

Definition file_data (ino : nat) (tbl : gmap nat inode) : list Byte.byte :=
  match tbl !! ino with
  | Some i => i_data i
  | None => []
  end.

Definition info_of (tbl : gmap nat inode) (name : string) (n : node)
  : FileInfo :=
  match n with
  | File ino =>
      {| fi_name := name;
         fi_size := Z.of_nat (length (file_data ino tbl));
         fi_mtime := match tbl !! ino with
                     | Some i => i_mtime i
                     | None => 0%Z
                     end;
         fi_isdir := false |}
  | Dir mt _ =>
      {| fi_name := name; fi_size := dir_size; fi_mtime := mt;
         fi_isdir := true |}
  end.

(** State updates: a new tree, a new inode table, the clock. *)
Definition tick (fs : filesystem) : filesystem :=
  {| root_mtime := root_mtime fs; root_entries := root_entries fs;
     inodes := inodes fs; next_ino := next_ino fs; cwd := cwd fs;
     mounts := mounts fs; clock := (clock fs + 1)%Z |}.

Definition set_root (fs : filesystem) (r : node) : filesystem :=
  match r with
  | Dir mt es =>
      {| root_mtime := mt; root_entries := es;
         inodes := inodes fs; next_ino := next_ino fs; cwd := cwd fs;
         mounts := mounts fs; clock := clock fs |}
  | File _ => fs
  end.

Definition set_inode (fs : filesystem) (ino : nat) (i : inode)
  : filesystem :=
  {| root_mtime := root_mtime fs; root_entries := root_entries fs;
     inodes := <[ino := i]> (inodes fs);
     next_ino := Nat.max (next_ino fs) (S ino); cwd := cwd fs;
     mounts := mounts fs; clock := clock fs |}.

Definition with_root (fs : filesystem) (r : node) : filesystem :=
  tick (set_root fs r).

(** *** The [os] package *)

(** [os.Stat] (no symbolic links: also [os.Lstat]). *)
Definition os_Stat (fs : filesystem) (name : string)
  : result errno FileInfo :=
  match locate fs name with
  | Err e => Err e
  | Ok p =>
      match resolve p (root fs) with
      | Err e => Err e
      | Ok n => Ok (info_of (inodes fs) (filepath_Base name) n)
      end
  end.

(** [os.IsNotExist] on an error number. *)
Definition IsNotExist (e : errno) : bool :=
  match e with ENOENT => true | _ => false end.

(** [os.MkdirAll]: a directory that exists is left alone, a regular file
    in the way is [ENOTDIR]. *)
Definition os_MkdirAll (fs : filesystem) (name : string)
  : result errno filesystem :=
  match locate fs name with
  | Err e => Err e
  | Ok p =>
      match resolve p (root fs) with
      | Ok (Dir _ _) => Ok fs
      | Ok (File _) => Err ENOTDIR
      | Err _ =>
          match mkdir_all (clock fs) p (root fs) with
          | Ok r => Ok (with_root fs r)
          | Err e => Err e
          end
      end
  end.

(** An open file: a descriptor on an inode, or on a directory. *)
Inductive handle :=
| HFile (ino : nat)
| HDir.

(** [os.Open]. *)
Definition os_Open (fs : filesystem) (name : string) : result errno handle :=
  match locate fs name with
  | Err e => Err e
  | Ok p =>
      match resolve p (root fs) with
      | Err e => Err e
      | Ok (File ino) => Ok (HFile ino)
      | Ok (Dir _ _) => Ok HDir
      end
  end.

(** [os.Create]: open for writing, creating the file or truncating it. *)
Definition os_Create (fs : filesystem) (name : string)
  : result errno (filesystem * nat) :=
  match locate fs name with
  | Err e => Err e
  | Ok p =>
      let empty := {| i_data := []; i_mtime := clock fs |} in
      match resolve p (root fs) with
      | Ok (Dir _ _) => Err EISDIR
      | Ok (File ino) => Ok (tick (set_inode fs ino empty), ino)
      | Err ENOENT =>
          let ino := next_ino fs in
          match at_dir (parent p)
                       (add_entry (clock fs) (leaf p) (File ino))
                       (root fs) with
          | Err e => Err e
          | Ok r => Ok (with_root (set_inode fs ino empty) r, ino)
          end
      | Err e => Err e
      end
  end.

(** [os.File.Write] on a descriptor opened by [os_Create]: the bytes are
    appended to the inode; a write of no bytes changes nothing. *)
Definition file_Write (fs : filesystem) (ino : nat) (b : list Byte.byte)
  : filesystem :=
  match b with
  | [] => fs
  | _ =>
      tick (set_inode fs ino {| i_data := file_data ino (inodes fs) ++ b;
                                i_mtime := clock fs |})
  end.

(** Reading a descriptor to the end; a directory cannot be read. *)
Definition file_ReadAll (fs : filesystem) (h : handle)
  : result errno (list Byte.byte) :=
  match h with
  | HFile ino => Ok (file_data ino (inodes fs))
  | HDir => Err EISDIR
  end.

(** [os.Remove]: unlink a file or remove an empty directory. *)
Definition os_Remove (fs : filesystem) (name : string)
  : result errno filesystem :=
  match locate fs name with
  | Err e => Err e
  | Ok p =>
      match resolve p (root fs) with
      | Err e => Err e
      | Ok (Dir _ (_ :: _)) => Err ENOTEMPTY
      | Ok _ =>
          match p with
          | [] => Err EBUSY
          | _ =>
              match at_dir (parent p) (del_entry (clock fs) (leaf p))
                           (root fs) with
              | Ok r => Ok (with_root fs r)
              | Err e => Err e
              end
          end
      end
  end.

(** [os.RemoveAll] refuses a path whose last element is [.]. *)
Definition endsWithDot (name : string) : bool :=
  String.eqb (List.last (Split name) "") ".".

(** [os.RemoveAll]: the empty path and a missing target are successes; the
    target and everything below it are removed.  The root itself cannot be
    removed, only emptied. *)
Definition os_RemoveAll (fs : filesystem) (name : string)
  : result errno filesystem * filesystem :=
  if String.eqb name "" then (Ok fs, fs)
  else if endsWithDot name then (Err EINVAL, fs)
  else
    let p := abs fs name in
    match resolve p (root fs) with
    | Err ENOENT => (Ok fs, fs)
    | Err e => (Err e, fs)
    | Ok _ =>
        match p with
        | [] =>
            let fs' := with_root fs (Dir (clock fs) []) in (Err EBUSY, fs')
        | _ =>
            match at_dir (parent p) (del_entry (clock fs) (leaf p))
                         (root fs) with
            | Ok r => let fs' := with_root fs r in (Ok fs', fs')
            | Err e => (Err e, fs)
            end
        end
    end.

(** [os.Link]: a second name for the inode of [oldname]. *)
Definition os_Link (fs : filesystem) (oldname newname : string)
  : result errno filesystem :=
  match locate fs oldname, locate fs newname with
  | Err e, _ => Err e
  | _, Err e => Err e
  | Ok src, Ok dst =>
      match resolve src (root fs) with
      | Err e => Err e
      | Ok n =>
          match resolve dst (root fs) with
          | Ok _ => Err EEXIST
          | Err ENOENT =>
              match resolve (parent dst) (root fs), dst with
              | Err e, _ => Err e
              | Ok (File _), _ => Err ENOTDIR
              | Ok _, [] => Err EEXIST
              | Ok (Dir _ _), _ =>
                  if negb (bool_decide (device fs src = device fs dst))
                  then Err EXDEV
                  else
                    match n with
                    | Dir _ _ => Err EPERM
                    | File ino =>
                        match at_dir (parent dst)
                                (add_entry (clock fs) (leaf dst) (File ino))
                                (root fs) with
                        | Ok r => Ok (with_root fs r)
                        | Err e => Err e
                        end
                    end
              end
          | Err e => Err e
          end
      end
  end.

(** *** Directory listings and tree walks *)

(** Entries are listed in byte-wise order of their names. *)
Definition name_le {A : Type} (a b : string * A) : Prop :=
  String.leb a.1 b.1 = true.

#[global] Instance name_le_dec {A : Type} (a b : string * A)
  : Decision (name_le a b).
Proof. unfold name_le. apply _. Defined.

Definition by_name {A : Type} (l : list (string * A)) : list (string * A) :=
  merge_sort name_le l.

Record DirEntry := { de_name : string; de_info : FileInfo }.

(** [os.ReadDir]: the entries of a directory, sorted by file name. *)
Definition os_ReadDir (fs : filesystem) (name : string)
  : result errno (list DirEntry) :=
  match locate fs name with
  | Err e => Err e
  | Ok p =>
      match resolve p (root fs) with
      | Err e => Err e
      | Ok (File _) => Err ENOTDIR
      | Ok (Dir _ es) =>
          Ok (map (fun e => {| de_name := e.1;
                               de_info := info_of (inodes fs) e.1 e.2 |})
                  (by_name es))
      end
  end.

(** [DirEntry.Info]: the entry still exists, nothing else runs. *)
Definition DirEntry_Info (d : DirEntry) : result errno FileInfo :=
  Ok (de_info d).

(** What [filepath.Walk] hands to its callback, in order: the root, then
    for every directory its entries in name order, each followed by its own
    subtree.  Child paths are made with [filepath.Join]. *)
Inductive visit :=
| Visit (path : string) (info : FileInfo)
| VisitErr (path : string) (e : errno).

Fixpoint walk (tbl : gmap nat inode) (path : string) (n : node)
  : list visit :=
  match n with
  | File _ => [Visit path (info_of tbl (filepath_Base path) n)]
  | Dir _ es =>
      Visit path (info_of tbl (filepath_Base path) n)
      :: concat (map snd (by_name
           (map (fun e => (e.1, walk tbl (filepath_Join path e.1) e.2))
                es)))
  end.

Definition visits (fs : filesystem) (root_path : string) : list visit :=
  match locate fs root_path with
  | Err e => [VisitErr root_path e]
  | Ok p =>
      match resolve p (root fs) with
      | Err e => [VisitErr root_path e]
      | Ok n => walk (inodes fs) root_path n
      end
  end.

(** The callback runs on each visit in turn, threading its own state; the
    first error it returns ends the walk. *)
Fixpoint run_visits {S E : Type} (fn : S -> visit -> S * option E)
    (vs : list visit) (s : S) : S * option E :=
  match vs with
  | [] => (s, None)
  | v :: vs' =>
      match fn s v with
      | (s', None) => run_visits fn vs' s'
      | (s', Some e) => (s', Some e)
      end
  end.

(** [filepath.Walk]. *)
Definition filepath_Walk {S E : Type} (fs : filesystem) (root_path : string)
    (fn : S -> visit -> S * option E) (s : S) : S * option E :=
  run_visits fn (visits fs root_path) s.

(** *** Streams *)

(** An [io.Reader] as the sequence of its results: chunks of bytes ended by
    end-of-file or by an error. *)
Inductive reader (E : Type) :=
| REOF
| RFail (e : E)
| RChunk (b : list Byte.byte) (r : reader E).
Arguments REOF {E}.
Arguments RFail {E} e.
Arguments RChunk {E} b r.

(** [io.Copy(dst, r)]: every chunk read is written to [dst]; returns the
    number of bytes written and the reader's error, if any. *)
Fixpoint io_Copy {E : Type} (fs : filesystem) (dst : nat) (r : reader E)
  : filesystem * Z * option E :=
  match r with
  | REOF => (fs, 0%Z, None)
  | RFail e => (fs, 0%Z, Some e)
  | RChunk b r' =>
      let '(fs', n, e) := io_Copy (file_Write fs dst b) dst r' in
      (fs', (Z.of_nat (length b) + n)%Z, e)
  end.

(** The reader of an open file: its bytes in one chunk, or the read error
    of a directory. *)
Definition file_reader (fs : filesystem) (h : handle) : reader errno :=
  match file_ReadAll fs h with
  | Ok b => RChunk b REOF
  | Err e => RFail e
  end.

(** *** Refusals the tree does not explain

    Outside this model the kernel can refuse to unlink an entry that
    exists, for reasons the tree does not hold: the directory is sticky or
    append-only or not writable, the file is immutable, the entry is a
    mount point ([EPERM], [EBUSY]).  A policy gives, for a state and a
    path, the error of such a refusal.  [os_Remove_under] is [os.Remove]
    on a system with such a policy: the errors of the tree come first,
    then the refusal.  [os_Remove] is the case of a system that refuses
    nothing. *)
Definition unlink_policy : Type := filesystem → string → option errno.

Definition never_refused : unlink_policy := fun _ _ => None.

Definition os_Remove_under (refuse : unlink_policy) (fs : filesystem)
    (name : string) : result errno filesystem :=
  match os_Remove fs name with
  | Err e => Err e
  | Ok fs' =>
      match refuse fs name with
      | Some e => Err e
      | None => Ok fs'
      end
  end.

End OS.

Import OS.

(** ** The backend (pkg/storage/local.go) *)

Module Storage.

(** Modelled from the spec: [config.LocalConfig], declared in pkg/config.
    [Path] is the required base directory, [ObjectDiskPath] the optional
    object-disk directory, [Debug] the diagnostics switch.  Diagnostic
    output has no effect on results and is not modelled. *)
Record LocalConfig := {
  Path : string;
  ObjectDiskPath : string;
  Debug : bool;
}.

(** [Local]. *)
Record Local := { Config : LocalConfig }.

(** The error values the backend can return.
    - [ErrPathEscape]: [fmt.Errorf("path %q escapes base %q", key, base)];
    - [ErrNotFound]: modelled from the spec: the distinguished not-found
      sentinel of pkg/storage;
    - [ErrPath], [ErrLink]: [*os.PathError] and [*os.LinkError] with their
      error number;
    - [ErrCreateDir]: [fmt.Errorf("can't create directory %s: %v", ...)];
    - [ErrPathRequired], [ErrCreateLocalPath], [ErrCreateObjectDiskPath]:
      the errors of [Connect];
    - [ErrRel]: the error of [filepath.Rel];
    - [ErrCanceled], [ErrDeadlineExceeded]: [ctx.Err()];
    - [ErrCaller]: an error value produced by a caller-supplied reader or
      visitor. *)
Inductive error :=
| ErrPathEscape (key basePath : string)
| ErrNotFound
| ErrPath (e : errno)
| ErrLink (e : errno)
| ErrCreateDir (dir : string) (e : errno)
| ErrPathRequired
| ErrCreateLocalPath (path : string) (e : errno)
| ErrCreateObjectDiskPath (path : string) (e : errno)
| ErrRel
| ErrCanceled
| ErrDeadlineExceeded
| ErrCaller (id : nat).

(** [localFile], the backend's [RemoteFile]. *)
Record localFile := {
  size : Z;
  lastModified : Z;
  name : string;
}.

(** Modelled from the spec: the Key Failure ([KeyError] of pkg/storage),
    the failed key with its cause; the Batch Failure Report below carries
    the summary message and the ordered list of failures. *)
Record KeyError := { Key : string; Err_ : error }.

(** Modelled from the spec: the Batch Failure Report ([BatchDeleteError]
    of pkg/storage). *)
Record BatchDeleteError := {
  Message : string;
  Failures : list KeyError;
}.

(** What a batch delete returns as its [error]: [ctx.Err()] or a
    [*BatchDeleteError]. *)
Inductive batch_error :=
| BatchAborted (e : error)
| BatchFailed (b : BatchDeleteError).

(** [context.Context], as seen by one call: [Done i] tells whether the
    [i]-th poll of [ctx.Done()] finds the channel closed, and [CtxErr] is
    [ctx.Err()] from then on. *)
Record Context := {
  Done : nat -> bool;
  CtxErr : error;
}.

(** [Kind]. *)
Definition Kind (l : Local) : string := "LOCAL".

(** [containedPath]. *)
Definition containedPath (basePath key : string) : result error string :=
  let joined := Clean (filepath_Join basePath key) in
  let base := Clean basePath in
  if negb (HasPrefix joined (base +:+ String Separator ""))
     && negb (String.eqb joined base)
  then Err (ErrPathEscape key basePath)
  else Ok joined.

(** [Connect]. *)
Definition Connect (l : Local) (fs : filesystem)
  : filesystem * option error :=
  if String.eqb (Path (Config l)) "" then (fs, Some ErrPathRequired)
  else
    match os_MkdirAll fs (Path (Config l)) with
    | Err e => (fs, Some (ErrCreateLocalPath (Path (Config l)) e))
    | Ok fs1 =>
        if negb (String.eqb (ObjectDiskPath (Config l)) "") then
          match os_MkdirAll fs1 (ObjectDiskPath (Config l)) with
          | Err e =>
              (fs1, Some (ErrCreateObjectDiskPath
                            (ObjectDiskPath (Config l)) e))
          | Ok fs2 => (fs2, None)
          end
        else (fs1, None)
    end.

(** [Close]. *)
Definition Close (l : Local) (fs : filesystem) : filesystem * option error :=
  (fs, None).

(** [StatFileAbsolute]. *)
Definition StatFileAbsolute (l : Local) (fs : filesystem) (key : string)
  : result error localFile :=
  match os_Stat fs key with
  | Err err => if IsNotExist err then Err ErrNotFound else Err (ErrPath err)
  | Ok stat =>
      Ok {| size := fi_size stat;
            lastModified := fi_mtime stat;
            name := filepath_Base key |}
  end.

(** [StatFile]. *)
Definition StatFile (l : Local) (fs : filesystem) (key : string)
  : result error localFile :=
  match containedPath (Path (Config l)) key with
  | Err err => Err err
  | Ok absPath => StatFileAbsolute l fs absPath
  end.

(** [os.RemoveAll] as the backend uses it: the resulting filesystem and the
    returned error. *)
Definition RemoveAll (fs : filesystem) (absPath : string)
  : filesystem * option error :=
  match os_RemoveAll fs absPath with
  | (Ok _, fs') => (fs', None)
  | (Err e, fs') => (fs', Some (ErrPath e))
  end.

(** [DeleteFile]. *)
Definition DeleteFile (l : Local) (fs : filesystem) (key : string)
  : filesystem * option error :=
  match containedPath (Path (Config l)) key with
  | Err err => (fs, Some err)
  | Ok absPath => RemoveAll fs absPath
  end.

(** [DeleteFileFromObjectDiskBackup]. *)
Definition DeleteFileFromObjectDiskBackup (l : Local) (fs : filesystem)
    (key : string) : filesystem * option error :=
  match containedPath (ObjectDiskPath (Config l)) key with
  | Err err => (fs, Some err)
  | Ok absPath => RemoveAll fs absPath
  end.

(** The callback [WalkAbsolute] gives to [filepath.Walk]. *)
Definition walk_fn {S : Type} (prefix : string)
    (process : S -> localFile -> S * option error) (s : S) (v : visit)
  : S * option error :=
  match v with
  | VisitErr _ err =>
      if IsNotExist err then (s, None) else (s, Some (ErrPath err))
  | Visit fPath info =>
      match filepath_Rel prefix fPath with
      | None => (s, Some ErrRel)
      | Some relName =>
          if String.eqb relName "." then (s, None)
          else process s {| size := fi_size info;
                            lastModified := fi_mtime info;
                            name := relName |}
      end
  end.

(** The loop of the non-recursive branch of [WalkAbsolute]. *)
Fixpoint walk_entries {S : Type}
    (process : S -> localFile -> S * option error)
    (entries : list DirEntry) (s : S) : S * option error :=
  match entries with
  | [] => (s, None)
  | entry :: rest =>
      match DirEntry_Info entry with
      | Err infoErr => (s, Some (ErrPath infoErr))
      | Ok info =>
          match process s {| size := fi_size info;
                             lastModified := fi_mtime info;
                             name := de_name entry |} with
          | (s', Some err) => (s', Some err)
          | (s', None) => walk_entries process rest s'
          end
      end
  end.

(** [WalkAbsolute].  The visitor [process] threads a state of its own and
    does not change the filesystem. *)
Definition WalkAbsolute {S : Type} (l : Local) (fs : filesystem)
    (prefix : string) (recursive : bool)
    (process : S -> localFile -> S * option error) (s : S)
  : S * option error :=
  if recursive then filepath_Walk fs prefix (walk_fn prefix process) s
  else
    match os_ReadDir fs prefix with
    | Err err =>
        if IsNotExist err then (s, None) else (s, Some (ErrPath err))
    | Ok entries => walk_entries process entries s
    end.

(** [Walk]. *)
Definition Walk {S : Type} (l : Local) (fs : filesystem)
    (remotePath : string) (recursive : bool)
    (process : S -> localFile -> S * option error) (s : S)
  : S * option error :=
  let prefix := path_Join (Path (Config l)) remotePath in
  WalkAbsolute l fs prefix recursive process s.

(** [GetFileReaderAbsolute]. *)
Definition GetFileReaderAbsolute (l : Local) (fs : filesystem)
    (key : string) : result error handle :=
  match os_Open fs key with
  | Ok h => Ok h
  | Err e => Err (ErrPath e)
  end.

(** [GetFileReader]. *)
Definition GetFileReader (l : Local) (fs : filesystem) (key : string)
  : result error handle :=
  match containedPath (Path (Config l)) key with
  | Err err => Err err
  | Ok absPath => GetFileReaderAbsolute l fs absPath
  end.

(** [GetFileReaderWithLocalPath]. *)
Definition GetFileReaderWithLocalPath (l : Local) (fs : filesystem)
    (key localPath : string) (remoteSize : Z) : result error handle :=
  GetFileReader l fs key.

(** [PutFileAbsolute].  A failure of the clean-up [os.Remove] is only
    logged. *)
Definition PutFileAbsolute (l : Local) (fs : filesystem) (key : string)
    (r : reader error) (localSize : Z) : filesystem * option error :=
  let dir := filepath_Dir key in
  match os_MkdirAll fs dir with
  | Err err => (fs, Some (ErrCreateDir dir err))
  | Ok fs1 =>
      match os_Create fs1 key with
      | Err err => (fs1, Some (ErrPath err))
      | Ok (fs2, dst) =>
          match io_Copy fs2 dst r with
          | (fs3, _, Some err) =>
              match os_Remove fs3 key with
              | Ok fs4 => (fs4, Some err)
              | Err _ => (fs3, Some err)
              end
          | (fs3, _, None) => (fs3, None)
          end
      end
  end.

(** [PutFile]. *)
Definition PutFile (l : Local) (fs : filesystem) (key : string)
    (r : reader error) (localSize : Z) : filesystem * option error :=
  match containedPath (Path (Config l)) key with
  | Err err => (fs, Some err)
  | Ok absPath => PutFileAbsolute l fs absPath r localSize
  end.

(** [PutFileAbsolute] and [PutFile] on a system whose unlink follows the
    policy [refuse]: the same code, the clean-up [os.Remove] being the one
    of that system.  Its failure is only logged, so the state it leaves is
    the state after the copy. *)
Definition PutFileAbsolute_under (refuse : unlink_policy) (l : Local)
    (fs : filesystem) (key : string) (r : reader error) (localSize : Z)
  : filesystem * option error :=
  let dir := filepath_Dir key in
  match os_MkdirAll fs dir with
  | Err err => (fs, Some (ErrCreateDir dir err))
  | Ok fs1 =>
      match os_Create fs1 key with
      | Err err => (fs1, Some (ErrPath err))
      | Ok (fs2, dst) =>
          match io_Copy fs2 dst r with
          | (fs3, _, Some err) =>
              match os_Remove_under refuse fs3 key with
              | Ok fs4 => (fs4, Some err)
              | Err _ => (fs3, Some err)
              end
          | (fs3, _, None) => (fs3, None)
          end
      end
  end.

Definition PutFile_under (refuse : unlink_policy) (l : Local)
    (fs : filesystem) (key : string) (r : reader error) (localSize : Z)
  : filesystem * option error :=
  match containedPath (Path (Config l)) key with
  | Err err => (fs, Some err)
  | Ok absPath => PutFileAbsolute_under refuse l fs absPath r localSize
  end.

(** The fallback of [CopyObject]: open the source, create the destination,
    stream the bytes across. *)
Definition copy_fallback (fs : filesystem) (srcPath dstPath : string)
  : filesystem * result error Z :=
  match os_Open fs srcPath with
  | Err err => (fs, Err (ErrPath err))
  | Ok src =>
      match os_Create fs dstPath with
      | Err err => (fs, Err (ErrPath err))
      | Ok (fs2, dst) =>
          match io_Copy fs2 dst (file_reader fs2 src) with
          | (fs3, _, Some err) => (fs3, Err (ErrPath err))
          | (fs3, written, None) => (fs3, Ok written)
          end
      end
  end.

(** [CopyObject]. *)
Definition CopyObject (l : Local) (fs : filesystem) (srcSize : Z)
    (srcBucket srcKey dstKey : string) : filesystem * result error Z :=
  let dstKey := path_Join (ObjectDiskPath (Config l)) dstKey in
  let srcPath := path_Join (Path (Config l)) srcKey in
  let dstPath := dstKey in
  let dstDir := filepath_Dir dstPath in
  match os_MkdirAll fs dstDir with
  | Err err => (fs, Err (ErrCreateDir dstDir err))
  | Ok fs1 =>
      match os_Link fs1 srcPath dstPath with
      | Ok fs2 => (fs2, Ok srcSize)
      | Err _ => copy_fallback fs1 srcPath dstPath
      end
  end.

(** [fmt.Sprintf("%d", n)]. *)
Definition dec (n : nat) : string := NilEmpty.string_of_uint (Nat.to_uint n).

(** The loop of [deleteKeysBatchInternal]; [i] counts the polls of the
    context made so far. *)
Fixpoint batch_loop (ctx : Context) (basePath : string) (keys : list string)
    (i : nat) (fs : filesystem) (failures : list KeyError)
    (deletedCount : nat)
  : filesystem * result error (list KeyError * nat) :=
  match keys with
  | [] => (fs, Ok (failures, deletedCount))
  | key :: rest =>
      if Done ctx i then (fs, Err (CtxErr ctx))
      else
        match containedPath basePath key with
        | Err pathErr =>
            batch_loop ctx basePath rest (S i) fs
              (failures ++ [{| Key := key; Err_ := pathErr |}]) deletedCount
        | Ok absPath =>
            match RemoveAll fs absPath with
            | (fs', Some err) =>
                batch_loop ctx basePath rest (S i) fs'
                  (failures ++ [{| Key := key; Err_ := err |}]) deletedCount
            | (fs', None) =>
                batch_loop ctx basePath rest (S i) fs' failures
                  (S deletedCount)
            end
        end
  end.

(** [deleteKeysBatchInternal]. *)
Definition deleteKeysBatchInternal (l : Local) (ctx : Context)
    (fs : filesystem) (basePath : string) (keys : list string)
  : filesystem * option batch_error :=
  match batch_loop ctx basePath keys 0 fs [] 0 with
  | (fs', Err e) => (fs', Some (BatchAborted e))
  | (fs', Ok (failures, deletedCount)) =>
      if (0 <? length failures)%nat then
        (fs', Some (BatchFailed
           {| Message := "LOCAL batch delete: " +:+ dec deletedCount
                         +:+ " keys deleted, " +:+ dec (length failures)
                         +:+ " failed";
              Failures := failures |}))
      else (fs', None)
  end.

(** [DeleteKeysBatch]. *)
Definition DeleteKeysBatch (l : Local) (ctx : Context) (fs : filesystem)
    (keys : list string) : filesystem * option batch_error :=
  if (length keys =? 0)%nat then (fs, None)
  else deleteKeysBatchInternal l ctx fs (Path (Config l)) keys.

(** [DeleteKeysFromObjectDiskBackupBatch]. *)
Definition DeleteKeysFromObjectDiskBackupBatch (l : Local) (ctx : Context)
    (fs : filesystem) (keys : list string)
  : filesystem * option batch_error :=
  if (length keys =? 0)%nat then (fs, None)
  else deleteKeysBatchInternal l ctx fs (ObjectDiskPath (Config l)) keys.

End Storage.

Import Storage.

(** ** Spec-side notions *)

Module PathSpec.

(** [s] contains a separator. *)
Fixpoint has_sep (s : string) : bool :=
  match s with
  | EmptyString => false
  | String c s' => Ascii.eqb c Separator || has_sep s'
  end.

(** An element of a cleaned path: non-empty, without separator, not [.]. *)
Definition is_elem (c : string) : Prop :=
  c ≠ "" ∧ c ≠ "." ∧ has_sep c = false.

(** An ordinary file name: an element other than [..]. *)
Definition is_name (c : string) : Prop := is_elem c ∧ c ≠ "..".

#[global] Instance is_name_dec (c : string) : Decision (is_name c).
Proof. unfold is_name, is_elem. apply _. Defined.

(** The shape of [Clean]'s output stack (most recent element first):
    ordinary names on top of a run of [..], the run being empty when the
    path is rooted. *)
Fixpoint good_stack (rooted : bool) (out : list string) : Prop :=
  match out with
  | [] => True
  | c :: rest =>
      (is_name c ∧ good_stack rooted rest)
      ∨ (c = ".." ∧ rooted = false ∧ Forall (fun x => x = "..") rest)
  end.

(** The elements of a cleaned path, in order. *)
Definition normal (rooted : bool) (cs : list string) : Prop :=
  good_stack rooted (rev cs).

(** A base directory whose cleaned form begins with an ordinary name:
    not the root, not the current directory, not a path that climbs with
    [..]. *)
Definition ordinary_base (base : string) : Prop :=
  match elements base with
  | b :: _ => b ≠ ".."
  | [] => False
  end.

(** [p] lies strictly below the directory [base]: it is reached from [base]
    by descending through one or more ordinary names. *)
Definition strict_descendant (base p : string) : Prop :=
  ∃ rel : list string,
    rel ≠ [] ∧ Forall is_name rel
    ∧ p = Clean (base +:+ "/" +:+ String.concat "/" rel).

(** [p] is the directory [base] or lies below it. *)
Definition within (base p : string) : Prop :=
  p = base ∨ strict_descendant base p.

(** The limits of the kernel on a file name and on a path. *)
Definition NAME_MAX : nat := 255.
Definition PATH_MAX : nat := 4096.

(** [s] holds a NUL byte. *)
Fixpoint has_nul (s : string) : bool :=
  match s with
  | EmptyString => false
  | String c s' => Ascii.eqb c Ascii.zero || has_nul s'
  end.

(** A file name the kernel accepts in a directory entry: an ordinary name
    without NUL byte, of at most [NAME_MAX] bytes. *)
Definition valid_name (c : string) : Prop :=
  is_name c ∧ has_nul c = false ∧ (String.length c ≤ NAME_MAX)%nat.

#[global] Instance valid_name_dec (c : string) : Decision (valid_name c).
Proof. unfold valid_name. apply _. Defined.

(** An absolute path in cleaned form, made of valid names and shorter than
    [PATH_MAX].  On such a path, in a tree without symbolic links, the
    lexical resolution of the model is the resolution of the kernel: there
    is no [..] to cross a name that is not a directory, no trailing
    separator, no name the kernel refuses, and the working directory plays
    no part. *)
Definition plain_path (s : string) : Prop :=
  IsRooted s = true ∧ Clean s = s ∧ (String.length s < PATH_MAX)%nat
  ∧ Forall valid_name (elements s).

#[global] Instance plain_path_dec (s : string) : Decision (plain_path s).
Proof. unfold plain_path. apply _. Defined.

End PathSpec.

Import PathSpec.

Module TreeSpec.

(** The bytes a reader delivers before it ends. *)
Fixpoint reader_bytes {E : Type} (r : reader E) : list Byte.byte :=
  match r with
  | REOF => []
  | RFail _ => []
  | RChunk b r' => b ++ reader_bytes r'
  end.

(** The error a reader ends with, if it does not reach end-of-file. *)
Fixpoint reader_err {E : Type} (r : reader E) : option E :=
  match r with
  | REOF => None
  | RFail e => Some e
  | RChunk _ r' => reader_err r'
  end.

(** A visitor that records every File Descriptor it is given and never
    fails. *)
Definition collect (acc : list localFile) (f : localFile)
  : list localFile * option error :=
  (acc ++ [f], None).

(** A well-formed directory tree: entry names are ordinary names and are
    unique within their directory. *)
Fixpoint wf_node (n : node) : Prop :=
  match n with
  | File _ => True
  | Dir _ es =>
      NoDup (map fst es) ∧ Forall is_name (map fst es)
      ∧ fold_right (fun e acc => wf_node e.2 ∧ acc) True es
  end.

(** The relative element paths of everything strictly below a node: each
    entry of a directory, followed by what lies below that entry. *)
Fixpoint subtree (n : node) : list (list string) :=
  match n with
  | File _ => []
  | Dir _ es =>
      concat (map (fun e => [e.1] :: map (cons e.1) (subtree e.2)) es)
  end.

(** The relative element paths of the regular files strictly below a
    node. *)
Fixpoint files_below (n : node) : list (list string) :=
  match n with
  | File _ => []
  | Dir _ es =>
      concat (map (fun e => match e.2 with
                            | File _ => [[e.1]]
                            | Dir _ _ => map (cons e.1) (files_below e.2)
                            end) es)
  end.

(** The path names something. *)
Definition exists_at (fs : filesystem) (name : string) : Prop :=
  ∃ info, os_Stat fs name = Ok info.

(** One attempt of the batch delete on a key: resolve it through the guard
    and remove the target; the outcome is the error, if any. *)
Definition attempt (basePath : string) (fs : filesystem) (key : string)
  : filesystem * option error :=
  match containedPath basePath key with
  | Err e => (fs, Some e)
  | Ok absPath => RemoveAll fs absPath
  end.

(** Every key attempted once, in input order, whatever the outcome of the
    keys before it. *)
Fixpoint attempt_all (basePath : string) (fs : filesystem)
    (keys : list string) : filesystem * list (string * option error) :=
  match keys with
  | [] => (fs, [])
  | key :: rest =>
      let '(fs1, o) := attempt basePath fs key in
      let '(fs2, os) := attempt_all basePath fs1 rest in
      (fs2, (key, o) :: os)
  end.

(** The Key Failures among the outcomes, in order. *)
Fixpoint failures_of (os : list (string * option error)) : list KeyError :=
  match os with
  | [] => []
  | (key, Some e) :: os' => {| Key := key; Err_ := e |} :: failures_of os'
  | (_, None) :: os' => failures_of os'
  end.

(** The number of successful attempts. *)
Definition deleted_of (os : list (string * option error)) : nat :=
  (length os - length (failures_of os))%nat.

(** Running the recursive walk's callback with the recording visitor over
    [vs] appends exactly [out] to what was recorded, without error. *)
Definition emits (prefix : string) (vs : list visit) (out : list localFile)
  : Prop :=
  ∀ acc, run_visits (walk_fn prefix collect) vs acc = (acc ++ out, None).

(** Regular files outside the directory [basePath] stay where they are,
    with their bytes: every path that does not pass through the base and
    names a regular file in [fs] names the same inode in [fs'], holding
    the same bytes. *)
Definition keeps_outside (basePath : string) (fs fs' : filesystem) : Prop :=
  cwd fs' = cwd fs
  ∧ ∀ (q : list string) (i : nat),
      is_prefix (abs fs (Clean basePath)) q = false →
      resolve q (root fs) = Ok (File i) →
      resolve q (root fs') = Ok (File i)
      ∧ file_data i (inodes fs') = file_data i (inodes fs).

(** Handing File Descriptors to a visitor, in order, until it returns an
    error. *)
Fixpoint feed {S : Type} (process : S → localFile → S * option error)
    (files : list localFile) (s : S) : S * option error :=
  match files with
  | [] => (s, None)
  | f :: rest =>
      match process s f with
      | (s', None) => feed process rest s'
      | (s', Some e) => (s', Some e)
      end
  end.

(** The File Descriptor [f] describes the node [n]: the byte count of a
    regular file, the modification time of a directory. *)
Definition describes (tbl : gmap nat inode) (f : localFile) (n : node)
  : Prop :=
  match n with
  | File ino => size f = Z.of_nat (length (file_data ino tbl))
  | Dir mt _ => lastModified f = mt
  end.

(** The File Descriptor made from a directory entry. *)
Definition entry_file (d : DirEntry) : localFile :=
  {| size := fi_size (de_info d); lastModified := fi_mtime (de_info d);
     name := de_name d |}.

(** The path names a directory. *)
Definition is_directory (fs : filesystem) (name : string) : Prop :=
  ∃ info, os_Stat fs name = Ok info ∧ fi_isdir info = true.

(** Walking down [p] from [n] meets no regular file: the walk ends in a
    directory or at a missing entry. *)
Fixpoint no_file_on (p : list string) (n : node) : bool :=
  match n with
  | File _ => false
  | Dir _ es =>
      match p with
      | [] => true
      | c :: p' =>
          match entry_lookup c es with
          | Some n' => no_file_on p' n'
          | None => true
          end
      end
  end.

(** No regular file lies on the way to [name]: neither the path nor any
    of its leading parts names a regular file.  The path is taken in its
    cleaned form, which is the way the kernel goes on a plain path. *)
Definition way_clear (fs : filesystem) (name : string) : Prop :=
  no_file_on (abs fs name) (root fs) = true.

End TreeSpec.

Import TreeSpec.

(** ** Sample states *)

Module Sample.

(** A backend rooted at [/backup] with object disks under [/disks]. *)
Definition backend : Local :=
  {| Config := {| Path := "/backup"; ObjectDiskPath := "/disks";
                  Debug := false |} |}.

(** The same backend without an object-disk directory. *)
Definition no_object_disk : Local :=
  {| Config := {| Path := "/backup"; ObjectDiskPath := "";
                  Debug := false |} |}.

Definition hello : list Byte.byte := list_byte_of_string "hello".
Definition secret : list Byte.byte := list_byte_of_string "root:x:0:0".

(** A disk holding one backup, a file outside the base and an empty
    working directory. *)
Definition disk : filesystem :=
  {| root_mtime := 0;
     root_entries :=
       [("backup",
         Dir 0 [("b1",
                 Dir 0 [("data.bin", File 1);
                        ("shadow", Dir 0 [("part.bin", File 2)])])]);
        ("disks", Dir 0 []);
        ("etc", Dir 0 [("passwd", File 3)]);
        ("work", Dir 0 [])];
     inodes :=
       <[1 := {| i_data := hello; i_mtime := 0 |}]>
         (<[2 := {| i_data := hello ++ hello; i_mtime := 0 |}]>
            (<[3 := {| i_data := secret; i_mtime := 0 |}]> ∅));
     next_ino := 4;
     cwd := ["work"];
     mounts := [];
     clock := 1 |}.

(** A context that is never cancelled, and one cancelled from the
    start. *)
Definition background : Context :=
  {| Done := fun _ => false; CtxErr := ErrCanceled |}.

Definition canceled : Context :=
  {| Done := fun _ => true; CtxErr := ErrCanceled |}.

(** A reader that delivers [hello], and one that fails after it. *)
Definition good_reader : reader error := RChunk hello REOF.
Definition bad_reader : reader error := RChunk hello (RFail (ErrCaller 1)).

(** The backup directory [/backup/b1] of the sample disk. *)
Definition b1_tree : node :=
  Dir 0 [("data.bin", File 1); ("shadow", Dir 0 [("part.bin", File 2)])].

(** The states the sample operations lead to. *)
Definition after_put : filesystem :=
  fst (PutFile backend disk "b1/new.bin" good_reader 5).

Definition after_mkdir : filesystem :=
  match os_MkdirAll disk "/disks/d1" with
  | Ok fs => fs
  | Err _ => disk
  end.

Definition after_escape : filesystem * result error Z :=
  CopyObject backend disk 5 "" "../etc/passwd" "../work/stolen".

(** A backend whose directories do not exist yet. *)
Definition fresh : Local :=
  {| Config := {| Path := "/srv/store"; ObjectDiskPath := "/srv/disks";
                  Debug := false |} |}.

(** A context cancelled after its first poll. *)
Definition cancelled_after_one : Context :=
  {| Done := fun i => (1 <=? i)%nat; CtxErr := ErrCanceled |}.

(** A visitor that counts the entries it is given and gives up at the
    entry named [shadow]. *)
Definition stop_at_shadow (n : nat) (f : localFile) : nat * option error :=
  if String.eqb (name f) "shadow" then (n, Some (ErrCaller 7))
  else (S n, None).



(** The sample disk once [/backup/b1/new.bin] has been created, empty. *)
Definition after_create : filesystem :=
  match os_Create disk "/backup/b1/new.bin" with
  | Ok (fs, _) => fs
  | Err _ => disk
  end.

(** A system on which [/backup/b1] is an append-only directory: entries
    can be made in it, none can be unlinked. *)
Definition append_only_b1 : unlink_policy :=
  fun _ name => if HasPrefix name "/backup/b1/" then Some EPERM else None.

(** The sample disk after [b1/data.bin] has been hard-linked to the
    object-disk directory. *)
Definition after_link : filesystem :=
  fst (CopyObject backend disk 5 "" "b1/data.bin" "d1/obj").

End Sample.

(** * Properties *)

(** ** Test vectors of the path functions (from Go's own test tables) *)

Example Clean_vectors :
  map Clean [""; "abc"; "abc/def"; "a/b/c"; "."; ".."; "../.."; "../../abc";
             "/abc"; "/"; "abc/"; "abc/def/"; "a/b/c/"; "./"; "../"; "../../";
             "/abc/"; "abc//def//ghi"; "//abc"; "///abc"; "//abc//"; "abc//";
             "abc/./def"; "/./abc/def"; "abc/."; "abc/def/ghi/../jkl";
             "abc/def/../ghi/../jkl"; "abc/def/.."; "abc/def/../..";
             "/abc/def/../.."; "abc/def/../../.."; "/abc/def/../../..";
             "abc/def/../../../ghi/jkl/../../../mno"; "/../abc";
             "abc/./../def"; "abc//./../def"; "abc/../../././../def"]
  = ["."; "abc"; "abc/def"; "a/b/c"; "."; ".."; "../.."; "../../abc";
     "/abc"; "/"; "abc"; "abc/def"; "a/b/c"; "."; ".."; "../..";
     "/abc"; "abc/def/ghi"; "/abc"; "/abc"; "/abc"; "abc";
     "abc/def"; "/abc/def"; "abc"; "abc/def/jkl";
     "abc/jkl"; "abc"; ".";
     "/"; ".."; "/";
     "../../mno"; "/abc";
     "def"; "def"; "../../def"].
Proof. vm_compute. reflexivity. Qed.

Example Join_vectors :
  map (fun '(a, b) => (filepath_Join a b, path_Join a b))
      [("a", "b"); ("a", ""); ("", "b"); ("/", "a"); ("/", "a/b"); ("/", "");
       ("a/", "b"); ("a/", ""); ("", ""); ("/", "../a"); ("a", "../../b");
       ("/backup", "/etc/passwd")]
  = [("a/b", "a/b"); ("a", "a"); ("b", "b"); ("/a", "/a"); ("/a/b", "/a/b");
     ("/", "/"); ("a/b", "a/b"); ("a", "a"); ("", ""); ("/a", "/a");
     ("../b", "../b"); ("/backup/etc/passwd", "/backup/etc/passwd")].
Proof. vm_compute. reflexivity. Qed.

Example Base_vectors :
  map filepath_Base [""; "."; "/."; "/"; "////"; "x/"; "abc"; "abc/def"; "a/b/.x";
            "a/b/c."; "a/b/c.x"]
  = ["."; "."; "."; "/"; "/"; "x"; "abc"; "def"; ".x"; "c."; "c.x"].
Proof. vm_compute. reflexivity. Qed.

Example Dir_vectors :
  map filepath_Dir [""; "."; "/."; "/"; "/foo"; "x/"; "abc"; "abc/def"; "a/b/.x";
           "a/b/c."; "a/b/c.x"; "/backup/a/b"]
  = ["."; "."; "/"; "/"; "/"; "x"; "."; "abc"; "a/b"; "a/b"; "a/b";
     "/backup/a"].
Proof. vm_compute. reflexivity. Qed.

Example Rel_vectors :
  map (fun '(a, b) => filepath_Rel a b)
      [("a/b", "a/b"); ("a/b/.", "a/b"); ("a/b", "a/b/c/d"); ("a/b", "a/c");
       ("a/b", "../a/b"); ("/a/b", "/a/b/c"); ("/", "/a"); ("/a/b/c", "/a");
       ("..", "."); ("../../a/b", "../../a/b/c/d"); ("/a", "a"); ("", "a/b");
       ("a", "/a"); ("/a/b", "/c/d/e"); ("a", "."); ("a/b", "."); (".", "..")]
  = [Some "."; Some "."; Some "c/d"; Some "../c"; Some "../../../a/b";
     Some "c"; Some "a"; Some "../.."; None; Some "c/d"; None; Some "a/b";
     None; Some "../../c/d/e"; Some ".."; Some "../.."; Some ".."].
Proof. vm_compute. reflexivity. Qed.

(** ** Facts about strings and [Split] *)

Section StringFacts.

Lemma append_nil_l (t : string) : "" +:+ t = t.
Proof. reflexivity. Qed.

Lemma append_cons_l (c : ascii) (s t : string) :
  String c s +:+ t = String c (s +:+ t).
Proof. reflexivity. Qed.

Lemma append_nil_r (s : string) : s +:+ "" = s.
Proof.
  induction s as [|c s IH]; [reflexivity |].
  now rewrite append_cons_l, IH.
Qed.

Lemma append_assoc (a b c : string) : (a +:+ b) +:+ c = a +:+ (b +:+ c).
Proof.
  induction a as [|x a IH]; [reflexivity |].
  now rewrite !append_cons_l, IH.
Qed.

Lemma append_eq_nil (a b : string) : a +:+ b = "" → a = "" ∧ b = "".
Proof. destruct a; [auto | rewrite append_cons_l; discriminate]. Qed.

Lemma prefix_spec (p s : string) :
  String.prefix p s = true ↔ ∃ rest, s = p +:+ rest.
Proof.
  revert s. induction p as [|c p IH]; intros s.
  - split; [intros _; exists s; reflexivity | intros _; now destruct s].
  - destruct s as [|d s]; simpl.
    + split; [discriminate | intros [rest H]; discriminate].
    + destruct (ascii_dec c d) as [->|Hne].
      * rewrite IH. split; intros [rest H]; exists rest.
        -- now rewrite append_cons_l, H.
        -- rewrite append_cons_l in H. now injection H.
      * split; [discriminate |].
        intros [rest H]. rewrite append_cons_l in H. injection H. congruence.
Qed.

Lemma Split_nonempty (s : string) : Split s ≠ [].
Proof.
  induction s as [|c s IH]; simpl; [discriminate |].
  destruct (Ascii.eqb c Separator); [discriminate |].
  destruct (Split s); [contradiction | discriminate].
Qed.

Lemma Split_app (a b : string) :
  Split (a +:+ String Separator b) = Split a ++ Split b.
Proof.
  induction a as [|c a IH].
  - reflexivity.
  - rewrite append_cons_l. simpl.
    destruct (Ascii.eqb c Separator); [now rewrite IH |].
    rewrite IH. pose proof (Split_nonempty a) as Hne.
    destruct (Split a); [contradiction | reflexivity].
Qed.

Lemma Split_no_sep (s : string) : has_sep s = false → Split s = [s].
Proof.
  induction s as [|c s IH]; simpl; [reflexivity |].
  intros H. apply orb_false_iff in H as [Hc Hs].
  rewrite Hc, (IH Hs). reflexivity.
Qed.

Lemma Split_sep_free (s : string) :
  Forall (fun c => has_sep c = false) (Split s).
Proof.
  induction s as [|c s IH]; simpl.
  - repeat constructor.
  - destruct (Ascii.eqb c Separator) eqn:Hc.
    + constructor; [reflexivity | exact IH].
    + destruct (Split s) as [|x xs].
      * repeat constructor. simpl. now rewrite Hc.
      * inversion IH; subst.
        constructor; [simpl; rewrite Hc; assumption | assumption].
Qed.

Lemma concat_cons (x : string) (xs : list string) :
  xs ≠ [] →
  String.concat "/" (x :: xs) = x +:+ String Separator (String.concat "/" xs).
Proof. destruct xs; [contradiction | reflexivity]. Qed.

Lemma Split_concat (cs : list string) :
  cs ≠ [] → Forall (fun c => has_sep c = false) cs →
  Split (String.concat "/" cs) = cs.
Proof.
  induction cs as [|c cs IH]; [contradiction |].
  intros _ H. inversion H as [|? ? Hc Hcs]; subst.
  destruct cs as [|d cs].
  - simpl. now apply Split_no_sep.
  - rewrite concat_cons by discriminate.
    rewrite Split_app, (Split_no_sep _ Hc), IH by (assumption || discriminate).
    reflexivity.
Qed.

Lemma concat_app (xs ys : list string) :
  xs ≠ [] → ys ≠ [] →
  String.concat "/" (xs ++ ys)
  = String.concat "/" xs +:+ String Separator (String.concat "/" ys).
Proof.
  induction xs as [|x xs IH]; [contradiction |]. intros _ Hys.
  destruct xs as [|x' xs].
  - simpl app. now rewrite concat_cons.
  - change ((x :: x' :: xs) ++ ys) with (x :: ((x' :: xs) ++ ys)).
    rewrite concat_cons by discriminate.
    rewrite IH by (assumption || discriminate).
    rewrite (concat_cons x (x' :: xs)) by discriminate.
    rewrite append_assoc, append_cons_l. reflexivity.
Qed.

Lemma concat_nonempty (c : string) (cs : list string) :
  c ≠ "" → String.concat "/" (c :: cs) ≠ "".
Proof.
  intros Hc. destruct cs; simpl; [assumption |].
  intros H. apply append_eq_nil in H as [? _]. contradiction.
Qed.

Lemma IsRooted_append (a b : string) :
  a ≠ "" → IsRooted (a +:+ b) = IsRooted a.
Proof. destruct a; [contradiction | reflexivity]. Qed.

Lemma IsRooted_no_sep (c rest : string) :
  c ≠ "" → has_sep c = false → IsRooted (c +:+ rest) = false.
Proof.
  destruct c as [|x c]; [contradiction |]. rewrite append_cons_l. simpl.
  intros _ H. now apply orb_false_iff in H as [H _].
Qed.

End StringFacts.

(** ** Facts about [Clean] *)

Section CleanFacts.

Lemma elem_cases (c : string) :
  has_sep c = false → c = "" ∨ c = "." ∨ c = ".." ∨ is_name c.
Proof.
  intros H.
  destruct (decide (c = "")) as [|H1]; [auto |].
  destruct (decide (c = ".")) as [|H2]; [auto |].
  destruct (decide (c = "..")) as [|H3]; [auto |].
  right; right; right. repeat split; assumption.
Qed.

Lemma clean_step_name (r : bool) (out : list string) (c : string) :
  is_name c → clean_step r out c = c :: out.
Proof.
  intros [(H1 & H2 & _) H3]. unfold clean_step.
  apply String.eqb_neq in H1, H2, H3. now rewrite H1, H2, H3.
Qed.

Lemma fold_names (r : bool) (cs out : list string) :
  Forall is_name cs → fold_left (clean_step r) cs out = rev cs ++ out.
Proof.
  revert out. induction cs as [|c cs IH]; intros out H; [reflexivity |].
  inversion H; subst. simpl. rewrite clean_step_name by assumption.
  rewrite IH by assumption. now rewrite <- app_assoc.
Qed.

Lemma good_dots (l : list string) :
  Forall (fun x => x = "..") l → good_stack false l.
Proof.
  induction 1 as [|c l Hc Hl IH]; simpl; [exact I |]. right. auto.
Qed.

Lemma good_tail (r : bool) (c : string) (out : list string) :
  good_stack r (c :: out) → good_stack r out.
Proof.
  simpl. intros [[_ H] | (_ & -> & H)]; [assumption | now apply good_dots].
Qed.

Lemma good_elems (r : bool) (out : list string) :
  good_stack r out → Forall is_elem out.
Proof.
  induction out as [|c out IH]; [constructor |].
  intros H. constructor; [| apply IH; eapply good_tail; eassumption].
  destruct H as [[[H _] _] | (-> & _ & _)]; [assumption |].
  repeat split; discriminate || reflexivity.
Qed.

Lemma good_push_names (r : bool) (names out : list string) :
  Forall is_name names → good_stack r out → good_stack r (names ++ out).
Proof. induction 1; simpl; auto. Qed.

Lemma clean_step_good (r : bool) (out : list string) (c : string) :
  good_stack r out → has_sep c = false → good_stack r (clean_step r out c).
Proof.
  intros Hg Hc. destruct (elem_cases c Hc) as [-> | [-> | [-> | Hn]]].
  - exact Hg.
  - exact Hg.
  - unfold clean_step. simpl String.eqb. cbv iota.
    destruct out as [|top rest].
    + destruct r; simpl; [exact I |]. right. auto.
    + destruct (String.eqb_spec top "..") as [-> | Hne].
      * destruct Hg as [[[_ Hbad] _] | (_ & -> & Hd)]; [contradiction |].
        right. repeat split. now constructor.
      * eapply good_tail; eassumption.
  - rewrite clean_step_name by assumption. left. auto.
Qed.

Lemma fold_good (r : bool) (cs out : list string) :
  good_stack r out → Forall (fun c => has_sep c = false) cs →
  good_stack r (fold_left (clean_step r) cs out).
Proof.
  revert out. induction cs as [|c cs IH]; intros out Hg H; [exact Hg |].
  inversion H; subst. simpl. apply IH; [| assumption].
  now apply clean_step_good.
Qed.

(** Cleaning what is already clean changes nothing. *)
Lemma normal_refold (r : bool) (cs : list string) :
  normal r cs → fold_left (clean_step r) cs [] = rev cs.
Proof.
  unfold normal. induction cs as [|c cs IH] using rev_ind; [reflexivity |].
  rewrite rev_unit, fold_left_app. intros Hg. simpl.
  rewrite IH by (eapply good_tail; eassumption).
  destruct Hg as [[Hn _] | (-> & -> & Hd)].
  - now apply clean_step_name.
  - unfold clean_step. simpl String.eqb. cbv iota.
    destruct (rev cs) as [|top rest]; [reflexivity |].
    inversion Hd; subst. reflexivity.
Qed.

Lemma normal_elems (r : bool) (cs : list string) :
  normal r cs → Forall is_elem cs.
Proof.
  intros H. apply good_elems in H. apply Forall_rev in H.
  now rewrite rev_involutive in H.
Qed.

Lemma normal_nil (r : bool) : normal r [].
Proof. exact I. Qed.

Lemma normal_snoc_names (r : bool) (cs names : list string) :
  normal r cs → Forall is_name names → normal r (cs ++ names).
Proof.
  unfold normal. intros Hg Hn. rewrite rev_app_distr.
  apply good_push_names; [now apply Forall_rev | assumption].
Qed.

(** A cleaned path whose first element is an ordinary name consists of
    ordinary names only. *)
Lemma good_last_name (r : bool) (out : list string) (d : string) :
  good_stack r out → out ≠ [] → is_name (List.last out d) →
  Forall is_name out.
Proof.
  induction out as [|c out IH]; [contradiction |].
  intros Hg _ Hl. destruct Hg as [[Hc Hg] | (-> & _ & Hd)].
  - constructor; [assumption |].
    destruct out as [|c' out']; [constructor |].
    apply IH; [assumption | discriminate | exact Hl].
  - exfalso. assert (List.last (".." :: out) d = "..") as E.
    { clear IH Hl. induction Hd as [|x l Hx Hd IH]; [reflexivity |].
      subst x. destruct l; [reflexivity | exact IH]. }
    rewrite E in Hl. destruct Hl as [_ Hl]. contradiction.
Qed.

Lemma normal_head_name (r : bool) (b : string) (cs : list string) :
  normal r (b :: cs) → b ≠ ".." → Forall is_name (b :: cs).
Proof.
  intros Hn Hb. pose proof (normal_elems _ _ Hn) as He.
  unfold normal in Hn.
  assert (Forall is_name (rev (b :: cs))) as H.
  { apply (good_last_name r _ ""); [assumption | |].
    - simpl. now destruct (rev cs).
    - simpl rev. rewrite last_last. inversion He; subst. split; assumption. }
  apply Forall_rev in H. now rewrite rev_involutive in H.
Qed.

Lemma elements_normal (s : string) : normal (IsRooted s) (elements s).
Proof.
  unfold normal, elements. rewrite rev_involutive.
  apply fold_good; [exact I | apply Split_sep_free].
Qed.

Lemma Clean_render (s : string) :
  Clean s = render (IsRooted s) (elements s).
Proof. unfold Clean. destruct (String.eqb_spec s ""); [now subst | reflexivity]. Qed.

Lemma Split_cons_sep (s : string) :
  Split (String Separator s) = "" :: Split s.
Proof. reflexivity. Qed.

Lemma render_rooted (cs : list string) :
  render true cs = String Separator (String.concat "/" cs).
Proof. reflexivity. Qed.

Lemma render_relative (c : string) (cs : list string) :
  c ≠ "" → render false (c :: cs) = String.concat "/" (c :: cs).
Proof.
  intros Hc. unfold render.
  destruct (String.eqb_spec (String.concat "/" (c :: cs)) "") as [E|]; [| reflexivity].
  now apply concat_nonempty in E.
Qed.

Lemma render_nonempty (r : bool) (cs : list string) :
  Forall is_elem cs → render r cs ≠ "".
Proof.
  intros H. destruct r; [discriminate |].
  destruct cs as [|c cs]; [discriminate |].
  inversion H as [|? ? (Hc & _) _]; subst.
  rewrite render_relative by assumption. now apply concat_nonempty.
Qed.

Lemma elems_sep_free (cs : list string) :
  Forall is_elem cs → Forall (fun c => has_sep c = false) cs.
Proof. intros H. eapply Forall_impl; [exact H |]. now intros c (_ & _ & Hc). Qed.

Lemma IsRooted_render (r : bool) (cs : list string) :
  Forall is_elem cs → IsRooted (render r cs) = r.
Proof.
  intros H. destruct r; [reflexivity |].
  destruct cs as [|c cs]; [reflexivity |].
  inversion H as [|? ? (Hc & _ & Hs) _]; subst.
  rewrite render_relative by assumption.
  destruct cs as [|d cs].
  - simpl. rewrite <- (append_nil_r c). now apply IsRooted_no_sep.
  - rewrite concat_cons by discriminate. now apply IsRooted_no_sep.
Qed.

(** The elements of a cleaned path are recovered from its text. *)
Lemma elements_render (r : bool) (cs : list string) :
  normal r cs → elements (render r cs) = cs.
Proof.
  intros Hn. pose proof (normal_elems _ _ Hn) as He.
  unfold elements. rewrite IsRooted_render by assumption.
  assert (fold_left (clean_step r) (Split (render r cs)) [] = rev cs) as ->;
    [| apply rev_involutive].
  destruct r.
  - rewrite render_rooted, Split_cons_sep.
    destruct cs as [|c cs]; [reflexivity |].
    rewrite Split_concat by (discriminate || now apply elems_sep_free).
    change (fold_left (clean_step true) ("" :: c :: cs) [])
      with (fold_left (clean_step true) (c :: cs) []).
    now apply normal_refold.
  - destruct cs as [|c cs]; [reflexivity |].
    inversion He as [|? ? (Hc & _) _]; subst.
    rewrite render_relative by assumption.
    rewrite Split_concat by (discriminate || now apply elems_sep_free).
    now apply normal_refold.
Qed.

Lemma Clean_of_render (r : bool) (cs : list string) :
  normal r cs → Clean (render r cs) = render r cs.
Proof.
  intros Hn. rewrite Clean_render, elements_render by assumption.
  now rewrite IsRooted_render by (eapply normal_elems; eassumption).
Qed.

(** [Clean] is idempotent. *)
Lemma Clean_idem (s : string) : Clean (Clean s) = Clean s.
Proof. rewrite (Clean_render s). apply Clean_of_render, elements_normal. Qed.

Lemma render_inj (r : bool) (xs ys : list string) :
  normal r xs → normal r ys → render r xs = render r ys → xs = ys.
Proof.
  intros Hx Hy E. rewrite <- (elements_render r xs), <- (elements_render r ys)
    by assumption. now rewrite E.
Qed.

(** The elements of [a/b]: the elements of [b] applied to those of [a]. *)
Lemma elements_join (a b : string) :
  a ≠ "" →
  elements (a +:+ String Separator b)
  = rev (fold_left (clean_step (IsRooted a)) (Split b) (rev (elements a))).
Proof.
  intros Ha. unfold elements.
  rewrite IsRooted_append, Split_app, fold_left_app by assumption.
  now rewrite rev_involutive.
Qed.

Lemma normal_join (a b : string) :
  a ≠ "" → normal (IsRooted a) (elements (a +:+ String Separator b)).
Proof.
  intros Ha. rewrite <- (IsRooted_append a (String Separator b)) by assumption.
  apply elements_normal.
Qed.

(** Descending from [a] through ordinary names appends them. *)
Lemma elements_join_names (a : string) (names : list string) :
  a ≠ "" → names ≠ [] → Forall is_name names →
  elements (a +:+ String Separator (String.concat "/" names))
  = elements a ++ names.
Proof.
  intros Ha Hne Hn. rewrite elements_join by assumption.
  rewrite Split_concat.
  - rewrite fold_names by assumption.
    now rewrite rev_app_distr, !rev_involutive.
  - assumption.
  - eapply Forall_impl; [exact Hn |]. now intros c [(_ & _ & H) _].
Qed.

End CleanFacts.

(** ** The path containment guard *)

Section Guard.

Lemma filepath_Join_nonempty (a b : string) :
  a ≠ "" → filepath_Join a b = Clean (a +:+ String Separator b).
Proof.
  intros Ha. unfold filepath_Join.
  apply String.eqb_neq in Ha. now rewrite Ha.
Qed.

Lemma path_Join_nonempty (a b : string) :
  a ≠ "" → path_Join a b = Clean (a +:+ String Separator b).
Proof.
  intros Ha. unfold path_Join.
  destruct a as [|c a]; [contradiction |].
  change (Clean ((String c a +:+ "/") +:+ b)
          = Clean (String c a +:+ String Separator b)).
  now rewrite append_assoc.
Qed.

Lemma ordinary_base_nonempty (base : string) : ordinary_base base → base ≠ "".
Proof. intros H ->. exact H. Qed.

(** The prefix test of the guard, read on elements. *)
Lemma HasPrefix_render (r : bool) (J B : list string) :
  normal r J → normal r B → B ≠ [] →
  HasPrefix (render r J) (render r B +:+ String Separator "") = true
  ↔ ∃ R, R ≠ [] ∧ J = B ++ R.
Proof.
  intros HJ HB HBne.
  pose proof (normal_elems _ _ HJ) as HJe.
  pose proof (normal_elems _ _ HB) as HBe.
  pose proof (elems_sep_free _ HJe) as HJs.
  pose proof (elems_sep_free _ HBe) as HBs.
  destruct B as [|b B]; [contradiction |].
  assert (b ≠ "") as Hb by (inversion HBe as [|? ? (? & _) _]; assumption).
  unfold HasPrefix. rewrite prefix_spec. split.
  - intros [rest E]. rewrite append_assoc, append_cons_l, append_nil_l in E.
    assert (String.concat "/" J
            = String.concat "/" (b :: B) +:+ String Separator rest) as E'.
    { destruct r.
      - rewrite !render_rooted, append_cons_l in E. now injection E.
      - rewrite (render_relative b B Hb) in E.
        destruct J as [|c J].
        + exfalso. change (render false []) with "." in E.
          destruct (String.concat "/" (b :: B)) as [|x s] eqn:Ec.
          * now apply concat_nonempty in Ec.
          * rewrite append_cons_l in E. injection E as _ E.
            symmetry in E. apply append_eq_nil in E as [_ E]. discriminate.
        + inversion HJe as [|? ? (Hc & _) _]; subst.
          now rewrite (render_relative c J Hc) in E. }
    destruct J as [|c J].
    { simpl in E'. symmetry in E'. apply append_eq_nil in E' as [_ E'].
      discriminate. }
    exists (Split rest). split; [apply Split_nonempty |].
    rewrite <- (Split_concat (c :: J)) by (discriminate || assumption).
    rewrite E', Split_app, Split_concat by (discriminate || assumption).
    reflexivity.
  - intros (R & HR & ->). exists (String.concat "/" R).
    rewrite append_assoc, append_cons_l, append_nil_l.
    destruct r.
    + rewrite !render_rooted, append_cons_l. f_equal.
      apply concat_app; [discriminate | assumption].
    + rewrite (render_relative b B Hb).
      change ((b :: B) ++ R) with (b :: (B ++ R)).
      rewrite (render_relative b (B ++ R) Hb).
      apply (concat_app (b :: B) R); [discriminate | assumption].
Qed.

(** Lying strictly below a cleaned directory, read on elements. *)
Lemma strict_descendant_render (r : bool) (J B : list string) :
  normal r J → normal r B →
  strict_descendant (render r B) (render r J)
  ↔ ∃ R, R ≠ [] ∧ Forall is_name R ∧ J = B ++ R.
Proof.
  intros HJ HB. pose proof (normal_elems _ _ HB) as HBe.
  assert (∀ R, R ≠ [] → Forall is_name R →
    Clean (render r B +:+ "/" +:+ String.concat "/" R) = render r (B ++ R))
    as HC.
  { intros R HR Hn.
    change (render r B +:+ "/" +:+ String.concat "/" R)
      with (render r B +:+ String Separator (String.concat "/" R)).
    rewrite Clean_render, elements_join_names
      by (assumption || now apply render_nonempty).
    rewrite IsRooted_append by now apply render_nonempty.
    now rewrite IsRooted_render, elements_render by assumption. }
  split.
  - intros (R & HR & Hn & E). exists R. repeat split; try assumption.
    rewrite HC in E by assumption.
    apply (render_inj r); [assumption | now apply normal_snoc_names | exact E].
  - intros (R & HR & Hn & ->). exists R. repeat split; try assumption.
    symmetry. now apply HC.
Qed.

(** On a base whose cleaned form begins with an ordinary name (any base
    other than the root, the current directory and paths that climb with
    [..]) the guard accepts exactly the keys that resolve to the base or
    below it, and returns the cleaned join. *)
Lemma containedPath_ordinary (basePath key : string) :
  ordinary_base basePath →
  let joined := Clean (basePath +:+ "/" +:+ key) in
  (within (Clean basePath) joined → containedPath basePath key = Ok joined)
  ∧ (¬ within (Clean basePath) joined →
     containedPath basePath key = Err (ErrPathEscape key basePath)).
Proof.
  intros Hob joined.
  pose proof (ordinary_base_nonempty _ Hob) as Hne.
  set (r := IsRooted basePath).
  set (B := elements basePath).
  set (J := elements (basePath +:+ String Separator key)).
  assert (normal r B) as HB by apply elements_normal.
  assert (normal r J) as HJ by now apply normal_join.
  assert (Clean basePath = render r B) as EB by apply Clean_render.
  assert (joined = render r J) as EJ.
  { unfold joined.
    change (basePath +:+ "/" +:+ key) with (basePath +:+ String Separator key).
    rewrite Clean_render. now rewrite IsRooted_append. }
  assert (B ≠ []) as HBne.
  { unfold ordinary_base in Hob. fold B in Hob. now destruct B. }
  assert (within (Clean basePath) joined ↔ ∃ R, Forall is_name R ∧ J = B ++ R)
    as HW.
  { rewrite EB, EJ. unfold within.
    rewrite strict_descendant_render by assumption. split.
    - intros [E | (R & _ & Hn & E)].
      + exists []. split; [constructor |].
        rewrite app_nil_r. now apply (render_inj r).
      + now exists R.
    - intros ([|x R] & Hn & E).
      + left. now rewrite E, app_nil_r.
      + right. exists (x :: R). repeat split; [discriminate | assumption..]. }
  assert (containedPath basePath key
          = if negb (HasPrefix (render r J) (render r B +:+ String Separator ""))
               && negb (String.eqb (render r J) (render r B))
            then Err (ErrPathEscape key basePath) else Ok joined) as EC.
  { unfold containedPath. rewrite filepath_Join_nonempty by assumption.
    rewrite Clean_idem. fold joined. now rewrite EB, <- EJ. }
  rewrite EC, HW. clear EC HW.
  destruct (HasPrefix (render r J) (render r B +:+ String Separator ""))
    eqn:HP.
  - split; [reflexivity |]. intros Hn. exfalso. apply Hn.
    apply HasPrefix_render in HP as (R & HR & E); try assumption.
    exists R. split; [| exact E].
    unfold ordinary_base in Hob. fold B in Hob.
    destruct B as [|b B']; [contradiction |].
    assert (Forall is_name (b :: (B' ++ R))) as HN.
    { apply (normal_head_name r); [| exact Hob]. now rewrite E in HJ. }
    inversion HN; subst. now apply Forall_app in H2 as [_ ?].
  - destruct (String.eqb_spec (render r J) (render r B)) as [E | NE]; simpl.
    + split; [reflexivity |]. intros Hn. exfalso. apply Hn.
      exists []. split; [constructor |].
      rewrite app_nil_r. now apply (render_inj r).
    + split; [| reflexivity]. intros (R & Hn & E). exfalso.
      destruct R as [|x R].
      * apply NE. now rewrite E, app_nil_r.
      * assert (HasPrefix (render r J) (render r B +:+ String Separator "")
                = true) as HP'.
        { apply HasPrefix_render; try assumption.
          exists (x :: R). split; [discriminate | exact E]. }
        congruence.
Qed.

End Guard.

(** ** Facts about the directory tree *)

Section TreeFacts.

Lemma entry_lookup_set_eq (n : string) (x : node) (es : list (string * node)) :
  entry_lookup n (entry_set n x es) = Some x.
Proof.
  induction es as [|[m y] es IH]; simpl.
  - now rewrite String.eqb_refl.
  - destruct (String.eqb_spec m n) as [-> | Hne]; simpl.
    + now rewrite String.eqb_refl.
    + apply String.eqb_neq in Hne. now rewrite Hne.
Qed.

Lemma entry_lookup_set_ne (n m : string) (x : node)
    (es : list (string * node)) :
  n ≠ m → entry_lookup m (entry_set n x es) = entry_lookup m es.
Proof.
  intros Hnm. induction es as [|[k y] es IH]; simpl.
  - apply String.eqb_neq in Hnm. now rewrite Hnm.
  - destruct (String.eqb_spec k n) as [-> | Hne]; simpl.
    + apply String.eqb_neq in Hnm. now rewrite Hnm.
    + now rewrite IH.
Qed.

Lemma entry_lookup_remove_eq (n : string) (es : list (string * node)) :
  entry_lookup n (entry_remove n es) = None.
Proof.
  induction es as [|[m y] es IH]; simpl; [reflexivity |].
  destruct (String.eqb_spec m n) as [-> | Hne]; simpl; [assumption |].
  apply String.eqb_neq in Hne. now rewrite Hne.
Qed.

Lemma entry_lookup_remove_ne (n m : string) (es : list (string * node)) :
  n ≠ m → entry_lookup m (entry_remove n es) = entry_lookup m es.
Proof.
  intros Hnm. induction es as [|[k y] es IH]; simpl; [reflexivity |].
  destruct (String.eqb_spec k n) as [-> | Hne]; simpl.
  - apply String.eqb_neq in Hnm. now rewrite Hnm.
  - now rewrite IH.
Qed.

Lemma resolve_app (p q : list string) (t : node) :
  resolve (p ++ q) t
  = match resolve p t with Ok n => resolve q n | Err e => Err e end.
Proof.
  revert t. induction p as [|c p IH]; intros t; simpl; [reflexivity |].
  destruct t as [|mt es]; [reflexivity |].
  destruct (entry_lookup c es); [apply IH | reflexivity].
Qed.

Lemma path_split (p : list string) : p ≠ [] → p = parent p ++ [leaf p].
Proof. intros H. now apply app_removelast_last. Qed.

(** What a successful rewrite of the directory at [d] leaves behind. *)
Lemma at_dir_resolve (d : list string)
    (f : Z → list (string * node) → result errno node) (t t' : node) :
  at_dir d f t = Ok t' →
  ∃ mt es n',
    resolve d t = Ok (Dir mt es) ∧ f mt es = Ok n'
    ∧ ∀ q, resolve (d ++ q) t' = resolve q n'.
Proof.
  revert t t'. induction d as [|c d IH]; intros t t' H.
  - destruct t as [|mt es]; [discriminate |]. simpl in H.
    exists mt, es, t'. repeat split; auto.
  - destruct t as [|mt es]; [discriminate |]. simpl in H.
    destruct (entry_lookup c es) as [n1|] eqn:El; [| discriminate].
    destruct (at_dir d f n1) as [n1'|e] eqn:Ea; [| discriminate].
    injection H as <-.
    destruct (IH _ _ Ea) as (mt' & es' & n' & Hr & Hf & Hq).
    exists mt', es', n'. simpl. rewrite El. repeat split; auto.
    intros q. now rewrite entry_lookup_set_eq.
Qed.

Lemma at_dir_total (d : list string)
    (f : Z → list (string * node) → result errno node) (t : node)
    (mt : Z) (es : list (string * node)) (n' : node) :
  resolve d t = Ok (Dir mt es) → f mt es = Ok n' →
  ∃ t', at_dir d f t = Ok t'.
Proof.
  revert t. induction d as [|c d IH]; intros t Hr Hf.
  - simpl in Hr. injection Hr as ->. simpl. eauto.
  - destruct t as [|mt0 es0]; [discriminate |]. simpl in *.
    destruct (entry_lookup c es0) as [n1|]; [| discriminate].
    destruct (IH _ Hr Hf) as [t1 ->]. eauto.
Qed.

Lemma at_dir_is_dir (d : list string)
    (f : Z → list (string * node) → result errno node) (t t' : node) :
  (∀ mt es x, f mt es = Ok x → ∃ mt' es', x = Dir mt' es') →
  at_dir d f t = Ok t' → ∃ mt' es', t' = Dir mt' es'.
Proof.
  intros Hf H. destruct t as [|mt es]; [destruct d; discriminate |].
  destruct d as [|c d]; simpl in H; [eauto |].
  destruct (entry_lookup c es); [| discriminate].
  destruct (at_dir d f n); [| discriminate]. injection H as <-. eauto.
Qed.

Lemma add_entry_dir (now : Z) (nm : string) (x : node) mt es y :
  add_entry now nm x mt es = Ok y → ∃ mt' es', y = Dir mt' es'.
Proof. intros H. injection H as <-. eauto. Qed.

Lemma del_entry_dir (now : Z) (nm : string) mt es y :
  del_entry now nm mt es = Ok y → ∃ mt' es', y = Dir mt' es'.
Proof. intros H. injection H as <-. eauto. Qed.

Lemma resolve_parent (p : list string) (t x : node) :
  p ≠ [] → resolve p t = Ok x →
  ∃ mt es, resolve (parent p) t = Ok (Dir mt es).
Proof.
  intros Hp H. rewrite (path_split p Hp), resolve_app in H.
  destruct (resolve (parent p) t) as [n|]; [| discriminate].
  destruct n as [|mt es]; [discriminate | eauto].
Qed.

Lemma at_dir_add_resolve (now : Z) (p : list string) (x t t' : node) :
  p ≠ [] → at_dir (parent p) (add_entry now (leaf p) x) t = Ok t' →
  resolve p t' = Ok x.
Proof.
  intros Hp H. apply at_dir_resolve in H as (mt & es & n' & _ & Hf & Hq).
  rewrite (path_split p Hp), Hq. injection Hf as <-.
  simpl. now rewrite entry_lookup_set_eq.
Qed.

Lemma at_dir_del_resolve (now : Z) (p : list string) (t t' : node) :
  p ≠ [] → at_dir (parent p) (del_entry now (leaf p)) t = Ok t' →
  resolve p t' = Err ENOENT.
Proof.
  intros Hp H. apply at_dir_resolve in H as (mt & es & n' & _ & Hf & Hq).
  rewrite (path_split p Hp), Hq. injection Hf as <-.
  simpl. now rewrite entry_lookup_remove_eq.
Qed.

(** Removing entries never makes a missing path appear. *)
Lemma at_dir_del_absent (now : Z) (d : list string) (nm : string)
    (q : list string) (t t' : node) :
  at_dir d (del_entry now nm) t = Ok t' →
  (∃ e, resolve q t = Err e) → ∃ e, resolve q t' = Err e.
Proof.
  revert q t t'. induction d as [|c d IH]; intros q t t' H [e Hq].
  - destruct t as [|mt es]; [discriminate |]. injection H as <-.
    destruct q as [|c' q]; [discriminate |]. simpl in *.
    destruct (String.eqb_spec nm c') as [-> | Hne].
    + rewrite entry_lookup_remove_eq. eauto.
    + rewrite entry_lookup_remove_ne by assumption.
      destruct (entry_lookup c' es); eauto.
  - destruct t as [|mt es]; [discriminate |]. simpl in H.
    destruct (entry_lookup c es) as [n1|] eqn:El; [| discriminate].
    destruct (at_dir d (del_entry now nm) n1) as [n1'|] eqn:Ea;
      [| discriminate].
    injection H as <-. destruct q as [|c' q]; [discriminate |]. simpl in *.
    destruct (String.eqb_spec c c') as [<- | Hne].
    + rewrite entry_lookup_set_eq. rewrite El in Hq. eapply IH; eauto.
    + rewrite entry_lookup_set_ne by assumption.
      destruct (entry_lookup c' es); eauto.
Qed.

(** Adding an entry under a name that was free keeps every regular file
    where it was. *)
Lemma at_dir_add_frame (now : Z) (d : list string) (nm : string) (x : node)
    (q : list string) (i : nat) (t t' : node) :
  at_dir d (add_entry now nm x) t = Ok t' →
  resolve (d ++ [nm]) t = Err ENOENT →
  resolve q t = Ok (File i) → resolve q t' = Ok (File i).
Proof.
  revert q t t'. induction d as [|c d IH]; intros q t t' H Hfree Hq.
  - destruct t as [|mt es]; [discriminate |]. injection H as <-.
    destruct q as [|c' q]; [discriminate |]. simpl in *.
    destruct (String.eqb_spec nm c') as [-> | Hne].
    + destruct (entry_lookup c' es); [| discriminate].
      destruct q; simpl in Hq; discriminate || (destruct n; discriminate).
    + now rewrite entry_lookup_set_ne.
  - destruct t as [|mt es]; [discriminate |]. simpl in H.
    destruct (entry_lookup c es) as [n1|] eqn:El; [| discriminate].
    destruct (at_dir d (add_entry now nm x) n1) as [n1'|] eqn:Ea;
      [| discriminate].
    injection H as <-. destruct q as [|c' q]; [discriminate |]. simpl in *.
    rewrite El in Hfree.
    destruct (String.eqb_spec c c') as [<- | Hne].
    + rewrite entry_lookup_set_eq. rewrite El in Hq. eapply IH; eauto.
    + now rewrite entry_lookup_set_ne.
Qed.

(** [mkdir_all] ends with a directory at its path. *)
Lemma mkdir_all_resolve (now : Z) (p : list string) (t t' : node) :
  mkdir_all now p t = Ok t' → ∃ mt es, resolve p t' = Ok (Dir mt es).
Proof.
  revert t t'. induction p as [|c p IH]; intros t t' H.
  - destruct t as [|mt es]; [discriminate |]. injection H as <-.
    simpl. eauto.
  - destruct t as [|mt es]; [discriminate |]. simpl in H.
    destruct (entry_lookup c es) as [n1|].
    + destruct (mkdir_all now p n1) as [n1'|] eqn:Em; [| discriminate].
      injection H as <-. simpl. rewrite entry_lookup_set_eq. eauto.
    + destruct (mkdir_all now p (Dir now [])) as [n1'|] eqn:Em;
        [| discriminate].
      injection H as <-. simpl. rewrite entry_lookup_set_eq. eauto.
Qed.

Lemma mkdir_all_is_dir (now : Z) (p : list string) (t t' : node) :
  mkdir_all now p t = Ok t' → ∃ mt es, t' = Dir mt es.
Proof.
  destruct t as [|mt es]; [destruct p; discriminate |].
  destruct p as [|c p]; simpl.
  - intros H. injection H as <-. eauto.
  - destruct (entry_lookup c es).
    + destruct (mkdir_all now p n); [| discriminate].
      intros H. injection H as <-. eauto.
    + destruct (mkdir_all now p (Dir now [])); [| discriminate].
      intros H. injection H as <-. eauto.
Qed.

End TreeFacts.

(** ** Facts about the [os] operations *)

Section OsFacts.

Lemma root_set_root (fs : filesystem) (mt : Z) (es : list (string * node)) :
  root (set_root fs (Dir mt es)) = Dir mt es.
Proof. reflexivity. Qed.

Lemma root_with_root (fs : filesystem) (r : node) :
  (∃ mt es, r = Dir mt es) → root (with_root fs r) = r.
Proof. intros (mt & es & ->). reflexivity. Qed.

Lemma cwd_with_root (fs : filesystem) (r : node) :
  cwd (with_root fs r) = cwd fs.
Proof. destruct r; reflexivity. Qed.

Lemma inodes_with_root (fs : filesystem) (r : node) :
  inodes (with_root fs r) = inodes fs.
Proof. destruct r; reflexivity. Qed.

Lemma abs_cwd (fs fs' : filesystem) (s : string) :
  cwd fs' = cwd fs → abs fs' s = abs fs s.
Proof. unfold abs. now intros ->. Qed.

Lemma locate_cwd (fs fs' : filesystem) (s : string) :
  cwd fs' = cwd fs → locate fs' s = locate fs s.
Proof. intros H. unfold locate. now rewrite (abs_cwd _ _ _ H). Qed.

Lemma file_data_insert (ino : nat) (i : inode) (tbl : gmap nat inode) :
  file_data ino (<[ino := i]> tbl) = i_data i.
Proof. unfold file_data. now rewrite lookup_insert_eq. Qed.

Lemma file_data_insert_ne (ino j : nat) (i : inode) (tbl : gmap nat inode) :
  ino ≠ j → file_data j (<[ino := i]> tbl) = file_data j tbl.
Proof. intros H. unfold file_data. now rewrite lookup_insert_ne. Qed.

Lemma file_Write_spec (fs : filesystem) (ino : nat) (b : list Byte.byte) :
  root (file_Write fs ino b) = root fs
  ∧ cwd (file_Write fs ino b) = cwd fs
  ∧ file_data ino (inodes (file_Write fs ino b))
    = file_data ino (inodes fs) ++ b.
Proof.
  destruct b as [|x b]; simpl.
  - now rewrite app_nil_r.
  - repeat split. apply file_data_insert.
Qed.

Lemma file_Write_other (fs : filesystem) (ino j : nat) (b : list Byte.byte) :
  ino ≠ j →
  file_data j (inodes (file_Write fs ino b)) = file_data j (inodes fs).
Proof.
  intros H. destruct b as [|x b]; [reflexivity |].
  now apply file_data_insert_ne.
Qed.

(** [io.Copy] appends the reader's bytes to the destination and reports
    their number and the reader's error; the tree is untouched. *)
Lemma io_Copy_spec {E : Type} (r : reader E) (fs fs' : filesystem)
    (dst : nat) (n : Z) (e : option E) :
  io_Copy fs dst r = (fs', n, e) →
  root fs' = root fs ∧ cwd fs' = cwd fs
  ∧ file_data dst (inodes fs')
    = file_data dst (inodes fs) ++ reader_bytes r
  ∧ n = Z.of_nat (length (reader_bytes r))
  ∧ e = reader_err r.
Proof.
  revert fs fs' n e. induction r as [|e0|b r IH]; intros fs fs' n e H.
  - injection H as <- <- <-. now rewrite app_nil_r.
  - injection H as <- <- <-. now rewrite app_nil_r.
  - simpl in H.
    destruct (io_Copy (file_Write fs dst b) dst r) as [[fs1 n1] e1] eqn:Ec.
    injection H as <- <- <-.
    destruct (IH _ _ _ _ Ec) as (Hr & Hc & Hd & Hn & He).
    destruct (file_Write_spec fs dst b) as (Hr' & Hc' & Hd').
    repeat split.
    + congruence.
    + congruence.
    + simpl. rewrite Hd, Hd'. now rewrite app_assoc.
    + simpl. rewrite length_app, Hn. lia.
    + exact He.
Qed.

Lemma io_Copy_other {E : Type} (r : reader E) (fs fs' : filesystem)
    (dst j : nat) (n : Z) (e : option E) :
  io_Copy fs dst r = (fs', n, e) → dst ≠ j →
  file_data j (inodes fs') = file_data j (inodes fs).
Proof.
  revert fs fs' n e. induction r as [|e0|b r IH]; intros fs fs' n e H Hne.
  - now injection H as <- _ _.
  - now injection H as <- _ _.
  - simpl in H.
    destruct (io_Copy (file_Write fs dst b) dst r) as [[fs1 n1] e1] eqn:Ec.
    injection H as <- _ _.
    rewrite (IH _ _ _ _ Ec Hne). now apply file_Write_other.
Qed.

(** A successful [os.Create] leaves an empty regular file at the path. *)
Lemma os_Create_spec (fs fs2 : filesystem) (name : string) (ino : nat) :
  os_Create fs name = Ok (fs2, ino) →
  ∃ p, locate fs name = Ok p ∧ p ≠ []
       ∧ resolve p (root fs2) = Ok (File ino)
       ∧ cwd fs2 = cwd fs
       ∧ file_data ino (inodes fs2) = [].
Proof.
  unfold os_Create. intros H.
  destruct (locate fs name) as [p|] eqn:El; [| discriminate].
  exists p. split; [reflexivity |].
  assert (p ≠ []) as Hp.
  { intros ->. simpl in H. discriminate. }
  split; [assumption |].
  destruct (resolve p (root fs)) as [[i|mt es]|e] eqn:Er.
  - injection H as <- <-. repeat split; try assumption.
    simpl. apply file_data_insert.
  - discriminate.
  - destruct e; try discriminate.
    destruct (at_dir (parent p) _ (root fs)) as [r|] eqn:Ea; [| discriminate].
    injection H as <- <-.
    pose proof (at_dir_is_dir _ _ _ _ (add_entry_dir _ _ _) Ea) as Hd.
    repeat split.
    + rewrite root_with_root by assumption.
      eapply at_dir_add_resolve; eassumption.
    + now rewrite cwd_with_root.
    + rewrite inodes_with_root. simpl. apply file_data_insert.
Qed.

Lemma os_Stat_resolve (fs : filesystem) (name : string) :
  os_Stat fs name
  = match locate fs name with
    | Err e => Err e
    | Ok p => match resolve p (root fs) with
              | Err e => Err e
              | Ok n => Ok (info_of (inodes fs) (filepath_Base name) n)
              end
    end.
Proof. reflexivity. Qed.

End OsFacts.

(** ** Single-file operations *)

Section SingleFile.

Lemma containedPath_cases (basePath key : string) :
  containedPath basePath key = Err (ErrPathEscape key basePath)
  ∨ containedPath basePath key = Ok (Clean (filepath_Join basePath key)).
Proof.
  unfold containedPath.
  destruct (negb (HasPrefix _ _) && negb (String.eqb _ _)); auto.
Qed.

(** Every guarded operation returns the guard's error and leaves the
    filesystem as it was. *)
Lemma guarded_operations_refuse (l : Local) (fs : filesystem) (key : string)
    (r : reader error) (localSize : Z) (e : error) :
  containedPath (Path (Config l)) key = Err e →
  e = ErrPathEscape key (Path (Config l))
  ∧ StatFile l fs key = Err e
  ∧ GetFileReader l fs key = Err e
  ∧ PutFile l fs key r localSize = (fs, Some e)
  ∧ DeleteFile l fs key = (fs, Some e).
Proof.
  intros H. unfold StatFile, GetFileReader, PutFile, DeleteFile.
  rewrite H. repeat split.
  destruct (containedPath_cases (Path (Config l)) key) as [E | E];
    rewrite E in H; now inversion H.
Qed.

(** X3.  On a base that begins with an ordinary name, a key that resolves
    outside the base is refused by [StatFile], [GetFileReader], [PutFile]
    and [DeleteFile] alike, with the path-escape error and without
    touching the filesystem. *)
Lemma guarded_operations_refuse_escaping_keys (l : Local) (fs : filesystem)
    (key : string) (r : reader error) (localSize : Z) :
  let basePath := Path (Config l) in
  ordinary_base basePath →
  ¬ within (Clean basePath) (Clean (basePath +:+ "/" +:+ key)) →
  StatFile l fs key = Err (ErrPathEscape key basePath)
  ∧ GetFileReader l fs key = Err (ErrPathEscape key basePath)
  ∧ PutFile l fs key r localSize = (fs, Some (ErrPathEscape key basePath))
  ∧ DeleteFile l fs key = (fs, Some (ErrPathEscape key basePath)).
Proof.
  intros basePath Hb Hout.
  destruct (containedPath_ordinary basePath key Hb) as [_ Herr].
  specialize (Herr Hout).
  now destruct (guarded_operations_refuse l fs key r localSize _ Herr)
    as (_ & H1 & H2 & H3 & H4).
Qed.

(** What a successful [PutFile] leaves: a regular file at the resolved
    path, holding exactly the reader's bytes. *)
Lemma PutFile_success (l : Local) (fs fs' : filesystem) (key : string)
    (r : reader error) (localSize : Z) :
  PutFile l fs key r localSize = (fs', None) →
  ∃ absPath p dst,
    containedPath (Path (Config l)) key = Ok absPath
    ∧ locate fs' absPath = Ok p
    ∧ resolve p (root fs') = Ok (File dst)
    ∧ file_data dst (inodes fs') = reader_bytes r.
Proof.
  unfold PutFile, PutFileAbsolute. intros H.
  destruct (containedPath _ key) as [absPath|] eqn:Ec; [| discriminate].
  destruct (os_MkdirAll fs _) as [fs1|]; [| discriminate].
  destruct (os_Create fs1 absPath) as [[fs2 dst]|] eqn:Ecr; [| discriminate].
  destruct (io_Copy fs2 dst r) as [[fs3 n] oe] eqn:Eio.
  destruct oe as [err|].
  { destruct (os_Remove fs3 absPath); discriminate. }
  injection H as <-.
  apply os_Create_spec in Ecr as (p & Hl & Hp & Hr & Hc & Hd).
  apply io_Copy_spec in Eio as (Hr3 & Hc3 & Hd3 & _ & _).
  exists absPath, p, dst. repeat split.
  - rewrite <- Hl. apply locate_cwd. congruence.
  - now rewrite Hr3.
  - now rewrite Hd3, Hd.
Qed.

End SingleFile.

(** ** Facts about [filepath.Base] *)

Section BaseFacts.

Lemma filter_snoc_inv {A : Type} (P : A → Prop) `{∀ x, Decision (P x)}
    (l m : list A) (c : A) :
  filter P l = m ++ [c] →
  ∃ pre post, l = pre ++ c :: post ∧ Forall (fun x => ¬ P x) post.
Proof.
  revert m c. induction l as [|x l IH] using rev_ind; intros m c Hf.
  - destruct m; discriminate.
  - rewrite filter_app in Hf. simpl in Hf.
    destruct (decide (P x)) as [Hx | Hx].
    + rewrite filter_cons_True, filter_nil in Hf by assumption.
      apply app_inj_tail in Hf as [_ ->].
      exists l, []. split; [reflexivity | constructor].
    + rewrite filter_cons_False, filter_nil, app_nil_r in Hf by assumption.
      destruct (IH _ _ Hf) as (pre & post & -> & Hpost).
      exists pre, (post ++ [x]). split.
      * now rewrite <- app_assoc.
      * apply Forall_app. split; [assumption | now constructor].
Qed.

Lemma fold_skip_empty (r : bool) (post stk : list string) :
  Forall (fun x => ¬ x ≠ "") post →
  fold_left (clean_step r) post stk = stk.
Proof.
  intros H. revert stk.
  induction H as [|x post Hx _ IH]; intros stk; [reflexivity |].
  assert (x = "") as -> by (destruct (decide (x = "")); tauto).
  simpl. apply IH.
Qed.

(** When the last element of [key] is an ordinary name, cleaning keeps it
    last, whatever precedes the key. *)
Lemma fold_ends_with_Base (r : bool) (key : string) (stk : list string) :
  is_name (filepath_Base key) →
  ∃ stk', fold_left (clean_step r) (Split key) stk = filepath_Base key :: stk'.
Proof.
  unfold filepath_Base. intros Hn.
  destruct (String.eqb_spec key "") as [-> | Hk].
  { destruct Hn as [(_ & Hn & _) _]. contradiction. }
  destruct (rev (filter (fun c => c ≠ "") (Split key))) as [|c rest] eqn:Er.
  { destruct Hn as [(_ & _ & Hn) _]. discriminate. }
  assert (filter (fun c => c ≠ "") (Split key) = rev rest ++ [c]) as Ef.
  { rewrite <- (rev_involutive (filter _ _)), Er. reflexivity. }
  apply filter_snoc_inv in Ef as (pre & post & -> & Hpost).
  rewrite fold_left_app. simpl.
  rewrite clean_step_name by assumption.
  rewrite fold_skip_empty by assumption. eauto.
Qed.

Lemma Base_render (r : bool) (cs : list string) (c : string) :
  normal r (cs ++ [c]) → filepath_Base (render r (cs ++ [c])) = c.
Proof.
  intros Hn. pose proof (normal_elems _ _ Hn) as He.
  pose proof (elems_sep_free _ He) as Hs.
  assert (filter (fun x => x ≠ "") (cs ++ [c]) = cs ++ [c]) as Hf.
  { clear -He. induction He as [|x l (Hx & _) _ IH]; [reflexivity |].
    now rewrite filter_cons_True, IH. }
  unfold filepath_Base.
  destruct (String.eqb_spec (render r (cs ++ [c])) "") as [E | _].
  { now apply render_nonempty in E. }
  assert (cs ++ [c] ≠ []) as Hne by (destruct cs; discriminate).
  destruct r.
  - rewrite render_rooted, Split_cons_sep, Split_concat by assumption.
    rewrite filter_cons_False by tauto.
    now rewrite Hf, rev_unit.
  - destruct (cs ++ [c]) as [|x l] eqn:El; [contradiction |].
    inversion He as [|? ? (Hx & _) _]; subst.
    rewrite render_relative by assumption.
    rewrite Split_concat by assumption.
    rewrite Hf, <- El. now rewrite rev_unit.
Qed.

Lemma elements_ends_with_Base (rooted : bool) (key : string)
    (stk : list string) :
  is_name (filepath_Base key) →
  ∃ cs, rev (fold_left (clean_step rooted) (Split key) stk)
        = cs ++ [filepath_Base key].
Proof.
  intros Hn. destruct (fold_ends_with_Base rooted key stk Hn) as [stk' ->].
  exists (rev stk'). reflexivity.
Qed.

(** The base name of a resolved key is the base name of the key when that
    is an ordinary name. *)
Lemma Base_Clean_Join (basePath key : string) :
  is_name (filepath_Base key) →
  filepath_Base (Clean (filepath_Join basePath key)) = filepath_Base key.
Proof.
  intros Hn.
  assert (key ≠ "") as Hk.
  { intros ->. destruct Hn as [(_ & Hn & _) _]. contradiction. }
  assert (∀ s, (∃ cs, elements s = cs ++ [filepath_Base key]) →
               filepath_Base (Clean (Clean s)) = filepath_Base key) as HB.
  { intros s [cs E]. rewrite Clean_idem, Clean_render, E.
    apply Base_render. rewrite <- E. apply elements_normal. }
  unfold filepath_Join.
  destruct (String.eqb_spec basePath "") as [-> | Hb]; simpl.
  - apply String.eqb_neq in Hk. rewrite Hk. simpl. apply HB.
    now apply elements_ends_with_Base.
  - apply HB. unfold elements.
    change (basePath +:+ "/" +:+ key)
      with (basePath +:+ String Separator key).
    rewrite Split_app, fold_left_app.
    now apply elements_ends_with_Base.
Qed.

End BaseFacts.

(** ** Properties of the single-file operations *)

Section SingleFileProperties.

(** The backend of a system that refuses no unlink is [PutFile]. *)
Lemma PutFile_under_never (l : Local) (fs : filesystem) (key : string)
    (r : reader error) (localSize : Z) :
  PutFile_under never_refused l fs key r localSize
  = PutFile l fs key r localSize.
Proof.
  unfold PutFile_under, PutFile, PutFileAbsolute_under, PutFileAbsolute,
    os_Remove_under, never_refused.
  destruct (containedPath _ key) as [absPath|]; [| reflexivity].
  destruct (os_MkdirAll fs _) as [fs1|]; [| reflexivity].
  destruct (os_Create fs1 absPath) as [[fs2 dst]|]; [| reflexivity].
  destruct (io_Copy fs2 dst r) as [[fs3 n] [err|]]; [| reflexivity].
  now destruct (os_Remove fs3 absPath).
Qed.

(** C3.  When the reader fails while [PutFile] streams into the
    destination, [PutFile] tries to remove the partially written file and
    returns the reader's error whatever becomes of the removal.  Where the
    system does not refuse the unlink, the file is gone and a [StatFile] of
    the key that follows finds nothing; where it refuses, the half-written
    file stays at the key, holding the bytes delivered before the error.
    On a system that refuses no unlink the first case is the only one. *)
Theorem PutFile_failed_copy_cleanup (refuse : unlink_policy) (l : Local)
    (fs fs1 fs2 : filesystem) (key absPath : string) (dst : nat)
    (r : reader error) (localSize : Z) (e : error) :
  containedPath (Path (Config l)) key = Ok absPath →
  os_MkdirAll fs (filepath_Dir absPath) = Ok fs1 →
  os_Create fs1 absPath = Ok (fs2, dst) →
  reader_err r = Some e →
  ∃ fs3 n,
    io_Copy fs2 dst r = (fs3, n, Some e)
    ∧ (refuse fs3 absPath = None →
       ∃ fs', PutFile_under refuse l fs key r localSize = (fs', Some e)
              ∧ StatFile l fs' key = Err ErrNotFound)
    ∧ (∀ en, refuse fs3 absPath = Some en →
         PutFile_under refuse l fs key r localSize = (fs3, Some e)
         ∧ ∃ f, StatFile l fs3 key = Ok f
                ∧ size f = Z.of_nat (length (reader_bytes r)))
    ∧ (∃ fs', PutFile l fs key r localSize = (fs', Some e)
              ∧ StatFile l fs' key = Err ErrNotFound).
Proof.
  intros Hc Hm Hcr He.
  destruct (io_Copy fs2 dst r) as [[fs3 n] oe] eqn:Eio.
  pose proof (os_Create_spec _ _ _ _ Hcr) as (p & Hl & Hp & Hr & Hcw & Hd).
  pose proof (io_Copy_spec _ _ _ _ _ _ Eio) as (Hr3 & Hc3 & Hd3 & _ & Hoe).
  rewrite He in Hoe. subst oe. exists fs3, n. split; [reflexivity |].
  assert (locate fs3 absPath = Ok p) as Hl3.
  { rewrite <- Hl. apply locate_cwd. congruence. }
  destruct (resolve_parent p _ _ Hp Hr) as (mt & es & Hpar).
  destruct (at_dir_total (parent p) (del_entry (clock fs3) (leaf p))
              (root fs2) mt es _ Hpar eq_refl) as [t' Ht'].
  assert (os_Remove fs3 absPath = Ok (with_root fs3 t')) as Hrm.
  { unfold os_Remove. rewrite Hl3, Hr3, Hr.
    destruct p; [contradiction |]. now rewrite Ht'. }
  assert (StatFile l (with_root fs3 t') key = Err ErrNotFound) as Hgone.
  { unfold StatFile. rewrite Hc. unfold StatFileAbsolute.
    rewrite os_Stat_resolve.
    rewrite (locate_cwd fs3) by apply cwd_with_root. rewrite Hl3.
    rewrite root_with_root
      by (eapply at_dir_is_dir; [apply del_entry_dir | exact Ht']).
    now rewrite (at_dir_del_resolve _ _ _ _ Hp Ht'). }
  assert (∀ refuse',
            PutFile_under refuse' l fs key r localSize
            = match refuse' fs3 absPath with
              | Some _ => (fs3, Some e)
              | None => (with_root fs3 t', Some e)
              end) as Hput.
  { intros refuse'. unfold PutFile_under, PutFileAbsolute_under.
    rewrite Hc, Hm, Hcr, Eio. unfold os_Remove_under. rewrite Hrm.
    now destruct (refuse' fs3 absPath). }
  split; [| split].
  - intros Hno. exists (with_root fs3 t'). split; [| exact Hgone].
    now rewrite Hput, Hno.
  - intros en Hen. split; [now rewrite Hput, Hen |].
    unfold StatFile. rewrite Hc. unfold StatFileAbsolute.
    rewrite os_Stat_resolve, Hl3, Hr3, Hr. eexists. split; [reflexivity |].
    simpl. now rewrite Hd3, Hd.
  - exists (with_root fs3 t'). split; [| exact Hgone].
    rewrite <- PutFile_under_never. now rewrite Hput.
Qed.

(** C8.  Round trip: after a successful [PutFile] of a reader's bytes,
    [GetFileReader] on the same key opens a file that reads back exactly
    those bytes. *)
Theorem PutFile_GetFileReader_roundtrip (l : Local) (fs fs' : filesystem)
    (key : string) (r : reader error) (localSize : Z) :
  PutFile l fs key r localSize = (fs', None) →
  ∃ h, GetFileReader l fs' key = Ok h
       ∧ file_ReadAll fs' h = Ok (reader_bytes r).
Proof.
  intros H. apply PutFile_success in H as (absPath & p & dst & Hc & Hl & Hr & Hd).
  exists (HFile dst). unfold GetFileReader, GetFileReaderAbsolute, os_Open.
  rewrite Hc, Hl, Hr. split; [reflexivity |]. simpl. now rewrite Hd.
Qed.

(** C10 (amended).  For a key the guard accepts, [StatFile] returns the
    [ErrNotFound] sentinel when the target does not exist, returns any
    other OS error as it is, and on success returns a File Descriptor named
    after the base name of the resolved path, which is the base name of the
    key whenever that is an ordinary name; after a successful [PutFile] to
    the key its size is the number of bytes written. *)
Theorem StatFile_outcomes (l : Local) (fs : filesystem)
    (key absPath : string) :
  containedPath (Path (Config l)) key = Ok absPath →
  (os_Stat fs absPath = Err ENOENT → StatFile l fs key = Err ErrNotFound)
  ∧ (∀ e, os_Stat fs absPath = Err e → e ≠ ENOENT →
          StatFile l fs key = Err (ErrPath e))
  ∧ (∀ info, os_Stat fs absPath = Ok info →
       ∃ f, StatFile l fs key = Ok f
            ∧ name f = filepath_Base absPath
            ∧ (is_name (filepath_Base key) → name f = filepath_Base key)
            ∧ size f = fi_size info)
  ∧ (∀ fs0 r localSize, PutFile l fs0 key r localSize = (fs, None) →
       ∃ f, StatFile l fs key = Ok f
            ∧ size f = Z.of_nat (length (reader_bytes r))).
Proof.
  intros Hc. unfold StatFile, StatFileAbsolute. rewrite Hc.
  repeat split.
  - now intros ->.
  - intros e -> Hne. now destruct e.
  - intros info ->. eexists. repeat split.
    intros Hn. simpl.
    destruct (containedPath_cases (Path (Config l)) key) as [E | E];
      rewrite E in Hc; inversion Hc; subst.
    now apply Base_Clean_Join.
  - intros fs0 r localSize H.
    apply PutFile_success in H as (absPath' & p & dst & Hc' & Hl & Hr & Hd).
    rewrite Hc in Hc'. injection Hc' as <-.
    rewrite os_Stat_resolve, Hl, Hr. eexists. split; [reflexivity |].
    simpl. now rewrite Hd.
Qed.

End SingleFileProperties.

(** ** Batch delete *)

Section BatchDelete.

Lemma not_exists_at (fs : filesystem) (name : string) :
  ¬ exists_at fs name ↔ ∃ e, os_Stat fs name = Err e.
Proof.
  unfold exists_at. destruct (os_Stat fs name) as [info|e].
  - split; [intros H; exfalso; eauto | intros [e H]; discriminate].
  - split; [eauto | intros _ [info H]; discriminate].
Qed.

Lemma os_Stat_err (fs : filesystem) (name : string) :
  (∃ e, os_Stat fs name = Err e)
  ↔ name = "" ∨ ∃ e, resolve (abs fs name) (root fs) = Err e.
Proof.
  rewrite os_Stat_resolve. unfold locate.
  destruct (String.eqb_spec name "") as [-> | Hne].
  - split; [auto | eauto].
  - destruct (resolve (abs fs name) (root fs)) as [n|e].
    + split; [intros [e H]; discriminate |].
      intros [? | [e H]]; [contradiction | discriminate].
    + split; eauto.
Qed.

(** What [RemoveAll] does to the tree: nothing, or entries go away. *)
Lemma RemoveAll_shape (fs fs' : filesystem) (name : string)
    (oe : option error) :
  RemoveAll fs name = (fs', oe) →
  cwd fs' = cwd fs
  ∧ (∀ q, (∃ e, resolve q (root fs) = Err e) →
          ∃ e, resolve q (root fs') = Err e)
  ∧ (oe = None → ¬ exists_at fs' name).
Proof.
  unfold RemoveAll, os_RemoveAll. intros H.
  destruct (String.eqb_spec name "") as [-> | Hne].
  { injection H as <- <-. repeat split; auto.
    intros _. apply not_exists_at. eauto. }
  destruct (endsWithDot name).
  { injection H as <- <-. repeat split; auto. discriminate. }
  destruct (resolve (abs fs name) (root fs)) as [n|e] eqn:Er.
  - destruct (abs fs name) as [|c p] eqn:Ea.
    + injection H as <- <-. repeat split; [| discriminate].
      intros [|c q] [e Hq]; [discriminate | simpl; eauto].
    + destruct (at_dir (parent (c :: p)) _ (root fs)) as [r|e] eqn:Ed.
      * injection H as <- <-.
        pose proof (at_dir_is_dir _ _ _ _ (del_entry_dir _ _) Ed) as Hd.
        rewrite cwd_with_root, root_with_root by assumption.
        repeat split.
        -- intros q Hq. eapply at_dir_del_absent; eassumption.
        -- intros _. apply not_exists_at, os_Stat_err. right.
           rewrite (abs_cwd fs) by apply cwd_with_root.
           rewrite root_with_root, Ea by assumption.
           erewrite at_dir_del_resolve; [eauto | discriminate | exact Ed].
      * injection H as <- <-. repeat split; auto. discriminate.
  - destruct e; injection H as <- <-; repeat split; auto; try discriminate.
    intros _. apply not_exists_at, os_Stat_err. right. eauto.
Qed.

Lemma RemoveAll_keeps_absent (fs fs' : filesystem) (name q : string)
    (oe : option error) :
  RemoveAll fs name = (fs', oe) → ¬ exists_at fs q → ¬ exists_at fs' q.
Proof.
  intros H Hq. apply RemoveAll_shape in H as (Hc & Hk & _).
  apply not_exists_at, os_Stat_err.
  apply not_exists_at, os_Stat_err in Hq as [-> | Hq]; [auto |].
  right. rewrite (abs_cwd fs fs') by assumption. auto.
Qed.

Lemma attempt_keeps_absent (basePath : string) (fs fs' : filesystem)
    (key q : string) (oe : option error) :
  attempt basePath fs key = (fs', oe) →
  ¬ exists_at fs q → ¬ exists_at fs' q.
Proof.
  unfold attempt. destruct (containedPath basePath key) as [absPath|e].
  - apply RemoveAll_keeps_absent.
  - now intros [= <- _].
Qed.

Lemma attempt_all_keeps_absent (basePath : string) (keys : list string)
    (fs fs' : filesystem) (os : list (string * option error)) (q : string) :
  attempt_all basePath fs keys = (fs', os) →
  ¬ exists_at fs q → ¬ exists_at fs' q.
Proof.
  revert fs fs' os. induction keys as [|key keys IH]; intros fs fs' os H Hq.
  - now injection H as <- _.
  - simpl in H. destruct (attempt basePath fs key) as [fs1 o] eqn:Ea.
    destruct (attempt_all basePath fs1 keys) as [fs2 os'] eqn:Eb.
    injection H as <- _.
    eapply IH; [exact Eb |]. eapply attempt_keeps_absent; eassumption.
Qed.

(** A key whose attempt succeeded names nothing once the batch is over. *)
Lemma attempt_all_deleted (basePath : string) (keys : list string)
    (fs fs' : filesystem) (os : list (string * option error)) (key : string) :
  attempt_all basePath fs keys = (fs', os) → (key, None) ∈ os →
  ∃ absPath, containedPath basePath key = Ok absPath
             ∧ ¬ exists_at fs' absPath.
Proof.
  revert fs fs' os. induction keys as [|k keys IH]; intros fs fs' os H Hin.
  - injection H as _ <-. inversion Hin.
  - simpl in H. destruct (attempt basePath fs k) as [fs1 o] eqn:Ea.
    destruct (attempt_all basePath fs1 keys) as [fs2 os'] eqn:Eb.
    injection H as <- <-.
    apply elem_of_cons in Hin as [[= -> <-] | Hin].
    + unfold attempt in Ea.
      destruct (containedPath basePath k) as [absPath|e]; [| discriminate].
      exists absPath. split; [reflexivity |].
      eapply attempt_all_keeps_absent; [exact Eb |].
      now apply RemoveAll_shape in Ea as (_ & _ & Hd); auto.
    + eapply IH; eassumption.
Qed.

Lemma attempt_all_keys (basePath : string) (keys : list string)
    (fs fs' : filesystem) (os : list (string * option error)) :
  attempt_all basePath fs keys = (fs', os) → map fst os = keys.
Proof.
  revert fs fs' os. induction keys as [|k keys IH]; intros fs fs' os H.
  - now injection H as _ <-.
  - simpl in H. destruct (attempt basePath fs k) as [fs1 o].
    destruct (attempt_all basePath fs1 keys) as [fs2 os'] eqn:Eb.
    injection H as _ <-. simpl. f_equal. eapply IH; eassumption.
Qed.

Lemma failures_of_length (os : list (string * option error)) :
  (length (failures_of os) ≤ length os)%nat.
Proof.
  induction os as [|[k [e|]] os IH]; simpl; lia.
Qed.

(** Without cancellation the loop is [attempt_all]: the failures are
    appended in order and the successes counted. *)
Lemma batch_loop_spec (ctx : Context) (basePath : string)
    (keys : list string) (i : nat) (fs : filesystem)
    (failures : list KeyError) (deletedCount : nat) :
  (∀ j, (i ≤ j < i + length keys)%nat → Done ctx j = false) →
  batch_loop ctx basePath keys i fs failures deletedCount
  = let '(fs', os) := attempt_all basePath fs keys in
    (fs', Ok (failures ++ failures_of os, deletedCount + deleted_of os)).
Proof.
  revert i fs failures deletedCount.
  induction keys as [|key keys IH]; intros i fs failures cnt Hd.
  - simpl. unfold deleted_of. simpl. now rewrite app_nil_r, Nat.add_0_r.
  - simpl. rewrite (Hd i) by (simpl; lia).
    assert (∀ j, (S i ≤ j < S i + length keys)%nat → Done ctx j = false) as Hd'
      by (intros j Hj; apply Hd; simpl; lia).
    unfold attempt.
    assert (∀ os e, (failures ++ [{| Key := key; Err_ := e |}])
                      ++ failures_of os
                    = failures ++ failures_of ((key, Some e) :: os)) as Hf
      by (intros os e; now rewrite <- app_assoc).
    assert (∀ os e, deleted_of ((key, Some e) :: os) = deleted_of os) as Hs
      by reflexivity.
    assert (∀ os, (S cnt + deleted_of os
                   = cnt + deleted_of ((key, None) :: os))%nat) as Hn.
    { intros os. unfold deleted_of. simpl.
      pose proof (failures_of_length os). lia. }
    destruct (containedPath basePath key) as [absPath|pathErr].
    + destruct (RemoveAll fs absPath) as [fs1 [err|]].
      * rewrite IH by assumption.
        destruct (attempt_all basePath fs1 keys) as [fs2 os].
        now rewrite Hf, Hs.
      * rewrite IH by assumption.
        destruct (attempt_all basePath fs1 keys) as [fs2 os].
        now rewrite Hn.
    + rewrite IH by assumption.
      destruct (attempt_all basePath fs keys) as [fs2 os].
      now rewrite Hf, Hs.
Qed.

(** C4 (amended).  As long as the cancellation signal does not fire, the
    batch delete attempts every key once, in input order, whatever happened
    to the keys before it; a key the guard refuses and a key whose removal
    fails are both recorded with their cause; the result is success exactly
    when no attempt failed, and otherwise one Batch Failure Report with the
    counts and every failed key in order.  The keys that are not reported
    no longer exist. *)
Theorem deleteKeysBatchInternal_reports_failures (l : Local) (ctx : Context)
    (fs : filesystem) (basePath : string) (keys : list string) :
  (∀ i, (i < length keys)%nat → Done ctx i = false) →
  ∃ fs' outcomes,
    attempt_all basePath fs keys = (fs', outcomes)
    ∧ map fst outcomes = keys
    ∧ (failures_of outcomes = [] →
       deleteKeysBatchInternal l ctx fs basePath keys = (fs', None))
    ∧ (failures_of outcomes ≠ [] →
       deleteKeysBatchInternal l ctx fs basePath keys
       = (fs', Some (BatchFailed
            {| Message := "LOCAL batch delete: "
                          +:+ dec (deleted_of outcomes)
                          +:+ " keys deleted, "
                          +:+ dec (length (failures_of outcomes))
                          +:+ " failed";
               Failures := failures_of outcomes |})))
    ∧ (∀ key, (key, None) ∈ outcomes →
         ∃ absPath, containedPath basePath key = Ok absPath
                    ∧ ¬ exists_at fs' absPath).
Proof.
  intros Hd.
  destruct (attempt_all basePath fs keys) as [fs' os] eqn:Ea.
  exists fs', os. split; [reflexivity |].
  split; [eapply attempt_all_keys; eassumption |].
  unfold deleteKeysBatchInternal.
  rewrite batch_loop_spec by (intros j Hj; apply Hd; lia).
  rewrite Ea. simpl app. simpl Nat.add.
  repeat split.
  - intros ->. reflexivity.
  - intros Hne. destruct (failures_of os) as [|f fl]; [contradiction |].
    reflexivity.
  - intros key Hin. eapply attempt_all_deleted; eassumption.
Qed.

End BatchDelete.

(** ** The object-disk operations *)

Section ObjectDisk.

Lemma HasPrefix_dot_sep (r : bool) (cs : list string) :
  normal r cs → HasPrefix (render r cs) ("." +:+ String Separator "") = false.
Proof.
  intros Hn. pose proof (normal_elems _ _ Hn) as He.
  destruct (HasPrefix _ _) eqn:HP; [| reflexivity]. exfalso.
  unfold HasPrefix in HP. apply prefix_spec in HP as [rest E].
  destruct r; [discriminate |].
  destruct cs as [|c cs]; [discriminate |].
  inversion He as [|? ? (Hc & Hdot & Hs) Hcs]; subst.
  rewrite render_relative in E by assumption.
  assert (Split (String.concat "/" (c :: cs)) = c :: cs) as ES
    by (apply Split_concat; [discriminate | now apply elems_sep_free]).
  rewrite E in ES.
  change (("." +:+ String Separator "") +:+ rest)
    with ("." +:+ String Separator rest) in ES.
  rewrite Split_app in ES. simpl in ES. injection ES as ES _. congruence.
Qed.

(** With an empty base the guard lets nothing through but the current
    directory itself. *)
Lemma containedPath_empty_base (key : string) :
  containedPath "" key = Err (ErrPathEscape key "")
  ∨ containedPath "" key = Ok ".".
Proof.
  unfold containedPath. change (Clean "") with ".".
  rewrite (Clean_render (filepath_Join "" key)).
  rewrite HasPrefix_dot_sep by apply elements_normal. simpl negb.
  destruct (String.eqb_spec (render (IsRooted (filepath_Join "" key))
                               (elements (filepath_Join "" key))) ".")
    as [-> | _]; simpl; auto.
Qed.

Lemma RemoveAll_dot (fs : filesystem) :
  RemoveAll fs "." = (fs, Some (ErrPath EINVAL)).
Proof. reflexivity. Qed.

Lemma attempt_empty_base (fs : filesystem) (key : string) :
  ∃ e, attempt "" fs key = (fs, Some e).
Proof.
  unfold attempt.
  destruct (containedPath_empty_base key) as [-> | ->]; [eauto |].
  rewrite RemoveAll_dot. eauto.
Qed.

Lemma batch_loop_empty_base (ctx : Context) (keys : list string) (i : nat)
    (fs : filesystem) (failures : list KeyError) (deletedCount : nat) :
  batch_loop ctx "" keys i fs failures deletedCount = (fs, Err (CtxErr ctx))
  ∨ ∃ more, batch_loop ctx "" keys i fs failures deletedCount
            = (fs, Ok (failures ++ more, deletedCount))
            ∧ map Key more = keys.
Proof.
  revert i failures. induction keys as [|key keys IH]; intros i failures.
  - right. exists []. now rewrite app_nil_r.
  - simpl. destruct (Done ctx i); [now left |].
    destruct (attempt_empty_base fs key) as [e He]. unfold attempt in He.
    assert (∀ f, (batch_loop ctx "" keys (S i) fs
                    (failures ++ [{| Key := key; Err_ := f |}])
                    deletedCount = (fs, Err (CtxErr ctx)))
                 ∨ ∃ more, batch_loop ctx "" keys (S i) fs
                             (failures ++ [{| Key := key; Err_ := f |}])
                             deletedCount
                           = (fs, Ok (failures ++ more, deletedCount))
                           ∧ map Key more = key :: keys) as Hstep.
    { intros f. destruct (IH (S i) (failures ++ [{| Key := key; Err_ := f |}]))
        as [-> | (more & -> & Hm)]; [now left |].
      right. exists ({| Key := key; Err_ := f |} :: more).
      rewrite <- app_assoc. simpl. now rewrite Hm. }
    destruct (containedPath "" key) as [absPath|pathErr].
    + rewrite He. apply Hstep.
    + apply Hstep.
Qed.

(** C5 (amended).  With an empty [ObjectDiskPath] the two object-disk
    deletions never remove anything: [DeleteFileFromObjectDiskBackup] fails
    for every key, and the object-disk batch delete of a non-empty list
    returns an error, which without cancellation is a report naming every
    key. *)
Theorem empty_objectDiskPath_deletes_nothing (l : Local) :
  ObjectDiskPath (Config l) = "" →
  (∀ fs key, ∃ e, DeleteFileFromObjectDiskBackup l fs key = (fs, Some e))
  ∧ (∀ ctx fs keys, keys ≠ [] →
       DeleteKeysFromObjectDiskBackupBatch l ctx fs keys
       = (fs, Some (BatchAborted (CtxErr ctx)))
       ∨ ∃ b, DeleteKeysFromObjectDiskBackupBatch l ctx fs keys
              = (fs, Some (BatchFailed b))
              ∧ map Key (Failures b) = keys).
Proof.
  intros Hod. split.
  - intros fs key. unfold DeleteFileFromObjectDiskBackup. rewrite Hod.
    apply attempt_empty_base.
  - intros ctx fs keys Hne.
    unfold DeleteKeysFromObjectDiskBackupBatch, deleteKeysBatchInternal.
    rewrite Hod. destruct keys as [|k keys]; [contradiction |].
    change (length (k :: keys) =? 0)%nat with false. cbv iota.
    destruct (batch_loop_empty_base ctx (k :: keys) 0 fs [] 0)
      as [-> | (more & -> & Hm)]; [now left |].
    right. simpl app. destruct more as [|f more]; [discriminate |].
    eexists. split; [reflexivity | exact Hm].
Qed.

End ObjectDisk.

(** ** Cross-location copy *)

Section CopyObjectFacts.

(** Creating a file keeps every other regular file where it was. *)
Lemma os_Create_frame (fs fs2 : filesystem) (name : string) (ino i : nat)
    (q : list string) :
  os_Create fs name = Ok (fs2, ino) →
  resolve q (root fs) = Ok (File i) → resolve q (root fs2) = Ok (File i).
Proof.
  unfold os_Create. intros H Hq.
  destruct (locate fs name) as [p|]; [| discriminate].
  destruct (resolve p (root fs)) as [[j|mt es]|e] eqn:Er.
  - now injection H as <- _.
  - discriminate.
  - destruct e; try discriminate.
    destruct (at_dir (parent p) _ (root fs)) as [r|] eqn:Ea; [| discriminate].
    injection H as <- _.
    assert (p ≠ []) as Hp by (intros ->; discriminate).
    rewrite root_with_root
      by (eapply at_dir_is_dir; [apply add_entry_dir | exact Ea]).
    eapply at_dir_add_frame; [exact Ea | | exact Hq].
    now rewrite <- path_split.
Qed.

(** [os.MkdirAll] ends with a directory at the path. *)
Lemma os_MkdirAll_is_dir (fs fs1 : filesystem) (name : string) :
  os_MkdirAll fs name = Ok fs1 →
  ∃ info, os_Stat fs1 name = Ok info ∧ fi_isdir info = true.
Proof.
  unfold os_MkdirAll. rewrite os_Stat_resolve. intros H.
  destruct (locate fs name) as [p|] eqn:El; [| discriminate].
  destruct (resolve p (root fs)) as [[i|mt es]|e] eqn:Er.
  - discriminate.
  - injection H as <-. rewrite El, Er. eauto.
  - destruct (mkdir_all (clock fs) p (root fs)) as [r|] eqn:Em;
      [| discriminate].
    injection H as <-.
    rewrite (locate_cwd fs) by apply cwd_with_root. rewrite El.
    rewrite root_with_root by (eapply mkdir_all_is_dir; exact Em).
    destruct (mkdir_all_resolve _ _ _ _ Em) as (mt & es & ->). eauto.
Qed.


(** A successful hard link: both names are the same regular file. *)
Lemma os_Link_success (fs fs2 : filesystem) (oldname newname : string) :
  os_Link fs oldname newname = Ok fs2 →
  ∃ i, os_Open fs2 oldname = Ok (HFile i)
       ∧ os_Open fs2 newname = Ok (HFile i).
Proof.
  unfold os_Link, os_Open. intros H.
  destruct (locate fs oldname) as [src|] eqn:Els; [| discriminate].
  destruct (locate fs newname) as [dst|] eqn:Eld; [| discriminate].
  destruct (resolve src (root fs)) as [n|] eqn:Ers; [| discriminate].
  destruct (resolve dst (root fs)) as [|e] eqn:Erd; [discriminate |].
  destruct e; try discriminate.
  destruct (resolve (parent dst) (root fs)) as [[|mt es]|]; try discriminate.
  destruct dst as [|c dst]; [discriminate |].
  destruct (negb _); [discriminate |].
  destruct n as [i|]; [| discriminate].
  destruct (at_dir (parent (c :: dst)) _ (root fs)) as [r|] eqn:Ea;
    [| discriminate].
  injection H as <-. exists i.
  rewrite (locate_cwd fs (with_root fs r) oldname) by apply cwd_with_root.
  rewrite (locate_cwd fs (with_root fs r) newname) by apply cwd_with_root.
  rewrite Els, Eld.
  rewrite root_with_root
    by (eapply at_dir_is_dir; [apply add_entry_dir | exact Ea]).
  assert (resolve (c :: dst) r = Ok (File i)) as ->
    by (eapply at_dir_add_resolve; [discriminate | exact Ea]).
  assert (resolve src r = Ok (File i)) as ->; [| split; reflexivity].
  eapply at_dir_add_frame; [exact Ea | | exact Ers].
  now rewrite <- path_split.
Qed.

End CopyObjectFacts.


(** ** Enumeration *)

Section SubtreeFacts.

(** Induction on trees, with the hypothesis for every entry of a
    directory. *)
Lemma node_induction (P : node → Prop) :
  (∀ i, P (File i)) →
  (∀ mt es, Forall (fun e => P e.2) es → P (Dir mt es)) →
  ∀ n, P n.
Proof.
  intros HF HD. fix IH 1. intros [i|mt es]; [apply HF |]. apply HD.
  induction es as [|[nm c] es IHes]; constructor; [apply IH | exact IHes].
Qed.

Lemma map_fmap {A B : Type} (f : A → B) (l : list A) : map f l = f <$> l.
Proof. reflexivity. Qed.

Lemma wf_node_entries (mt : Z) (es : list (string * node)) :
  wf_node (Dir mt es) →
  NoDup (map fst es) ∧ Forall is_name (map fst es)
  ∧ Forall (fun e => wf_node e.2) es.
Proof.
  intros (Hnd & Hnm & Hch). repeat split; try assumption.
  clear Hnd Hnm. induction es as [|e es IH]; [constructor |].
  destruct Hch as [He Hes]. constructor; auto.
Qed.

Lemma subtree_cons (mt : Z) (e : string * node) (es : list (string * node)) :
  subtree (Dir mt (e :: es))
  = ([e.1] :: map (cons e.1) (subtree e.2)) ++ subtree (Dir mt es).
Proof. reflexivity. Qed.

Lemma subtree_head (mt : Z) (es : list (string * node)) (rel : list string) :
  rel ∈ subtree (Dir mt es) →
  ∃ c sub, rel = c :: sub ∧ c ∈ map fst es.
Proof.
  induction es as [|e es IH]; [intros H; inversion H |].
  rewrite subtree_cons. intros H. apply elem_of_app in H as [H | H].
  - exists e.1. apply elem_of_cons in H as [-> | H].
    + exists []. split; [reflexivity | left].
    + rewrite map_fmap in H. apply list_elem_of_fmap in H as (sub & -> & _).
      exists sub. split; [reflexivity | left].
  - destruct (IH H) as (c & sub & -> & Hc).
    exists c, sub. split; [reflexivity | now right].
Qed.

(** Everything listed below a well-formed node is a non-empty path of
    ordinary names. *)
Lemma subtree_names (n : node) :
  wf_node n → Forall (fun rel => rel ≠ [] ∧ Forall is_name rel) (subtree n).
Proof.
  induction n as [i|mt es IH] using node_induction; [constructor |].
  intros Hwf. apply wf_node_entries in Hwf as (_ & Hnm & Hch).
  induction es as [|e es IHes]; [constructor |].
  rewrite subtree_cons. inversion IH; subst. inversion Hch; subst.
  inversion Hnm; subst.
  apply Forall_app. split; [| now apply IHes].
  constructor; [split; [discriminate | now constructor] |].
  rewrite map_fmap. apply Forall_fmap. eapply Forall_impl; [now apply H1 |].
  intros sub [_ Hs]. simpl. split; [discriminate | now constructor].
Qed.

Lemma subtree_NoDup (n : node) : wf_node n → NoDup (subtree n).
Proof.
  induction n as [i|mt es IH] using node_induction; [constructor |].
  intros Hwf. apply wf_node_entries in Hwf as (Hnd & _ & Hch).
  induction es as [|e es IHes]; [constructor |].
  rewrite subtree_cons. inversion IH; subst. inversion Hch; subst.
  apply NoDup_cons in Hnd as [Hne Hnd].
  apply NoDup_app. repeat split.
  - rewrite map_fmap. apply NoDup_cons. split.
    + intros H. apply list_elem_of_fmap in H as (sub & [= <-] & Hs).
      pose proof (subtree_names e.2 ltac:(assumption)) as Hn.
      rewrite Forall_forall in Hn. now destruct (Hn [] Hs).
    + apply NoDup_fmap; [intros a b [=]; assumption | auto].
  - intros rel Hl Hr. apply subtree_head in Hr as (c & sub & -> & Hc).
    apply Hne. apply elem_of_cons in Hl as [[= -> _] | Hl]; [assumption |].
    rewrite map_fmap in Hl.
    apply list_elem_of_fmap in Hl as (sub' & [= -> _] & _). assumption.
  - now apply IHes.
Qed.

Lemma entry_lookup_elem (nm : string) (c : node) (es : list (string * node)) :
  entry_lookup nm es = Some c → (nm, c) ∈ es.
Proof.
  induction es as [|[m y] es IH]; simpl; [discriminate |].
  destruct (String.eqb_spec m nm) as [-> | _].
  - intros [= ->]. left.
  - intros H. right. auto.
Qed.

Lemma entry_lookup_NoDup (nm : string) (c : node) (es : list (string * node)) :
  NoDup (map fst es) → (nm, c) ∈ es → entry_lookup nm es = Some c.
Proof.
  induction es as [|[m y] es IH]; intros Hnd Hin; [inversion Hin |].
  simpl in *. apply NoDup_cons in Hnd as [Hm Hnd].
  apply elem_of_cons in Hin as [[= -> ->] | Hin].
  - now rewrite String.eqb_refl.
  - destruct (String.eqb_spec m nm) as [-> | _]; [| auto].
    exfalso. apply Hm. rewrite map_fmap. apply list_elem_of_fmap.
    now exists (nm, c).
Qed.

Lemma subtree_elem (mt : Z) (es : list (string * node)) (rel : list string) :
  rel ∈ subtree (Dir mt es)
  ↔ ∃ e, e ∈ es ∧ (rel = [e.1] ∨ ∃ sub, rel = e.1 :: sub ∧ sub ∈ subtree e.2).
Proof.
  induction es as [|e es IH].
  - split; [intros H; inversion H | intros (e & H & _); inversion H].
  - rewrite subtree_cons, elem_of_app, IH, elem_of_cons, map_fmap,
      list_elem_of_fmap.
    split.
    + intros [[-> | (sub & -> & Hs)] | (e' & He' & H)].
      * exists e. split; [left | now left].
      * exists e. split; [left | right; eauto].
      * exists e'. split; [now right | exact H].
    + intros (e' & He' & H). apply elem_of_cons in He' as [-> | He'].
      * left. destruct H as [-> | (sub & -> & Hs)]; [now left | right; eauto].
      * right. eauto.
Qed.

(** The listing is exactly what resolves below the node. *)
Lemma subtree_resolve (n : node) (rel : list string) :
  wf_node n →
  rel ∈ subtree n ↔ rel ≠ [] ∧ ∃ x, resolve rel n = Ok x.
Proof.
  revert rel. induction n as [i|mt es IH] using node_induction; intros rel Hwf.
  - split; [intros H; inversion H |].
    intros [Hne [x H]]. destruct rel; [contradiction | discriminate].
  - apply wf_node_entries in Hwf as (Hnd & _ & Hch).
    rewrite subtree_elem. split.
    + intros ([nm c] & He & H).
      pose proof (entry_lookup_NoDup _ _ _ Hnd He) as El.
      destruct H as [-> | (sub & -> & Hs)]; simpl.
      * split; [discriminate |]. rewrite El. eauto.
      * split; [discriminate |]. rewrite El.
        rewrite Forall_forall in IH, Hch.
        now apply (IH _ He sub (Hch _ He)) in Hs as [_ Hs].
    + intros [Hne [x H]]. destruct rel as [|c q]; [contradiction |].
      simpl in H. destruct (entry_lookup c es) as [n'|] eqn:El; [| discriminate].
      apply entry_lookup_elem in El. exists (c, n'). split; [assumption |].
      destruct q as [|c' q]; [now left |]. right.
      exists (c' :: q). split; [reflexivity |].
      rewrite Forall_forall in IH, Hch.
      apply (IH _ El (c' :: q) (Hch _ El)). split; [discriminate | eauto].
Qed.

End SubtreeFacts.

Section WalkFacts.

Lemma filter_elems (cs : list string) :
  Forall is_elem cs → filter (fun c => c ≠ "") cs = cs.
Proof.
  induction 1 as [|x l (Hx & _) _ IH]; [reflexivity |].
  now rewrite filter_cons_True, IH.
Qed.

(** The non-empty fields of a cleaned path are its elements. *)
Lemma comps_render (r : bool) (cs : list string) :
  normal r cs → r = true ∨ cs ≠ [] →
  filter (fun c => c ≠ "") (Split (render r cs)) = cs.
Proof.
  intros Hn Hc. pose proof (normal_elems _ _ Hn) as He.
  pose proof (elems_sep_free _ He) as Hs.
  destruct r.
  - rewrite render_rooted, Split_cons_sep, filter_cons_False by tauto.
    destruct cs as [|c cs]; [reflexivity |].
    rewrite Split_concat by (discriminate || assumption).
    now apply filter_elems.
  - destruct Hc as [? | Hc]; [discriminate |].
    destruct cs as [|c cs]; [contradiction |].
    inversion He as [|? ? (Hx & _) _]; subst.
    rewrite render_relative, Split_concat by (discriminate || assumption).
    now apply filter_elems.
Qed.

Lemma strip_common_app (b rest : list string) :
  strip_common b (b ++ rest) = ([], rest).
Proof.
  induction b as [|x b IH]; simpl.
  - now destruct rest.
  - now rewrite String.eqb_refl.
Qed.

(** [filepath.Rel] from a prefix to a path below it: the names in
    between. *)
Lemma Rel_below (prefix s : string) (rel : list string) :
  prefix ≠ "" → Forall is_name rel →
  Clean s = render (IsRooted prefix) (elements prefix ++ rel) →
  filepath_Rel prefix s
  = Some (match rel with [] => "." | _ => String.concat "/" rel end).
Proof.
  intros Hp Hrel Hs.
  set (r := IsRooted prefix) in *. set (B := elements prefix) in *.
  assert (normal r B) as HB by apply elements_normal.
  assert (normal r (B ++ rel)) as HT by now apply normal_snoc_names.
  unfold filepath_Rel. rewrite Hs, (Clean_render prefix). fold r B.
  destruct rel as [|x rel].
  { now rewrite app_nil_r, String.eqb_refl. }
  destruct (String.eqb_spec (render r (B ++ x :: rel)) (render r B)) as [E|_].
  { apply render_inj in E; [| assumption..].
    rewrite <- (app_nil_r B) in E at 2. apply app_inv_head in E. discriminate. }
  set (base := if String.eqb (render r B) "." then "" else render r B).
  assert (IsRooted base = r ∧ filter (fun c => c ≠ "") (Split base) = B)
    as [Hr Hc].
  { unfold base. destruct (String.eqb_spec (render r B) ".") as [E | NE].
    - assert (r = false) as Hr.
      { rewrite <- (IsRooted_render r B), E by (eapply normal_elems; eassumption).
        reflexivity. }
      split; [now rewrite Hr |].
      rewrite Hr in E, HB. change "." with (render false []) in E.
      apply render_inj in E; [now subst | assumption | exact I].
    - split; [apply IsRooted_render; eapply normal_elems; eassumption |].
      apply comps_render; [assumption |].
      destruct r; [now left | right]. intros EB. apply NE. now rewrite EB. }
  rewrite Hr, Hc.
  destruct (String.eqb_spec (render r (B ++ x :: rel)) ".") as [E | _].
  { exfalso. assert (r = false) as Er.
    { rewrite <- (IsRooted_render r (B ++ x :: rel)), E
        by (eapply normal_elems; eassumption).
      reflexivity. }
    rewrite Er in E, HT. change "." with (render false []) in E.
    apply render_inj in E; [| assumption | exact I].
    now destruct B. }
  rewrite IsRooted_render by (eapply normal_elems; eassumption).
  rewrite Bool.eqb_reflx. simpl negb. cbv iota.
  rewrite comps_render
    by (assumption || (right; destruct B; discriminate)).
  now rewrite strip_common_app.
Qed.

Lemma emits_nil (prefix : string) : emits prefix [] [].
Proof. intros acc. simpl. now rewrite app_nil_r. Qed.

Lemma run_visits_app {S E : Type} (fn : S → visit → S * option E)
    (vs1 vs2 : list visit) (acc : S) :
  run_visits fn (vs1 ++ vs2) acc
  = match run_visits fn vs1 acc with
    | (acc', None) => run_visits fn vs2 acc'
    | (acc', Some e) => (acc', Some e)
    end.
Proof.
  revert acc. induction vs1 as [|v vs1 IH]; intros acc; simpl.
  - reflexivity.
  - destruct (fn acc v) as [acc' [e|]]; [reflexivity | apply IH].
Qed.

Lemma emits_app (prefix : string) (vs1 vs2 : list visit)
    (o1 o2 : list localFile) :
  emits prefix vs1 o1 → emits prefix vs2 o2 →
  emits prefix (vs1 ++ vs2) (o1 ++ o2).
Proof.
  intros H1 H2 acc. rewrite run_visits_app, H1, H2. now rewrite app_assoc.
Qed.

Lemma emits_concat {A : Type} (prefix : string) (W : A → list visit)
    (N : A → list string) (l : list A) :
  Forall (fun a => ∃ out, emits prefix (W a) out ∧ map name out ≡ₚ N a) l →
  ∃ out, emits prefix (concat (map W l)) out
         ∧ map name out ≡ₚ concat (map N l).
Proof.
  induction 1 as [|a l (o & Ho & Hn) _ (out & Hout & Hnames)].
  - exists []. split; [apply emits_nil | reflexivity].
  - exists (o ++ out). split; [now apply emits_app |].
    simpl. rewrite map_app. now rewrite Hn, Hnames.
Qed.

Lemma concat_map_Permutation {A B : Type} (f : A → list B) (l l' : list A) :
  l ≡ₚ l' → concat (map f l) ≡ₚ concat (map f l').
Proof.
  induction 1; simpl.
  - reflexivity.
  - now rewrite IHPermutation.
  - rewrite !app_assoc. f_equiv. apply Permutation_app_comm.
  - etransitivity; eassumption.
Qed.

Lemma concat_names_not_dot (x : string) (rel : list string) :
  Forall is_name (x :: rel) → String.concat "/" (x :: rel) ≠ ".".
Proof.
  intros Hrel E.
  assert (Split (String.concat "/" (x :: rel)) = x :: rel) as ES.
  { apply Split_concat; [discriminate |].
    eapply Forall_impl; [exact Hrel |]. now intros c [(_ & _ & H) _]. }
  rewrite E in ES. injection ES as ES _.
  inversion Hrel as [|? ? [(_ & Hx & _) _] _]; subst. now apply Hx.
Qed.

(** One visit: the prefix itself is skipped, a path below it is recorded
    under its relative name. *)
Lemma emits_visit (prefix s : string) (rel : list string) (info : FileInfo) :
  prefix ≠ "" → Forall is_name rel →
  Clean s = render (IsRooted prefix) (elements prefix ++ rel) →
  ∃ o, emits prefix [Visit s info] o
       ∧ map name o
         = match rel with [] => [] | _ => [String.concat "/" rel] end.
Proof.
  intros Hp Hrel HC. pose proof (Rel_below prefix s rel Hp Hrel HC) as HR.
  destruct rel as [|x rel].
  - exists []. split; [| reflexivity].
    intros acc. simpl. rewrite HR. simpl. now rewrite app_nil_r.
  - exists [{| size := fi_size info; lastModified := fi_mtime info;
               name := String.concat "/" (x :: rel) |}].
    split; [| reflexivity].
    intros acc. simpl. rewrite HR.
    pose proof (concat_names_not_dot x rel Hrel) as Hd.
    apply String.eqb_neq in Hd. now rewrite Hd.
Qed.

(** The walk below a path that lies [rel] under the prefix records that
    path (unless it is the prefix itself) and everything under it, each
    once, named relative to the prefix. *)
Lemma walk_emits (prefix : string) (tbl : gmap nat inode) (n : node) :
  prefix ≠ "" → wf_node n →
  ∀ (s : string) (rel : list string),
    s ≠ "" → IsRooted s = IsRooted prefix →
    elements s = elements prefix ++ rel → Forall is_name rel →
    ∃ out, emits prefix (walk tbl s n) out
           ∧ map name out
             ≡ₚ match rel with [] => [] | _ => [String.concat "/" rel] end
                ++ map (fun sub => String.concat "/" (rel ++ sub))
                       (subtree n).
Proof.
  intros Hp. induction n as [i|mt es IH] using node_induction;
    intros Hwf s rel Hs Hr He Hrel.
  all: assert (Clean s = render (IsRooted prefix) (elements prefix ++ rel))
         as HC by (rewrite Clean_render; congruence).
  all: pose proof (fun info => emits_visit prefix s rel info Hp Hrel HC)
         as Hroot.
  - destruct (Hroot (info_of tbl (filepath_Base s) (File i))) as (o & Ho & Hn).
    exists o. split; [exact Ho |]. simpl. now rewrite Hn, app_nil_r.
  - apply wf_node_entries in Hwf as (Hnd & Hnm & Hch).
    destruct (Hroot (info_of tbl (filepath_Base s) (Dir mt es)))
      as (o & Ho & Hn).
    set (W := fun e : string * node => walk tbl (filepath_Join s e.1) e.2).
    set (N := fun e : string * node =>
                String.concat "/" (rel ++ [e.1])
                :: map (fun sub => String.concat "/" (rel ++ e.1 :: sub))
                       (subtree e.2)).
    assert (Forall (fun e => ∃ out, emits prefix (W e) out
                                    ∧ map name out ≡ₚ N e) es) as Hall.
    { rewrite Forall_forall in IH, Hch |- *. intros e Hin.
      assert (is_name e.1) as Hname.
      { rewrite Forall_forall in Hnm. apply Hnm. rewrite map_fmap.
        apply list_elem_of_fmap. eauto. }
      assert (elements (s +:+ String Separator e.1) = elements s ++ [e.1])
        as Hel.
      { apply (elements_join_names s [e.1]);
          [assumption | discriminate | now constructor]. }
      assert (normal (IsRooted prefix) ((elements prefix ++ rel) ++ [e.1]))
        as Hnorm.
      { apply normal_snoc_names; [| now constructor].
        rewrite <- He, <- Hr. apply elements_normal. }
      assert (filepath_Join s e.1
              = render (IsRooted prefix) ((elements prefix ++ rel) ++ [e.1]))
        as Hj.
      { rewrite filepath_Join_nonempty, Clean_render by assumption.
        rewrite IsRooted_append by assumption. now rewrite Hel, He, Hr. }
      destruct (IH e Hin (Hch e Hin) (filepath_Join s e.1) (rel ++ [e.1]))
        as (out & Hout & Hperm).
      - rewrite Hj. apply render_nonempty. eapply normal_elems; eassumption.
      - rewrite Hj. apply IsRooted_render. eapply normal_elems; eassumption.
      - rewrite Hj, elements_render by assumption. now rewrite app_assoc.
      - apply Forall_app. split; [assumption | now constructor].
      - exists out. split; [exact Hout |]. rewrite Hperm. unfold N.
        destruct (rel ++ [e.1]) eqn:Eq; [now destruct rel |].
        rewrite <- Eq. simpl. constructor.
        erewrite map_ext; [reflexivity |].
        intros sub. simpl. now rewrite <- app_assoc. }
    assert (∃ es', by_name (map (fun e => (e.1, W e)) es)
                   = map (fun e => (e.1, W e)) es' ∧ es ≡ₚ es')
      as (es' & Hsort & Hperm).
    { apply Permutation_map_inv. unfold by_name.
      apply merge_sort_Permutation. }
    assert (Forall (fun e => ∃ out, emits prefix (W e) out
                                    ∧ map name out ≡ₚ N e) es') as Hall'.
    { eapply Permutation_Forall; eassumption. }
    destruct (emits_concat prefix W N es' Hall') as (out & Hout & Hnames).
    exists (o ++ out). split.
    + change (walk tbl s (Dir mt es))
        with ([Visit s (info_of tbl (filepath_Base s) (Dir mt es))]
              ++ concat (map snd (by_name (map (fun e => (e.1, W e)) es)))).
      apply emits_app; [exact Ho |].
      rewrite Hsort, map_map. simpl. exact Hout.
    + rewrite map_app, Hn, Hnames. f_equiv.
      rewrite <- (concat_map_Permutation N es es' Hperm).
      assert (concat (map N es)
              = map (fun sub => String.concat "/" (rel ++ sub))
                    (subtree (Dir mt es))) as ->; [| reflexivity].
      clear. induction es as [|e es IH]; [reflexivity |].
      rewrite subtree_cons, map_app, <- IH. simpl concat. f_equal.
      unfold N. simpl map. now rewrite map_map.
Qed.

End WalkFacts.

Section WalkProperties.

(** C9.  Recursive enumeration of an existing prefix in a well-formed tree
    records, with a visitor that accepts everything, exactly one entry for
    every file and directory strictly below the prefix, named by its path
    relative to the prefix with [/] between the elements; the prefix itself
    is not recorded and no entry is named [.].  This holds for
    [WalkAbsolute] on any prefix and so for [Walk] on any key that joins to
    it. *)
Theorem Walk_recursive_relative_names (l : Local) (fs : filesystem)
    (prefix : string) (p : list string) (n : node) :
  locate fs prefix = Ok p → resolve p (root fs) = Ok n → wf_node n →
  ∃ entries,
    WalkAbsolute l fs prefix true collect [] = (entries, None)
    ∧ (∀ remotePath, path_Join (Path (Config l)) remotePath = prefix →
         Walk l fs remotePath true collect [] = (entries, None))
    ∧ map name entries ≡ₚ map (String.concat "/") (subtree n)
    ∧ NoDup (map name entries)
    ∧ Forall (fun f => name f ≠ ".") entries
    ∧ (∀ rel, rel ∈ subtree n
              ↔ rel ≠ [] ∧ ∃ x, resolve (p ++ rel) (root fs) = Ok x).
Proof.
  intros Hl Hr Hwf.
  assert (prefix ≠ "") as Hp.
  { intros E. unfold locate in Hl. rewrite E in Hl. discriminate. }
  destruct (walk_emits prefix (inodes fs) n Hp Hwf prefix [] Hp eq_refl)
    as (out & Hout & Hnames).
  { now rewrite app_nil_r. }
  { constructor. }
  simpl in Hnames.
  assert (map (fun sub => String.concat "/" sub) (subtree n)
          = map (String.concat "/") (subtree n)) as E by reflexivity.
  rewrite E in Hnames. clear E.
  pose proof (subtree_names n Hwf) as Hsub. rewrite Forall_forall in Hsub.
  assert (∀ rel, rel ∈ subtree n →
                 Split (String.concat "/" rel) = rel) as Hsplit.
  { intros rel Hin. destruct (Hsub rel Hin) as [Hne Hn].
    apply Split_concat; [assumption |].
    eapply Forall_impl; [exact Hn |]. now intros c [(_ & _ & H) _]. }
  assert (WalkAbsolute l fs prefix true collect [] = (out, None)) as HW.
  { unfold WalkAbsolute, filepath_Walk, visits.
    rewrite Hl, Hr. apply (Hout []). }
  exists out. split; [exact HW |].
  split; [| split; [| split; [| split]]].
  - intros remotePath <-. exact HW.
  - exact Hnames.
  - rewrite Hnames, map_fmap. apply NoDup_fmap_2_strong.
    + intros x y Hx Hy Exy.
      transitivity (Split (String.concat "/" x)); [symmetry; auto |].
      rewrite Exy. auto.
    + now apply subtree_NoDup.
  - apply Forall_forall. intros f Hf.
    assert (name f ∈ map name out) as Hin
      by (rewrite map_fmap; now apply list_elem_of_fmap_2).
    rewrite Hnames, map_fmap in Hin.
    apply list_elem_of_fmap in Hin as (rel & -> & Hin).
    destruct (Hsub rel Hin) as [Hne Hn].
    destruct rel as [|x rel]; [contradiction |].
    now apply concat_names_not_dot.
  - intros rel. rewrite (subtree_resolve n rel Hwf), resolve_app, Hr. tauto.
Qed.

End WalkProperties.

(** ** Counterexamples and failing inputs *)

Section Concrete.

Import Sample.

(** C1.  The key-based [Walk] does not go through the guard.  On the sample
    disk the key [../etc] resolves outside the base [/backup]: the guard
    refuses it, so [StatFile], [GetFileReader], [PutFile] and [DeleteFile]
    fail with a path-escape error and leave the disk as it is, but [Walk]
    succeeds and lists the directory outside the base. *)
Theorem Walk_is_not_guarded :
  containedPath (Path (Config backend)) "../etc"
  = Err (ErrPathEscape "../etc" "/backup")
  ∧ StatFile backend disk "../etc" = Err (ErrPathEscape "../etc" "/backup")
  ∧ GetFileReader backend disk "../etc"
    = Err (ErrPathEscape "../etc" "/backup")
  ∧ PutFile backend disk "../etc" good_reader 5
    = (disk, Some (ErrPathEscape "../etc" "/backup"))
  ∧ DeleteFile backend disk "../etc"
    = (disk, Some (ErrPathEscape "../etc" "/backup"))
  ∧ Walk backend disk "../etc" true collect []
    = ([{| size := 10; lastModified := 0; name := "passwd" |}], None)
  ∧ Walk backend disk "../etc" false collect []
    = ([{| size := 10; lastModified := 0; name := "passwd" |}], None).
Proof.
  assert (containedPath (Path (Config backend)) "../etc"
          = Err (ErrPathEscape "../etc" "/backup")) as H
    by (vm_compute; reflexivity).
  split; [exact H |].
  destruct (guarded_operations_refuse backend disk "../etc" good_reader 5
              _ H) as (_ & H1 & H2 & H3 & H4).
  repeat split; try assumption; vm_compute; reflexivity.
Qed.

(** C2.  With the root as base the guard refuses a key that resolves
    strictly below the base: the cleaned join of [/] and [a] is [/a], a
    strict descendant of the cleaned base [/], and [containedPath] returns
    the path-escape error. *)
Theorem containedPath_root_base_refuses_child :
  Clean ("/" +:+ "/" +:+ "a") = "/a"
  ∧ strict_descendant (Clean "/") "/a"
  ∧ containedPath "/" "a" = Err (ErrPathEscape "a" "/").
Proof.
  split; [vm_compute; reflexivity |]. split; [| vm_compute; reflexivity].
  exists ["a"]. split; [discriminate |]. split; [| vm_compute; reflexivity].
  constructor; [| constructor].
  repeat split; discriminate || reflexivity.
Qed.

(** The same slip on the current directory as base, and the opposite one on
    a base that climbs: [..] as key is accepted under the base [..]
    although [../..] does not lie within it. *)
Lemma containedPath_relative_bases :
  containedPath "." "a" = Err (ErrPathEscape "a" ".")
  ∧ strict_descendant (Clean ".") "a"
  ∧ containedPath ".." ".." = Ok "../.."
  ∧ ¬ within (Clean "..") "../..".
Proof.
  split; [vm_compute; reflexivity |]. split.
  { exists ["a"]. split; [discriminate |]. split; [| vm_compute; reflexivity].
    constructor; [| constructor].
    repeat split; discriminate || reflexivity. }
  split; [vm_compute; reflexivity |].
  change (Clean "..") with "..".
  intros [E | (rel & Hne & Hn & E)]; [discriminate |].
  assert (elements "../.." = [".."] ++ rel) as Hel.
  { change [".."] with (elements "..").
    rewrite <- (elements_join_names ".." rel) by (assumption || discriminate).
    change (".." +:+ String Separator (String.concat "/" rel))
      with (".." +:+ "/" +:+ String.concat "/" rel).
    rewrite E at 1. rewrite Clean_render, elements_render; [reflexivity |].
    apply elements_normal. }
  vm_compute in Hel. destruct rel as [|x rel]; [contradiction |].
  injection Hel as <- _. inversion Hn as [|? ? [_ Hx] _]. now apply Hx.
Qed.

(** C4, counterexample.  With a cancelled context the batch delete returns
    the cancellation error without attempting the key, although the
    attempt would succeed: no failure occurred, the result is not success,
    and the key still exists. *)
Lemma batch_delete_cancelled :
  failures_of (snd (attempt_all "/backup" disk ["b1/data.bin"])) = []
  ∧ snd (DeleteKeysBatch backend canceled disk ["b1/data.bin"])
    = Some (BatchAborted ErrCanceled)
  ∧ fst (DeleteKeysBatch backend canceled disk ["b1/data.bin"]) = disk
  ∧ exists_at disk "/backup/b1/data.bin".
Proof.
  repeat split; try (vm_compute; reflexivity).
  eexists. vm_compute. reflexivity.
Qed.

(** C5, counterexample.  With an empty [ObjectDiskPath], [CopyObject] does
    not fail: the destination key is resolved against the working
    directory and the copy is made there. *)
Lemma CopyObject_empty_objectDiskPath_copies :
  ObjectDiskPath (Config no_object_disk) = ""
  ∧ snd (CopyObject no_object_disk disk 5 "" "b1/data.bin" "copy.bin")
    = Ok 5%Z
  ∧ ¬ exists_at disk "/work/copy.bin"
  ∧ exists_at (fst (CopyObject no_object_disk disk 5 "" "b1/data.bin"
                      "copy.bin")) "/work/copy.bin".
Proof.
  split; [reflexivity |]. split; [vm_compute; reflexivity |]. split.
  - intros [info H]. vm_compute in H. discriminate.
  - eexists. vm_compute. reflexivity.
Qed.

(** C10, counterexample.  For the key [.] the File Descriptor is named
    after the base directory, not after the key. *)
Lemma StatFile_name_is_not_key_base :
  ∃ f, StatFile backend disk "." = Ok f
       ∧ name f = "backup" ∧ filepath_Base "." = "."
       ∧ name f ≠ filepath_Base ".".
Proof.
  eexists. split; [vm_compute; reflexivity |].
  repeat split; vm_compute; congruence.
Qed.

(** C3.  On a system where [/backup/b1] is append-only, the key
    [b1/new.bin] names nothing before the call; the reader delivers five
    bytes and fails; the file was created, the unlink of the clean-up is
    refused, and [PutFile] returns the reader's error with the half-written
    file left at the key: [StatFile] finds it, five bytes long. *)
Lemma PutFile_refused_cleanup_leaves_partial_file :
  StatFile backend disk "b1/new.bin" = Err ErrNotFound
  ∧ reader_bytes bad_reader = hello
  ∧ reader_err bad_reader = Some (ErrCaller 1)
  ∧ snd (PutFile_under append_only_b1 backend disk "b1/new.bin" bad_reader 5)
    = Some (ErrCaller 1)
  ∧ StatFile backend
      (fst (PutFile_under append_only_b1 backend disk "b1/new.bin"
              bad_reader 5))
      "b1/new.bin"
    = Ok {| size := 5; lastModified := 2; name := "new.bin" |}.
Proof. repeat split; vm_compute; reflexivity. Qed.

(** C9.  The recursive enumeration yields directories too.  Below
    [/backup/b1] of the sample disk there are two regular files,
    [data.bin] and [shadow/part.bin]; the enumeration yields three
    entries, one of them for the directory [shadow]. *)
Lemma Walk_recursive_yields_directories :
  resolve ["backup"; "b1"] (root disk) = Ok b1_tree
  ∧ map (String.concat "/") (files_below b1_tree)
    = ["data.bin"; "shadow/part.bin"]
  ∧ map name (fst (Walk backend disk "b1" true collect []))
    = ["data.bin"; "shadow"; "shadow/part.bin"]
  ∧ snd (Walk backend disk "b1" true collect []) = None
  ∧ os_Open disk "/backup/b1/shadow" = Ok HDir.
Proof. repeat split; vm_compute; reflexivity. Qed.

End Concrete.

(** ** Instances of the theorems on the sample disk *)

Section Witnesses.

Import Sample.

Lemma PutFile_failed_copy_cleanup_witness :
  ∃ fs3 n,
    io_Copy after_create 4 bad_reader = (fs3, n, Some (ErrCaller 1))
    ∧ (append_only_b1 fs3 "/backup/b1/new.bin" = None →
       ∃ fs', PutFile_under append_only_b1 backend disk "b1/new.bin"
                bad_reader 5 = (fs', Some (ErrCaller 1))
              ∧ StatFile backend fs' "b1/new.bin" = Err ErrNotFound)
    ∧ (∀ en, append_only_b1 fs3 "/backup/b1/new.bin" = Some en →
         PutFile_under append_only_b1 backend disk "b1/new.bin" bad_reader 5
         = (fs3, Some (ErrCaller 1))
         ∧ ∃ f, StatFile backend fs3 "b1/new.bin" = Ok f
                ∧ size f = Z.of_nat (length (reader_bytes bad_reader)))
    ∧ (∃ fs', PutFile backend disk "b1/new.bin" bad_reader 5
              = (fs', Some (ErrCaller 1))
              ∧ StatFile backend fs' "b1/new.bin" = Err ErrNotFound).
Proof.
  apply (PutFile_failed_copy_cleanup append_only_b1 backend disk disk
           after_create "b1/new.bin" "/backup/b1/new.bin" 4 bad_reader 5
           (ErrCaller 1)).
  - vm_compute. reflexivity.
  - vm_compute. reflexivity.
  - vm_compute. reflexivity.
  - reflexivity.
Defined.

Lemma PutFile_GetFileReader_roundtrip_witness :
  ∃ h, GetFileReader backend after_put "b1/new.bin" = Ok h
       ∧ file_ReadAll after_put h = Ok hello.
Proof.
  apply (PutFile_GetFileReader_roundtrip backend disk after_put
           "b1/new.bin" good_reader 5).
  vm_compute. reflexivity.
Defined.

Lemma StatFile_outcomes_witness :
  (os_Stat disk "/backup/b1/data.bin" = Err ENOENT →
   StatFile backend disk "b1/data.bin" = Err ErrNotFound)
  ∧ (∀ e, os_Stat disk "/backup/b1/data.bin" = Err e → e ≠ ENOENT →
          StatFile backend disk "b1/data.bin" = Err (ErrPath e))
  ∧ (∀ info, os_Stat disk "/backup/b1/data.bin" = Ok info →
       ∃ f, StatFile backend disk "b1/data.bin" = Ok f
            ∧ name f = filepath_Base "/backup/b1/data.bin"
            ∧ (is_name (filepath_Base "b1/data.bin") →
               name f = filepath_Base "b1/data.bin")
            ∧ size f = fi_size info)
  ∧ (∀ fs0 r localSize,
       PutFile backend fs0 "b1/data.bin" r localSize = (disk, None) →
       ∃ f, StatFile backend disk "b1/data.bin" = Ok f
            ∧ size f = Z.of_nat (length (reader_bytes r))).
Proof.
  apply (StatFile_outcomes backend disk "b1/data.bin" "/backup/b1/data.bin").
  vm_compute. reflexivity.
Defined.

Lemma deleteKeysBatchInternal_reports_failures_witness :
  ∃ fs' outcomes,
    attempt_all "/backup" disk ["b1/data.bin"; "../etc/passwd"; "b1/shadow"]
    = (fs', outcomes)
    ∧ map fst outcomes = ["b1/data.bin"; "../etc/passwd"; "b1/shadow"]
    ∧ (failures_of outcomes = [] →
       deleteKeysBatchInternal backend background disk "/backup"
         ["b1/data.bin"; "../etc/passwd"; "b1/shadow"] = (fs', None))
    ∧ (failures_of outcomes ≠ [] →
       deleteKeysBatchInternal backend background disk "/backup"
         ["b1/data.bin"; "../etc/passwd"; "b1/shadow"]
       = (fs', Some (BatchFailed
            {| Message := "LOCAL batch delete: "
                          +:+ dec (deleted_of outcomes)
                          +:+ " keys deleted, "
                          +:+ dec (length (failures_of outcomes))
                          +:+ " failed";
               Failures := failures_of outcomes |})))
    ∧ (∀ key, (key, None) ∈ outcomes →
         ∃ absPath, containedPath "/backup" key = Ok absPath
                    ∧ ¬ exists_at fs' absPath).
Proof.
  apply (deleteKeysBatchInternal_reports_failures backend background disk
           "/backup" ["b1/data.bin"; "../etc/passwd"; "b1/shadow"]).
  intros i _. reflexivity.
Defined.

(** Of three keys the second escapes the base: the other two are deleted
    and the report names the second only. *)
Example batch_delete_reports_only_the_escaping_key :
  snd (DeleteKeysBatch backend background disk
         ["b1/data.bin"; "../etc/passwd"; "b1/shadow"])
  = Some (BatchFailed
      {| Message := "LOCAL batch delete: 2 keys deleted, 1 failed";
         Failures :=
           [{| Key := "../etc/passwd";
               Err_ := ErrPathEscape "../etc/passwd" "/backup" |}] |})
  ∧ Walk backend
      (fst (DeleteKeysBatch backend background disk
              ["b1/data.bin"; "../etc/passwd"; "b1/shadow"]))
      "" true collect []
    = ([{| size := 4096; lastModified := 2; name := "b1" |}], None).
Proof. split; vm_compute; reflexivity. Qed.

(** A removal the operating system refuses is recorded like a refusal of
    the guard: a key below a regular file. *)
Example batch_delete_records_os_failures :
  snd (DeleteKeysBatch backend background disk
         ["b1/data.bin/x"; "b1/shadow"])
  = Some (BatchFailed
      {| Message := "LOCAL batch delete: 1 keys deleted, 1 failed";
         Failures :=
           [{| Key := "b1/data.bin/x"; Err_ := ErrPath ENOTDIR |}] |}).
Proof. vm_compute. reflexivity. Qed.

Lemma empty_objectDiskPath_deletes_nothing_witness :
  (∀ fs key, ∃ e,
     DeleteFileFromObjectDiskBackup no_object_disk fs key = (fs, Some e))
  ∧ (∀ ctx fs keys, keys ≠ [] →
       DeleteKeysFromObjectDiskBackupBatch no_object_disk ctx fs keys
       = (fs, Some (BatchAborted (CtxErr ctx)))
       ∨ ∃ b, DeleteKeysFromObjectDiskBackupBatch no_object_disk ctx fs keys
              = (fs, Some (BatchFailed b))
              ∧ map Key (Failures b) = keys).
Proof.
  apply (empty_objectDiskPath_deletes_nothing no_object_disk).
  reflexivity.
Defined.

(** Both strategies on the sample disk: the link when the trees share a
    device, the streamed copy when [/disks] is a mount point of its own;
    either way five bytes are reported. *)
Example CopyObject_both_strategies :
  snd (CopyObject backend disk 5 "" "b1/data.bin" "d1/obj") = Ok 5%Z
  ∧ os_Link after_mkdir "/backup/b1/data.bin" "/disks/d1/obj"
    = Ok (fst (CopyObject backend disk 5 "" "b1/data.bin" "d1/obj"))
  ∧ (let mounted :=
       {| root_mtime := root_mtime disk; root_entries := root_entries disk;
          inodes := inodes disk; next_ino := next_ino disk; cwd := cwd disk;
          mounts := [["disks"]]; clock := clock disk |} in
     snd (CopyObject backend mounted 77 "" "b1/data.bin" "d1/obj") = Ok 5%Z
     ∧ os_Link (match os_MkdirAll mounted "/disks/d1" with
                | Ok fs => fs | Err _ => mounted end)
               "/backup/b1/data.bin" "/disks/d1/obj" = Err EXDEV).
Proof. repeat split; vm_compute; reflexivity. Qed.

(** The streamed copy reports what it transferred: repeating a copy whose
    destination already is a hard link of the source, the destination is
    truncated before the source is read and no byte is transferred. *)
Example CopyObject_onto_its_own_link :
  snd (CopyObject backend
         (fst (CopyObject backend disk 5 "" "b1/data.bin" "d1/obj"))
         5 "" "b1/data.bin" "d1/obj")
  = Ok 0%Z.
Proof. vm_compute. reflexivity. Qed.

(** Both keys of that call are refused by the guard, and yet the copy is
    made: a file outside the base is read and a file outside the
    object-disk directory is written. *)
Example CopyObject_escapes_both_trees :
  containedPath (Path (Config backend)) "../etc/passwd"
  = Err (ErrPathEscape "../etc/passwd" "/backup")
  ∧ containedPath (ObjectDiskPath (Config backend)) "../work/stolen"
    = Err (ErrPathEscape "../work/stolen" "/disks")
  ∧ snd after_escape = Ok 5%Z
  ∧ ¬ exists_at disk "/work/stolen"
  ∧ match os_Open (fst after_escape) "/work/stolen" with
    | Ok h => file_ReadAll (fst after_escape) h = Ok secret
    | Err _ => False
    end.
Proof.
  repeat split; try (vm_compute; reflexivity).
  intros [info H]. vm_compute in H. discriminate.
Qed.

Lemma b1_tree_wf : wf_node b1_tree.
Proof.
  simpl. repeat split;
    apply (bool_decide_unpack _); vm_compute; exact I.
Qed.

Lemma Walk_recursive_relative_names_witness :
  ∃ entries,
    WalkAbsolute backend disk "/backup/b1" true collect [] = (entries, None)
    ∧ (∀ remotePath,
         path_Join (Path (Config backend)) remotePath = "/backup/b1" →
         Walk backend disk remotePath true collect [] = (entries, None))
    ∧ map name entries ≡ₚ map (String.concat "/") (subtree b1_tree)
    ∧ NoDup (map name entries)
    ∧ Forall (fun f => name f ≠ ".") entries
    ∧ (∀ rel, rel ∈ subtree b1_tree
              ↔ rel ≠ [] ∧ ∃ x, resolve (["backup"; "b1"] ++ rel) (root disk)
                               = Ok x).
Proof.
  apply (Walk_recursive_relative_names backend disk "/backup/b1"
           ["backup"; "b1"] b1_tree).
  - vm_compute. reflexivity.
  - vm_compute. reflexivity.
  - exact b1_tree_wf.
Defined.

(** What that enumeration yields. *)
Example Walk_recursive_on_sample :
  Walk backend disk "b1" true collect []
  = ([{| size := 5; lastModified := 0; name := "data.bin" |};
      {| size := 4096; lastModified := 0; name := "shadow" |};
      {| size := 10; lastModified := 0; name := "shadow/part.bin" |}], None)
  ∧ map (String.concat "/") (subtree b1_tree)
    = ["data.bin"; "shadow"; "shadow/part.bin"].
Proof. split; vm_compute; reflexivity. Qed.

End Witnesses.

(** * Further properties of the backend *)

(** ** Shapes of guarded paths *)

Section PathShape.

Lemma Clean_nonempty (s : string) : Clean s ≠ "".
Proof.
  unfold Clean. destruct (String.eqb s ""); [discriminate |].
  apply render_nonempty. apply (normal_elems (IsRooted s)), elements_normal.
Qed.

Lemma names_elems (cs : list string) : Forall is_name cs → Forall is_elem cs.
Proof. intros H. eapply Forall_impl; [exact H |]. now intros x [? _]. Qed.

Lemma names_normal (r : bool) (cs : list string) :
  Forall is_name cs → normal r cs.
Proof.
  intros H. rewrite <- (app_nil_l cs). apply normal_snoc_names; [apply normal_nil | exact H].
Qed.

Lemma Split_render (r : bool) (cs : list string) :
  Forall is_elem cs →
  Split (render r cs)
  = if r then "" :: match cs with [] => [""] | _ => cs end
    else match cs with [] => ["."] | _ => cs end.
Proof.
  intros H. destruct r.
  - rewrite render_rooted, Split_cons_sep. f_equal.
    destruct cs as [|c cs]; [reflexivity |].
    apply Split_concat; [discriminate | now apply elems_sep_free].
  - destruct cs as [|c cs]; [reflexivity |].
    rewrite render_relative by (inversion H as [|? ? [? _]]; assumption).
    apply Split_concat; [discriminate | now apply elems_sep_free].
Qed.

Lemma abs_render_names (fs : filesystem) (r : bool) (cs : list string) :
  Forall is_name cs →
  abs fs (render r cs) = (if r then [] else cwd fs) ++ cs.
Proof.
  intros H. pose proof (names_elems _ H) as He.
  unfold abs. rewrite IsRooted_render, Split_render by assumption.
  destruct r.
  - destruct cs as [|c cs]; [reflexivity |].
    change (fold_left (clean_step true) ("" :: c :: cs) [])
      with (fold_left (clean_step true) (c :: cs) []).
    rewrite fold_names by assumption.
    rewrite (app_nil_r (rev (c :: cs))). apply rev_involutive.
  - destruct cs as [|c cs].
    + change (rev (rev (cwd fs)) = cwd fs ++ []).
      now rewrite rev_involutive, app_nil_r.
    + rewrite fold_names by assumption.
      now rewrite rev_app_distr, !rev_involutive.
Qed.

Lemma endsWithDot_render (r : bool) (cs : list string) :
  Forall is_elem cs → r = true ∨ cs ≠ [] → endsWithDot (render r cs) = false.
Proof.
  intros H Hr. unfold endsWithDot. rewrite Split_render by assumption.
  assert (∀ d, cs ≠ [] → String.eqb (List.last cs d) "." = false) as Hl.
  { intros d Hne. apply String.eqb_neq.
    destruct (exists_last Hne) as (pre & c & ->).
    rewrite last_last. apply Forall_app in H as [_ Hc].
    inversion Hc as [|? ? (_ & ? & _)]. assumption. }
  destruct r.
  - destruct cs as [|c cs]; [reflexivity |].
    change (List.last ("" :: c :: cs) "") with (List.last (c :: cs) "").
    now apply Hl.
  - destruct Hr as [? | Hne]; [discriminate |].
    destruct cs as [|c cs]; [contradiction |]. now apply Hl.
Qed.

Lemma Dir_render (r : bool) (cs : list string) (c : string) :
  Forall is_name (cs ++ [c]) →
  filepath_Dir (render r (cs ++ [c])) = render r cs.
Proof.
  intros H. pose proof (names_elems _ H) as He.
  apply Forall_app in H as [Hcs Hc].
  pose proof (names_elems _ Hcs) as Hecs.
  assert (Forall (fun x => has_sep x = false) (cs ++ [""])) as Hsf.
  { apply Forall_app. split; [now apply elems_sep_free | now constructor]. }
  assert (fold_left (clean_step r) (cs ++ [""]) [] = rev cs) as Hfold.
  { rewrite fold_left_app, (fold_names r cs []) by assumption.
    now rewrite app_nil_r. }
  unfold filepath_Dir. rewrite Split_render by assumption.
  destruct r.
  - assert (removelast ("" :: match cs ++ [c] with [] => [""] | _ => cs ++ [c] end)
            = "" :: cs) as ->.
    { destruct (cs ++ [c]) eqn:E; [now destruct cs |].
      rewrite <- E. change ("" :: cs ++ [c]) with (("" :: cs) ++ [c]).
      apply removelast_last. }
    change (("" :: cs) ++ [""]) with ("" :: (cs ++ [""])).
    rewrite concat_cons by (now destruct cs). rewrite append_nil_l.
    unfold Clean. simpl String.eqb. cbv iota.
    unfold elements. rewrite Split_cons_sep.
    rewrite Split_concat; [| now destruct cs | assumption].
    change (IsRooted (String Separator (String.concat "/" (cs ++ [""]))))
      with true.
    change (fold_left (clean_step true) ("" :: cs ++ [""]) [])
      with (fold_left (clean_step true) (cs ++ [""]) []).
    now rewrite Hfold, rev_involutive.
  - destruct cs as [|x cs].
    + reflexivity.
    + assert (removelast (match (x :: cs) ++ [c] with [] => ["."] | _ => (x :: cs) ++ [c] end)
              = x :: cs) as ->.
      { simpl app. apply (removelast_last (x :: cs) c). }
      assert (x ≠ "" ∧ has_sep x = false) as [Hx Hxs].
      { inversion Hecs as [|? ? (? & _ & ?)]. now split. }
      assert (String.concat "/" ((x :: cs) ++ [""])
              = x +:+ String Separator (String.concat "/" (cs ++ [""]))) as Ec.
      { simpl app. apply concat_cons. now destruct cs. }
      unfold Clean.
      destruct (String.eqb_spec (String.concat "/" ((x :: cs) ++ [""])) "") as [E0 | _].
      { rewrite Ec in E0. apply append_eq_nil in E0 as [? _]. contradiction. }
      unfold elements.
      rewrite Split_concat; [| discriminate | assumption].
      rewrite Ec, IsRooted_no_sep by assumption.
      now rewrite Hfold, rev_involutive.
Qed.

Lemma containedPath_shape (basePath key p : string) :
  ordinary_base basePath → containedPath basePath key = Ok p →
  ∃ R, Forall is_name (elements basePath) ∧ elements basePath ≠ []
       ∧ Forall is_name R
       ∧ Clean basePath = render (IsRooted basePath) (elements basePath)
       ∧ p = render (IsRooted basePath) (elements basePath ++ R)
       ∧ p = Clean (basePath +:+ "/" +:+ key).
Proof.
  intros Hob H.
  pose proof (ordinary_base_nonempty _ Hob) as Hne.
  set (r := IsRooted basePath). set (B := elements basePath).
  set (J := elements (basePath +:+ String Separator key)).
  assert (normal r B) as HB by apply elements_normal.
  assert (normal r J) as HJ by now apply normal_join.
  assert (Clean basePath = render r B) as EB by apply Clean_render.
  assert (Clean (basePath +:+ "/" +:+ key) = render r J) as EJ.
  { change (basePath +:+ "/" +:+ key) with (basePath +:+ String Separator key).
    rewrite Clean_render. now rewrite IsRooted_append. }
  assert (∃ b B', B = b :: B' ∧ b ≠ "..") as (b & B' & EBB & Hb).
  { unfold ordinary_base in Hob. fold B in Hob.
    destruct B as [|b B']; [contradiction | eauto]. }
  assert (Forall is_name B) as HBn.
  { rewrite EBB. apply (normal_head_name r); [now rewrite <- EBB | exact Hb]. }
  assert (B ≠ []) as HBne by (rewrite EBB; discriminate).
  unfold containedPath in H. rewrite filepath_Join_nonempty in H by assumption.
  rewrite Clean_idem in H.
  change (basePath +:+ String Separator key) with (basePath +:+ "/" +:+ key) in H.
  rewrite EJ, EB in H.
  destruct (HasPrefix (render r J) (render r B +:+ String Separator "")) eqn:HP.
  - simpl in H. inversion H as [Hp].
    apply HasPrefix_render in HP as (R & HR & E); try assumption.
    assert (Forall is_name R) as HRn.
    { assert (Forall is_name (b :: (B' ++ R))) as HN.
      { apply (normal_head_name r); [| exact Hb].
        rewrite E, EBB in HJ. exact HJ. }
      inversion HN; subst. now apply Forall_app in H3 as [_ ?]. }
    exists R. rewrite <- E.
    split; [exact HBn |]. split; [exact HBne |]. split; [exact HRn |].
    split; [exact EB |]. split; [reflexivity | now rewrite EJ].
  - destruct (String.eqb_spec (render r J) (render r B)) as [E | NE];
      simpl in H; [| discriminate].
    inversion H as [Hp]. exists []. rewrite app_nil_r.
    split; [exact HBn |]. split; [exact HBne |]. split; [constructor |].
    split; [exact EB |]. split; [exact E | now rewrite EJ].
Qed.

End PathShape.

Section TreeFrames.

Lemma at_dir_del_frame (now : Z) (d : list string) (nm : string) :
  ∀ (q : list string) (i : nat) (t t' : node),
  at_dir d (del_entry now nm) t = Ok t' →
  is_prefix (d ++ [nm]) q = false →
  resolve q t = Ok (File i) → resolve q t' = Ok (File i).
Proof.
  induction d as [|x d IH]; intros q i t t' H Hp Hr.
  - destruct t as [|mt es]; [discriminate |]. simpl in H. inversion H; subst.
    destruct q as [|c q]; [discriminate |]. simpl in *.
    destruct (String.eqb_spec nm c) as [-> | Hne].
    + destruct q; simpl in Hp; discriminate.
    + now rewrite entry_lookup_remove_ne.
  - destruct t as [|mt es]; [discriminate |]. simpl in H.
    destruct (entry_lookup x es) as [n'|] eqn:El; [| discriminate].
    destruct (at_dir d (del_entry now nm) n') as [n''|] eqn:Ea; [| discriminate].
    inversion H; subst.
    destruct q as [|c q]; [discriminate |]. simpl in *.
    destruct (String.eqb_spec x c) as [-> | Hne].
    + rewrite entry_lookup_set_eq. rewrite El in Hr. simpl in Hp.
      now apply (IH q i n').
    + now rewrite entry_lookup_set_ne.
Qed.

Lemma mkdir_all_frame (now : Z) (p : list string) :
  ∀ (q : list string) (i : nat) (t t' : node),
  mkdir_all now p t = Ok t' →
  resolve q t = Ok (File i) → resolve q t' = Ok (File i).
Proof.
  induction p as [|c p IH]; intros q i t t' H Hr.
  - destruct t; [discriminate |]. simpl in H. now inversion H; subst.
  - destruct t as [|mt es]; [discriminate |]. simpl in H.
    destruct q as [|x q]; [discriminate |]. simpl in Hr.
    destruct (entry_lookup c es) as [n'|] eqn:El.
    + destruct (mkdir_all now p n') as [n''|] eqn:Em; [| discriminate].
      inversion H; subst. simpl.
      destruct (String.eqb_spec c x) as [-> | Hne].
      * rewrite entry_lookup_set_eq. rewrite El in Hr. now apply (IH q i n').
      * now rewrite entry_lookup_set_ne.
    + destruct (mkdir_all now p (Dir now [])) as [n''|] eqn:Em; [| discriminate].
      inversion H; subst. simpl.
      destruct (String.eqb_spec c x) as [-> | Hne].
      * now rewrite El in Hr.
      * now rewrite entry_lookup_set_ne.
Qed.

Lemma mkdir_all_keeps_dir (now : Z) (p : list string) :
  ∀ (q : list string) (t t' : node),
  mkdir_all now p t = Ok t' →
  (∃ mt es, resolve q t = Ok (Dir mt es)) →
  ∃ mt es, resolve q t' = Ok (Dir mt es).
Proof.
  induction p as [|c p IH]; intros q t t' H Hr.
  - destruct t; [discriminate |]. simpl in H. now inversion H; subst.
  - destruct q as [|x q].
    { simpl. apply mkdir_all_is_dir in H as (mt & es & ->). eauto. }
    destruct t as [|mt es]; [discriminate |]. simpl in H.
    destruct Hr as (mt0 & es0 & Hr). simpl in Hr.
    destruct (entry_lookup c es) as [n'|] eqn:El.
    + destruct (mkdir_all now p n') as [n''|] eqn:Em; [| discriminate].
      inversion H; subst. simpl.
      destruct (String.eqb_spec c x) as [-> | Hne].
      * rewrite entry_lookup_set_eq. rewrite El in Hr.
        apply (IH q n'); eauto.
      * rewrite entry_lookup_set_ne by assumption. eauto.
    + destruct (mkdir_all now p (Dir now [])) as [n''|] eqn:Em; [| discriminate].
      inversion H; subst. simpl.
      destruct (String.eqb_spec c x) as [-> | Hne].
      * now rewrite El in Hr.
      * rewrite entry_lookup_set_ne by assumption. eauto.
Qed.

End TreeFrames.

(** ** What the [os] operations leave alone *)

Section OsFrames.

Lemma is_prefix_app (a b q : list string) :
  is_prefix a q = false → is_prefix (a ++ b) q = false.
Proof.
  revert q. induction a as [|x a IH]; intros q H; [discriminate |].
  destruct q as [|y q]; [reflexivity |]. simpl in *.
  destruct (String.eqb x y); [now apply IH | reflexivity].
Qed.

Lemma is_prefix_spec (a q : list string) :
  is_prefix a q = true ↔ ∃ rest, q = a ++ rest.
Proof.
  revert q. induction a as [|x a IH]; intros q.
  - split; [eauto | reflexivity].
  - destruct q as [|y q]; simpl.
    + split; [discriminate | intros [rest H]; discriminate].
    + destruct (String.eqb_spec x y) as [-> | Hne]; simpl.
      * rewrite IH. split; intros [rest H]; exists rest; congruence.
      * split; [discriminate | intros [rest H]; congruence].
Qed.

Lemma mkdir_all_frame_rev (now : Z) (p : list string) :
  ∀ (q : list string) (i : nat) (t t' : node),
  mkdir_all now p t = Ok t' →
  resolve q t' = Ok (File i) → resolve q t = Ok (File i).
Proof.
  induction p as [|c p IH]; intros q i t t' H Hr.
  - destruct t; [discriminate |]. simpl in H. now inversion H; subst.
  - destruct t as [|mt es]; [discriminate |]. simpl in H.
    destruct (entry_lookup c es) as [n'|] eqn:El.
    + destruct (mkdir_all now p n') as [n''|] eqn:Em; [| discriminate].
      inversion H; subst.
      destruct q as [|x q]; [discriminate |]. simpl in *.
      destruct (String.eqb_spec c x) as [-> | Hne].
      * rewrite entry_lookup_set_eq in Hr. rewrite El.
        now apply (IH q i n' n'').
      * now rewrite entry_lookup_set_ne in Hr.
    + destruct (mkdir_all now p (Dir now [])) as [n''|] eqn:Em;
        [| discriminate].
      inversion H; subst.
      destruct q as [|x q]; [discriminate |]. simpl in *.
      destruct (String.eqb_spec c x) as [-> | Hne].
      * rewrite entry_lookup_set_eq in Hr.
        apply (IH q i _ _ Em) in Hr. destruct q; discriminate.
      * now rewrite entry_lookup_set_ne in Hr.
Qed.

Lemma next_ino_with_root (fs : filesystem) (r : node) :
  next_ino (with_root fs r) = next_ino fs.
Proof. now destruct r. Qed.

Lemma os_MkdirAll_shape (fs fs1 : filesystem) (name : string) :
  os_MkdirAll fs name = Ok fs1 →
  cwd fs1 = cwd fs ∧ inodes fs1 = inodes fs ∧ next_ino fs1 = next_ino fs.
Proof.
  unfold os_MkdirAll.
  destruct (locate fs name) as [p|]; [| discriminate].
  destruct (resolve p (root fs)) as [[i|mt es]|e].
  - discriminate.
  - now intros [= <-].
  - destruct (mkdir_all (clock fs) p (root fs)) as [r|]; [| discriminate].
    intros [= <-].
    now rewrite cwd_with_root, inodes_with_root, next_ino_with_root.
Qed.

Lemma os_MkdirAll_files (fs fs1 : filesystem) (name : string)
    (q : list string) (i : nat) :
  os_MkdirAll fs name = Ok fs1 →
  resolve q (root fs1) = Ok (File i) ↔ resolve q (root fs) = Ok (File i).
Proof.
  unfold os_MkdirAll.
  destruct (locate fs name) as [p|]; [| discriminate].
  destruct (resolve p (root fs)) as [[j|mt es]|e].
  - discriminate.
  - now intros [= <-].
  - destruct (mkdir_all (clock fs) p (root fs)) as [r|] eqn:Em;
      [| discriminate].
    intros [= <-].
    rewrite root_with_root by (eapply mkdir_all_is_dir; exact Em).
    split; [eapply mkdir_all_frame_rev | eapply mkdir_all_frame]; exact Em.
Qed.

Lemma os_MkdirAll_keeps_dir (fs fs1 : filesystem) (name : string)
    (q : list string) :
  os_MkdirAll fs name = Ok fs1 →
  (∃ mt es, resolve q (root fs) = Ok (Dir mt es)) →
  ∃ mt es, resolve q (root fs1) = Ok (Dir mt es).
Proof.
  unfold os_MkdirAll.
  destruct (locate fs name) as [p|]; [| discriminate].
  destruct (resolve p (root fs)) as [[j|mt es]|e].
  - discriminate.
  - now intros [= <-].
  - destruct (mkdir_all (clock fs) p (root fs)) as [r|] eqn:Em;
      [| discriminate].
    intros [= <-].
    rewrite root_with_root by (eapply mkdir_all_is_dir; exact Em).
    eapply mkdir_all_keeps_dir; exact Em.
Qed.

Lemma os_MkdirAll_resolve (fs fs1 : filesystem) (name : string) :
  os_MkdirAll fs name = Ok fs1 →
  ∃ p mt es, locate fs name = Ok p ∧ resolve p (root fs1) = Ok (Dir mt es).
Proof.
  unfold os_MkdirAll.
  destruct (locate fs name) as [p|]; [| discriminate].
  destruct (resolve p (root fs)) as [[j|mt es]|e] eqn:Er.
  - discriminate.
  - intros [= <-]. eauto.
  - destruct (mkdir_all (clock fs) p (root fs)) as [r|] eqn:Em;
      [| discriminate].
    intros [= <-].
    rewrite root_with_root by (eapply mkdir_all_is_dir; exact Em).
    destruct (mkdir_all_resolve _ _ _ _ Em) as (mt & es & Hr). eauto.
Qed.

Lemma os_MkdirAll_existing (fs : filesystem) (name : string)
    (p : list string) (mt : Z) (es : list (string * node)) :
  locate fs name = Ok p → resolve p (root fs) = Ok (Dir mt es) →
  os_MkdirAll fs name = Ok fs.
Proof. unfold os_MkdirAll. now intros -> ->. Qed.

Lemma os_MkdirAll_idem (fs fs1 : filesystem) (name : string) :
  os_MkdirAll fs name = Ok fs1 → os_MkdirAll fs1 name = Ok fs1.
Proof.
  intros H. destruct (os_MkdirAll_resolve _ _ _ H) as (p & mt & es & Hl & Hr).
  apply os_MkdirAll_shape in H as (Hc & _).
  eapply os_MkdirAll_existing; [| exact Hr].
  now rewrite (locate_cwd fs).
Qed.

Lemma RemoveAll_frame (fs fs' : filesystem) (name : string)
    (oe : option error) :
  RemoveAll fs name = (fs', oe) →
  cwd fs' = cwd fs ∧ inodes fs' = inodes fs
  ∧ ∀ q i, is_prefix (abs fs name) q = false →
           resolve q (root fs) = Ok (File i) →
           resolve q (root fs') = Ok (File i).
Proof.
  unfold RemoveAll, os_RemoveAll. intros H.
  destruct (String.eqb name ""); [injection H as <- <-; auto |].
  destruct (endsWithDot name); [injection H as <- <-; auto |].
  destruct (resolve (abs fs name) (root fs)) as [n|e] eqn:Er.
  - destruct (abs fs name) as [|c p] eqn:Ea.
    + injection H as <- <-.
      split; [apply cwd_with_root |]. split; [apply inodes_with_root |].
      intros q i Hp. discriminate.
    + destruct (at_dir (parent (c :: p)) _ (root fs)) as [r|e] eqn:Ed.
      * injection H as <- <-.
        pose proof (at_dir_is_dir _ _ _ _ (del_entry_dir _ _) Ed) as Hd.
        rewrite cwd_with_root, inodes_with_root, root_with_root
          by assumption.
        split; [reflexivity |]. split; [reflexivity |].
        intros q i Hp Hq.
        eapply at_dir_del_frame; [exact Ed | | exact Hq].
        rewrite <- path_split by discriminate. exact Hp.
      * injection H as <- <-. auto.
  - destruct e; injection H as <- <-; auto.
Qed.

(** A removal that reports success leaves nothing at the path. *)
Lemma RemoveAll_success (fs fs' : filesystem) (name : string) :
  name ≠ "" → RemoveAll fs name = (fs', None) →
  endsWithDot name = false
  ∧ resolve (abs fs' name) (root fs') = Err ENOENT.
Proof.
  unfold RemoveAll, os_RemoveAll. intros Hne H.
  destruct (String.eqb_spec name "") as [-> | _]; [contradiction |].
  destruct (endsWithDot name); [discriminate |].
  split; [reflexivity |].
  destruct (resolve (abs fs name) (root fs)) as [n|e] eqn:Er.
  - destruct (abs fs name) as [|c p] eqn:Ea; [discriminate |].
    destruct (at_dir (parent (c :: p)) _ (root fs)) as [r|e] eqn:Ed;
      [| discriminate].
    injection H as <-.
    pose proof (at_dir_is_dir _ _ _ _ (del_entry_dir _ _) Ed) as Hd.
    rewrite (abs_cwd fs) by apply cwd_with_root.
    rewrite root_with_root, Ea by assumption.
    eapply at_dir_del_resolve; [discriminate | exact Ed].
  - destruct e; try discriminate. now injection H as <-.
Qed.

Lemma keeps_outside_refl (basePath : string) (fs : filesystem) :
  keeps_outside basePath fs fs.
Proof. split; auto. Qed.

Lemma keeps_outside_trans (basePath : string) (fs1 fs2 fs3 : filesystem) :
  keeps_outside basePath fs1 fs2 → keeps_outside basePath fs2 fs3 →
  keeps_outside basePath fs1 fs3.
Proof.
  intros [Hc1 H1] [Hc2 H2]. split; [congruence |].
  intros q i Hp Hq. destruct (H1 q i Hp Hq) as [Hq2 Hd2].
  rewrite <- (abs_cwd fs1 fs2) in Hp by assumption.
  destruct (H2 q i Hp Hq2) as [Hq3 Hd3]. split; [assumption | congruence].
Qed.

End OsFrames.

(** ** Deleting *)

Section DeleteFacts.

Lemma attempt_confined (basePath : string) (fs fs' : filesystem)
    (key : string) (oe : option error) :
  ordinary_base basePath →
  attempt basePath fs key = (fs', oe) → keeps_outside basePath fs fs'.
Proof.
  intros Hob. unfold attempt.
  destruct (containedPath basePath key) as [p|e] eqn:Hc.
  - intros H.
    destruct (containedPath_shape _ _ _ Hob Hc)
      as (R & HB & _ & HR & EB & Ep & _).
    apply RemoveAll_frame in H as (Hcwd & Hi & Hf).
    split; [exact Hcwd |]. intros q i Hp Hq.
    split; [| now rewrite Hi].
    apply Hf; [| exact Hq].
    rewrite Ep, abs_render_names by (apply Forall_app; now split).
    rewrite EB, abs_render_names in Hp by assumption.
    rewrite app_assoc. now apply is_prefix_app.
  - intros [= <- _]. apply keeps_outside_refl.
Qed.

Lemma batch_loop_confined (ctx : Context) (basePath : string) :
  ordinary_base basePath →
  ∀ (keys : list string) (i : nat) (fs : filesystem)
    (failures : list KeyError) (n : nat) (fs' : filesystem)
    (res : result error (list KeyError * nat)),
    batch_loop ctx basePath keys i fs failures n = (fs', res) →
    keeps_outside basePath fs fs'.
Proof.
  intros Hob. induction keys as [|key keys IH];
    intros i fs failures n fs' res H; simpl in H.
  - injection H as <- _. apply keeps_outside_refl.
  - destruct (Done ctx i).
    { injection H as <- _. apply keeps_outside_refl. }
    assert (∀ fs1 oe, attempt basePath fs key = (fs1, oe) →
                      keeps_outside basePath fs fs1) as Ha
      by (intros; eapply attempt_confined; eassumption).
    unfold attempt in Ha.
    destruct (containedPath basePath key) as [p|e].
    + destruct (RemoveAll fs p) as [fs1 [e|]] eqn:Er;
        (eapply keeps_outside_trans;
         [apply (Ha _ _ eq_refl) | eapply IH; exact H]).
    + eapply IH; exact H.
Qed.

End DeleteFacts.

Section DeleteProperties.

(** X9.  Whatever the key and whatever the outcome, [DeleteFile] on a base
    that begins with an ordinary name leaves every regular file outside the
    base directory in place, with its bytes. *)
Theorem DeleteFile_confined (l : Local) (fs fs' : filesystem) (key : string)
    (oe : option error) :
  ordinary_base (Path (Config l)) →
  DeleteFile l fs key = (fs', oe) →
  keeps_outside (Path (Config l)) fs fs'.
Proof. intros Hob H. eapply attempt_confined; [exact Hob | exact H]. Qed.

(** X10.  Whatever the key and whatever the outcome,
    [DeleteFileFromObjectDiskBackup] on an object-disk path that begins
    with an ordinary name leaves every regular file outside the
    object-disk directory in place, with its bytes. *)
Theorem DeleteFileFromObjectDiskBackup_confined (l : Local)
    (fs fs' : filesystem) (key : string) (oe : option error) :
  ordinary_base (ObjectDiskPath (Config l)) →
  DeleteFileFromObjectDiskBackup l fs key = (fs', oe) →
  keeps_outside (ObjectDiskPath (Config l)) fs fs'.
Proof. intros Hob H. eapply attempt_confined; [exact Hob | exact H]. Qed.

(** X25.  A batch delete, whatever its keys, its outcome and the moment it
    is cancelled, leaves every regular file outside its base directory in
    place, with its bytes. *)
Theorem deleteKeysBatchInternal_confined (l : Local) (ctx : Context)
    (fs fs' : filesystem) (basePath : string) (keys : list string)
    (oe : option batch_error) :
  ordinary_base basePath →
  deleteKeysBatchInternal l ctx fs basePath keys = (fs', oe) →
  keeps_outside basePath fs fs'.
Proof.
  intros Hob. unfold deleteKeysBatchInternal.
  destruct (batch_loop ctx basePath keys 0 fs [] 0) as [fs1 res] eqn:Hb.
  apply (batch_loop_confined ctx basePath Hob) in Hb.
  destruct res as [[failures n]|e].
  - destruct (0 <? length failures)%nat; now intros [= <- _].
  - now intros [= <- _].
Qed.

(** X11.  After a [DeleteFile] that reports success the key is gone:
    [StatFile] answers not-found, [GetFileReader] fails, and deleting the
    key again succeeds without changing anything. *)
Theorem DeleteFile_then_not_found (l : Local) (fs fs' : filesystem)
    (key : string) :
  DeleteFile l fs key = (fs', None) →
  StatFile l fs' key = Err ErrNotFound
  ∧ GetFileReader l fs' key = Err (ErrPath ENOENT)
  ∧ DeleteFile l fs' key = (fs', None).
Proof.
  unfold DeleteFile, StatFile, GetFileReader. intros H.
  destruct (containedPath_cases (Path (Config l)) key) as [Hc | Hc];
    rewrite Hc in *; [discriminate |].
  set (p := Clean (filepath_Join (Path (Config l)) key)) in *.
  assert (p ≠ "") as Hne by apply Clean_nonempty.
  destruct (RemoveAll_success _ _ _ Hne H) as [Hd Hr].
  assert (locate fs' p = Ok (abs fs' p)) as Hl.
  { unfold locate. now destruct (String.eqb_spec p ""). }
  split; [| split].
  - unfold StatFileAbsolute. now rewrite os_Stat_resolve, Hl, Hr.
  - unfold GetFileReaderAbsolute, os_Open. now rewrite Hl, Hr.
  - unfold RemoveAll, os_RemoveAll.
    destruct (String.eqb_spec p ""); [contradiction |].
    now rewrite Hd, Hr.
Qed.



(** X13.  Deleting a key that names nothing is a success that changes
    nothing. *)
Theorem DeleteFile_missing_key (l : Local) (fs : filesystem)
    (key p : string) :
  containedPath (Path (Config l)) key = Ok p → p ≠ "." →
  StatFile l fs key = Err ErrNotFound →
  DeleteFile l fs key = (fs, None).
Proof.
  intros Hc Hdot Hs. unfold DeleteFile, StatFile in *. rewrite Hc in *.
  assert (p = Clean (filepath_Join (Path (Config l)) key)) as Ep.
  { destruct (containedPath_cases (Path (Config l)) key); congruence. }
  assert (p ≠ "") as Hne by (rewrite Ep; apply Clean_nonempty).
  assert (endsWithDot p = false) as Hd.
  { rewrite Ep, Clean_render.
    apply endsWithDot_render;
      [apply (normal_elems (IsRooted (filepath_Join (Path (Config l)) key))),
         elements_normal |].
    destruct (IsRooted (filepath_Join (Path (Config l)) key)) eqn:Hr;
      [now left | right].
    intros E. apply Hdot. rewrite Ep, Clean_render, Hr, E. reflexivity. }
  unfold StatFileAbsolute in Hs. rewrite os_Stat_resolve in Hs.
  unfold locate in Hs. unfold RemoveAll, os_RemoveAll.
  destruct (String.eqb_spec p ""); [contradiction |]. rewrite Hd.
  destruct (resolve (abs fs p) (root fs)) as [x|e]; [discriminate |].
  now destruct e.
Qed.

End DeleteProperties.

(** ** Writing and reading single files *)

Section PutFacts.

(** The path the guard returns on an ordinary base, as the operating
    system sees it: its directory is the parent of its element list. *)
Lemma guarded_path_dir (fs : filesystem) (basePath key p : string) :
  ordinary_base basePath → containedPath basePath key = Ok p →
  abs fs p ≠ []
  ∧ locate fs p = Ok (abs fs p)
  ∧ locate fs (filepath_Dir p) = Ok (parent (abs fs p)).
Proof.
  intros Hob Hc.
  destruct (containedPath_shape _ _ _ Hob Hc)
    as (R & HB & HBne & HR & _ & Ep & _).
  set (r := IsRooted basePath) in *.
  assert (Forall is_name (elements basePath ++ R)) as Hcs
    by (apply Forall_app; now split).
  assert (elements basePath ++ R ≠ []) as Hne.
  { intros E. now apply app_eq_nil in E as [? _]. }
  destruct (exists_last Hne) as (cs' & c & Ecs). rewrite Ecs in *.
  assert (Forall is_name cs') as Hcs' by now apply Forall_app in Hcs as [? _].
  assert (abs fs p = ((if r then [] else cwd fs) ++ cs') ++ [c]) as Ea.
  { rewrite Ep, abs_render_names by assumption. apply app_assoc. }
  split; [| split].
  - rewrite Ea. intros E. now apply app_eq_nil in E as [_ ?].
  - unfold locate. destruct (String.eqb_spec p "") as [E|]; [| reflexivity].
    exfalso. revert E. rewrite Ep. apply render_nonempty.
    now apply names_elems.
  - rewrite Ea. unfold parent. rewrite removelast_last.
    rewrite Ep, Dir_render by assumption.
    unfold locate.
    destruct (String.eqb_spec (render r cs') "") as [E|].
    + exfalso. revert E. apply render_nonempty. now apply names_elems.
    + now rewrite abs_render_names.
Qed.

Lemma os_Create_inode (fs fs2 : filesystem) (name : string) (ino : nat) :
  os_Create fs name = Ok (fs2, ino) →
  (resolve (abs fs name) (root fs) = Ok (File ino) ∨ ino = next_ino fs)
  ∧ ∀ j, j ≠ ino → file_data j (inodes fs2) = file_data j (inodes fs).
Proof.
  unfold os_Create, locate. intros H.
  destruct (String.eqb name ""); [discriminate |].
  destruct (resolve (abs fs name) (root fs)) as [[i|mt es]|e] eqn:Er.
  - injection H as <- <-. split; [now left |].
    intros j Hj. simpl. now apply file_data_insert_ne.
  - discriminate.
  - destruct e; try discriminate.
    destruct (at_dir (parent (abs fs name)) _ (root fs)) as [r|];
      [| discriminate].
    injection H as <- <-. split; [now right |].
    intros j Hj. rewrite inodes_with_root. simpl.
    now apply file_data_insert_ne.
Qed.

Lemma os_Remove_frame (fs fs4 : filesystem) (name : string)
    (q : list string) (i : nat) :
  os_Remove fs name = Ok fs4 → q ≠ abs fs name →
  resolve q (root fs) = Ok (File i) →
  resolve q (root fs4) = Ok (File i) ∧ inodes fs4 = inodes fs.
Proof.
  unfold os_Remove, locate. intros H Hq Hr.
  destruct (String.eqb name ""); [discriminate |].
  set (p := abs fs name) in *.
  destruct (resolve p (root fs)) as [n|] eqn:Ep; [| discriminate].
  assert (match p with
          | [] => Err EBUSY
          | _ => match at_dir (parent p) (del_entry (clock fs) (leaf p))
                         (root fs) with
                 | Ok r => Ok (with_root fs r)
                 | Err e => Err e
                 end
          end = Ok fs4
          ∧ ∀ c rest, resolve (c :: rest) n ≠ Ok (File i)) as [H' Hn].
  { destruct n as [j|mt [|e es]]; try discriminate; (split; [exact H |]).
    - intros c rest. discriminate.
    - intros c rest. discriminate. }
  clear H. destruct p as [|c p'] eqn:Epp; [discriminate |]. rewrite <- Epp in *.
  destruct (at_dir (parent p) _ (root fs)) as [r|] eqn:Ed; [| discriminate].
  injection H' as <-. rewrite inodes_with_root.
  split; [| reflexivity].
  rewrite root_with_root
    by (eapply at_dir_is_dir; [apply del_entry_dir | exact Ed]).
  eapply at_dir_del_frame; [exact Ed | | exact Hr].
  rewrite <- path_split by (rewrite Epp; discriminate).
  destruct (is_prefix p q) eqn:Hpq; [| reflexivity].
  exfalso. apply is_prefix_spec in Hpq as [rest ->].
  rewrite resolve_app, Ep in Hr.
  destruct rest as [|x rest].
  - apply Hq. now rewrite app_nil_r.
  - now apply (Hn x rest).
Qed.

Lemma mkdir_all_total (now : Z) (p : list string) :
  ∀ t, (∀ q i, is_prefix q p = true → resolve q t ≠ Ok (File i)) →
       ∃ t', mkdir_all now p t = Ok t'.
Proof.
  induction p as [|c p IH]; intros t Ht.
  - destruct t as [i|mt es]; [now destruct (Ht [] i eq_refl) |].
    simpl. eauto.
  - destruct t as [i|mt es]; [now destruct (Ht [] i eq_refl) |].
    simpl. destruct (entry_lookup c es) as [n'|] eqn:El.
    + destruct (IH n') as [t' ->]; [| eauto].
      intros q i Hq Hr. apply (Ht (c :: q) i).
      * simpl. now rewrite String.eqb_refl.
      * simpl. now rewrite El.
    + destruct (IH (Dir now [])) as [t' ->]; [| eauto].
      intros [|x q] i _; discriminate.
Qed.

Lemma no_file_on_spec (p : list string) :
  ∀ t, no_file_on p t = true
       ↔ ∀ q i, is_prefix q p = true → resolve q t ≠ Ok (File i).
Proof.
  induction p as [|c p IH]; intros t.
  - destruct t as [j|mt es]; simpl.
    + split; [discriminate |]. intros H. now destruct (H [] j eq_refl).
    + split; [| reflexivity]. intros _ [|x q] i Hq; discriminate.
  - destruct t as [j|mt es]; simpl.
    + split; [discriminate |]. intros H. now destruct (H [] j eq_refl).
    + destruct (entry_lookup c es) as [n'|] eqn:El.
      * rewrite IH. split.
        -- intros H [|x q] i Hq; [discriminate |]. simpl in Hq.
           destruct (String.eqb_spec x c) as [-> | Hne]; [| discriminate].
           simpl. rewrite El. now apply H.
        -- intros H q i Hq Hr. apply (H (c :: q) i).
           ++ simpl. now rewrite String.eqb_refl.
           ++ simpl. now rewrite El.
      * split; [| reflexivity]. intros _ [|x q] i Hq; [discriminate |].
        simpl in Hq.
        destruct (String.eqb_spec x c) as [-> | Hne]; [| discriminate].
        simpl. now rewrite El.
Qed.

Lemma mkdir_all_below (now : Z) (d : list string) :
  ∀ (t t' : node) (c : string) (rest : list string),
  mkdir_all now d t = Ok t' →
  resolve (d ++ c :: rest) t' = resolve (d ++ c :: rest) t
  ∨ resolve (d ++ c :: rest) t' = Err ENOENT.
Proof.
  induction d as [|x d IH]; intros t t' c rest H.
  - destruct t; [discriminate |]. simpl in H. injection H as <-. now left.
  - destruct t as [|mt es]; [discriminate |]. simpl in H.
    destruct (entry_lookup x es) as [n'|] eqn:El.
    + destruct (mkdir_all now d n') as [n''|] eqn:Em; [| discriminate].
      injection H as <-. simpl. rewrite entry_lookup_set_eq, El.
      eapply IH; exact Em.
    + destruct (mkdir_all now d (Dir now [])) as [n''|] eqn:Em;
        [| discriminate].
      injection H as <-. simpl. rewrite entry_lookup_set_eq, El.
      destruct (IH _ _ c rest Em) as [E | E]; [| now right].
      right. rewrite E. now destruct d.
Qed.

Lemma os_MkdirAll_total (fs : filesystem) (name : string)
    (p : list string) :
  locate fs name = Ok p →
  (∀ q i, is_prefix q p = true → resolve q (root fs) ≠ Ok (File i)) →
  ∃ fs1, os_MkdirAll fs name = Ok fs1.
Proof.
  intros Hl Hp. unfold os_MkdirAll. rewrite Hl.
  destruct (resolve p (root fs)) as [[i|mt es]|e] eqn:Er.
  - exfalso. apply (Hp p i); [| exact Er].
    apply is_prefix_spec. exists []. now rewrite app_nil_r.
  - eauto.
  - destruct (mkdir_all_total (clock fs) p (root fs) Hp) as [t' ->]. eauto.
Qed.

Lemma os_MkdirAll_below (fs fs1 : filesystem) (name : string)
    (p : list string) (c : string) :
  locate fs name = Ok p → os_MkdirAll fs name = Ok fs1 →
  resolve (p ++ [c]) (root fs1) = resolve (p ++ [c]) (root fs)
  ∨ resolve (p ++ [c]) (root fs1) = Err ENOENT.
Proof.
  intros Hl. unfold os_MkdirAll. rewrite Hl.
  destruct (resolve p (root fs)) as [[i|mt es]|e] eqn:Er.
  - discriminate.
  - intros [= <-]. now left.
  - destruct (mkdir_all (clock fs) p (root fs)) as [r|] eqn:Em;
      [| discriminate].
    intros [= <-].
    rewrite root_with_root by (eapply mkdir_all_is_dir; exact Em).
    eapply mkdir_all_below; exact Em.
Qed.

End PutFacts.

Section PutProperties.

(** X18.  [PutFile] never unlinks or replaces another file: every regular
    file found at a path other than the destination is found there
    afterwards, whatever the outcome; and its bytes are unchanged unless it
    is the very inode the destination names (a hard link of it).  Inode
    numbers in use are below the allocation counter. *)
Theorem PutFile_keeps_other_files (l : Local) (fs fs' : filesystem)
    (key p : string) (r : reader error) (localSize : Z) (oe : option error)
    (q : list string) (i : nat) :
  containedPath (Path (Config l)) key = Ok p →
  PutFile l fs key r localSize = (fs', oe) →
  resolve q (root fs) = Ok (File i) → q ≠ abs fs p →
  resolve q (root fs') = Ok (File i)
  ∧ ((i < next_ino fs)%nat →
     resolve (abs fs p) (root fs) ≠ Ok (File i) →
     file_data i (inodes fs') = file_data i (inodes fs)).
Proof.
  intros Hc H Hq Hne. unfold PutFile in H. rewrite Hc in H.
  unfold PutFileAbsolute in H.
  destruct (os_MkdirAll fs (filepath_Dir p)) as [fs1|] eqn:Em.
  2: { injection H as <- _. auto. }
  pose proof (os_MkdirAll_shape _ _ _ Em) as (Hc1 & Hi1 & Hn1).
  assert (resolve q (root fs1) = Ok (File i)) as Hq1
    by now apply (os_MkdirAll_files _ _ _ q i Em).
  destruct (os_Create fs1 p) as [[fs2 dst]|] eqn:Ecr.
  2: { injection H as <- _. split; [assumption | now rewrite Hi1]. }
  pose proof (os_Create_frame _ _ _ _ _ _ Ecr Hq1) as Hq2.
  pose proof (os_Create_inode _ _ _ _ Ecr) as [Hdst Hother].
  pose proof (os_Create_spec _ _ _ _ Ecr) as (_ & _ & _ & _ & Hc2 & _).
  destruct (io_Copy fs2 dst r) as [[fs3 n] oe3] eqn:Eio.
  pose proof (io_Copy_spec _ _ _ _ _ _ Eio) as (Hr3 & Hc3 & _).
  assert (resolve q (root fs3) = Ok (File i)) as Hq3 by now rewrite Hr3.
  assert ((i < next_ino fs)%nat →
          resolve (abs fs p) (root fs) ≠ Ok (File i) →
          file_data i (inodes fs3) = file_data i (inodes fs)) as Hb3.
  { intros Hlt Hp. assert (i ≠ dst) as Hd.
    { intros ->. destruct Hdst as [Hd | Hd].
      - apply Hp. rewrite <- (abs_cwd fs fs1) by assumption.
        now apply (os_MkdirAll_files _ _ _ _ _ Em).
      - lia. }
    rewrite (io_Copy_other _ _ _ _ _ _ _ Eio) by congruence.
    rewrite Hother by assumption. now rewrite Hi1. }
  destruct oe3 as [err|].
  - destruct (os_Remove fs3 p) as [fs4|] eqn:Erm.
    + injection H as <- _.
      assert (q ≠ abs fs3 p) as Hne3.
      { rewrite (abs_cwd fs fs3) by congruence. exact Hne. }
      destruct (os_Remove_frame _ _ _ _ _ Erm Hne3 Hq3) as [Hq4 Hi4].
      split; [assumption | now rewrite Hi4].
    + injection H as <- _. auto.
  - injection H as <- _. auto.
Qed.

(** X19.  On a base that begins with an ordinary name, [PutFile] onto a key
    that names a directory fails with the error of [os.Create] and changes
    nothing. *)
Theorem PutFile_onto_directory (l : Local) (fs : filesystem) (key p : string)
    (r : reader error) (localSize : Z) :
  ordinary_base (Path (Config l)) →
  containedPath (Path (Config l)) key = Ok p →
  is_directory fs p →
  PutFile l fs key r localSize = (fs, Some (ErrPath EISDIR)).
Proof.
  intros Hob Hc (info & Hs & Hd).
  destruct (guarded_path_dir fs _ _ _ Hob Hc) as (Hne & Hl & Hld).
  rewrite os_Stat_resolve, Hl in Hs.
  destruct (resolve (abs fs p) (root fs)) as [[i|mt es]|] eqn:Er;
    try discriminate.
  { injection Hs as <-. discriminate. }
  destruct (resolve_parent _ _ _ Hne Er) as (mt' & es' & Hpar).
  unfold PutFile. rewrite Hc. unfold PutFileAbsolute.
  rewrite (os_MkdirAll_existing _ _ _ _ _ Hld Hpar).
  unfold os_Create. now rewrite Hl, Er.
Qed.

(** X20.  On a base that begins with an ordinary name, when the key
    resolves to an absolute path made of valid names, [PutFile] with a
    reader that ends without error succeeds, creating the missing
    directories, as soon as no regular file lies on the way to the key's
    directory and the key does not name a directory. *)
Theorem PutFile_creates_missing_directories (l : Local) (fs : filesystem)
    (key p : string) (r : reader error) (localSize : Z) :
  ordinary_base (Path (Config l)) →
  containedPath (Path (Config l)) key = Ok p →
  plain_path p →
  reader_err r = None →
  way_clear fs (filepath_Dir p) →
  os_Open fs p ≠ Ok HDir →
  ∃ fs', PutFile l fs key r localSize = (fs', None)
         ∧ is_directory fs' (filepath_Dir p).
Proof.
  intros Hob Hc _ He Hway Hnd0.
  destruct (guarded_path_dir fs _ _ _ Hob Hc) as (Hne & Hl & Hld).
  assert (abs fs (filepath_Dir p) = parent (abs fs p)) as Ead.
  { unfold locate in Hld.
    destruct (String.eqb (filepath_Dir p) ""); [discriminate |].
    now injection Hld. }
  unfold way_clear in Hway. rewrite Ead, no_file_on_spec in Hway.
  assert (∀ mt es, resolve (abs fs p) (root fs) ≠ Ok (Dir mt es)) as Hnd.
  { intros mt es E. apply Hnd0. unfold os_Open. now rewrite Hl, E. }
  destruct (os_MkdirAll_total _ _ _ Hld Hway) as [fs1 Em].
  pose proof (os_MkdirAll_shape _ _ _ Em) as (Hc1 & _).
  destruct (os_MkdirAll_resolve _ _ _ Em) as (d & mt & es & Hld' & Hpar).
  rewrite Hld in Hld'. injection Hld' as <-.
  assert (resolve (abs fs p) (root fs1)
          = match entry_lookup (leaf (abs fs p)) es with
            | Some n => Ok n
            | None => Err ENOENT
            end) as Er1.
  { rewrite (path_split (abs fs p)) at 1 by assumption.
    rewrite resolve_app, Hpar. simpl.
    now destruct (entry_lookup (leaf (abs fs p)) es). }
  assert (∀ mt es, resolve (abs fs p) (root fs1) ≠ Ok (Dir mt es)) as Hnd1.
  { intros mt1 es1 E.
    destruct (os_MkdirAll_below _ _ _ _ (leaf (abs fs p)) Hld Em) as [E1 | E1];
      rewrite <- path_split in E1 by assumption.
    - apply (Hnd mt1 es1). congruence.
    - congruence. }
  assert (∃ fs2 dst, os_Create fs1 p = Ok (fs2, dst)) as (fs2 & dst & Ecr).
  { unfold os_Create. rewrite (locate_cwd fs fs1), Hl by assumption.
    rewrite Er1 in *.
    destruct (entry_lookup (leaf (abs fs p)) es) as [[i|mt1 es1]|].
    - eauto.
    - now destruct (Hnd1 mt1 es1).
    - destruct (at_dir_total (parent (abs fs p))
                  (add_entry (clock fs1) (leaf (abs fs p))
                     (File (next_ino fs1)))
                  (root fs1) mt es _ Hpar eq_refl) as [t' ->].
      eauto. }
  destruct (io_Copy fs2 dst r) as [[fs3 n] oe3] eqn:Eio.
  pose proof (io_Copy_spec _ _ _ _ _ _ Eio) as (Hr3 & Hc3 & _ & _ & Hoe).
  rewrite He in Hoe. subst oe3.
  pose proof (os_Create_spec _ _ _ _ Ecr) as (p' & Hl' & _ & Hr2 & Hc2 & _).
  exists fs3. split.
  - unfold PutFile. rewrite Hc. unfold PutFileAbsolute.
    now rewrite Em, Ecr, Eio.
  - rewrite (locate_cwd fs fs1), Hl in Hl' by assumption.
    injection Hl' as <-.
    destruct (resolve_parent _ _ _ Hne Hr2) as (mt2 & es2 & Hpar2).
    unfold is_directory. rewrite os_Stat_resolve.
    rewrite (locate_cwd fs fs3) by congruence.
    rewrite Hld, Hr3, Hpar2. eauto.
Qed.

(** X8.  [StatFile] and [GetFileReader] agree on what exists: one
    succeeds exactly when the other does, not-found of the first is the
    bare [ENOENT] path error of the second (which never returns the
    not-found sentinel), and the size [StatFile] reports is the number of
    bytes the reader delivers.  [GetFileReaderWithLocalPath] is
    [GetFileReader] whatever its two extra arguments. *)
Theorem StatFile_GetFileReader_agree (l : Local) (fs : filesystem)
    (key : string) :
  (StatFile l fs key = Err ErrNotFound
   ↔ GetFileReader l fs key = Err (ErrPath ENOENT))
  ∧ ((∃ f, StatFile l fs key = Ok f) ↔ (∃ h, GetFileReader l fs key = Ok h))
  ∧ GetFileReader l fs key ≠ Err ErrNotFound
  ∧ (∀ f h b, StatFile l fs key = Ok f → GetFileReader l fs key = Ok h →
              file_ReadAll fs h = Ok b → size f = Z.of_nat (length b))
  ∧ (∀ localPath remoteSize,
       GetFileReaderWithLocalPath l fs key localPath remoteSize
       = GetFileReader l fs key).
Proof.
  unfold GetFileReaderWithLocalPath, StatFile, GetFileReader.
  destruct (containedPath_cases (Path (Config l)) key) as [-> | ->].
  { repeat split; try discriminate; try (intros [? ?]; discriminate). }
  set (p := Clean (filepath_Join (Path (Config l)) key)).
  unfold StatFileAbsolute, GetFileReaderAbsolute, os_Open.
  rewrite os_Stat_resolve.
  destruct (locate fs p) as [q|e]; [| destruct e];
    try (repeat split; try discriminate; try (intros [? ?]; discriminate);
         fail).
  destruct (resolve q (root fs)) as [[i|mt es]|e]; [| | destruct e];
    try (repeat split; try discriminate; try (intros [? ?]; discriminate);
         eauto; fail).
  - repeat split; try discriminate; eauto.
    intros f h b [= <-] [= <-] [= <-]. reflexivity.
  - repeat split; try discriminate; eauto.
    intros f h b _ [= <-]. discriminate.
Qed.

End PutProperties.

(** ** Enumeration with an arbitrary visitor *)

Section VisitorFacts.

Context {S : Type}.
Variable process : S → localFile → S * option error.

Lemma run_visits_feed (prefix : string) (vs : list visit) :
  ∀ (acc acc' : list localFile) (s : S),
    run_visits (walk_fn prefix collect) vs acc = (acc', None) →
    ∃ out, acc' = acc ++ out
           ∧ run_visits (walk_fn prefix process) vs s = feed process out s.
Proof.
  induction vs as [|v vs IH]; intros acc acc' s H; simpl in H.
  - injection H as <-. exists []. now rewrite app_nil_r.
  - destruct v as [fPath info | fPath err]; simpl in *.
    + destruct (filepath_Rel prefix fPath) as [relName|]; [| discriminate].
      destruct (String.eqb relName ".").
      * apply IH. exact H.
      * unfold collect in H at 1.
        destruct (IH _ _ s H) as (out & -> & _).
        eexists (_ :: out). split; [now rewrite <- app_assoc |].
        simpl. destruct (process s _) as [s' [e|]]; [reflexivity |].
        destruct (IH _ _ s' H) as (out' & E & ->).
        apply app_inv_head in E. now subst.
    + destruct (IsNotExist err); [| discriminate]. apply IH. exact H.
Qed.

Lemma walk_entries_feed (ds : list DirEntry) (s : S) :
  walk_entries process ds s = feed process (map entry_file ds) s.
Proof.
  revert s. induction ds as [|d ds IH]; intros s; [reflexivity |].
  simpl. fold (entry_file d).
  destruct (process s (entry_file d)) as [s' [e|]]; [reflexivity | apply IH].
Qed.

End VisitorFacts.

Section VisitorProperties.

Lemma feed_collect (files acc : list localFile) :
  feed collect files acc = (acc ++ files, None).
Proof.
  revert acc. induction files as [|f files IH]; intros acc; simpl.
  - now rewrite app_nil_r.
  - rewrite IH. now rewrite <- app_assoc.
Qed.

(** X14.  The visitor of [WalkAbsolute] is handed exactly the File
    Descriptors of the listing, in its order, until it returns an error,
    and that error is the result: whatever the visitor, the walk is the
    listing fed to it.  [Walk] is [WalkAbsolute] on the joined path. *)
Theorem WalkAbsolute_feeds_visitor {S : Type} (l : Local) (fs : filesystem)
    (prefix : string) (recursive : bool) (entries : list localFile)
    (process : S → localFile → S * option error) (s : S) :
  WalkAbsolute l fs prefix recursive collect [] = (entries, None) →
  WalkAbsolute l fs prefix recursive process s = feed process entries s
  ∧ (∀ remotePath, path_Join (Path (Config l)) remotePath = prefix →
       Walk l fs remotePath recursive process s = feed process entries s).
Proof.
  intros H.
  assert (WalkAbsolute l fs prefix recursive process s
          = feed process entries s) as E.
  { unfold WalkAbsolute in *. destruct recursive.
    - unfold filepath_Walk in *.
      destruct (run_visits_feed process prefix _ _ _ s H) as (out & -> & ->).
      reflexivity.
    - destruct (os_ReadDir fs prefix) as [ds|e].
      + rewrite (walk_entries_feed collect), feed_collect in H.
        injection H as <-. apply walk_entries_feed.
      + destruct (IsNotExist e); [| discriminate].
        now injection H as <-. }
  split; [exact E |]. intros remotePath <-. exact E.
Qed.

(** X15.  Listing a prefix that does not exist is a success with no
    entries, in both modes and for every visitor. *)
Theorem WalkAbsolute_missing_prefix {S : Type} (l : Local) (fs : filesystem)
    (prefix : string) (recursive : bool)
    (process : S → localFile → S * option error) (s : S) :
  os_Stat fs prefix = Err ENOENT →
  WalkAbsolute l fs prefix recursive process s = (s, None)
  ∧ (∀ remotePath, path_Join (Path (Config l)) remotePath = prefix →
       Walk l fs remotePath recursive process s = (s, None)).
Proof.
  intros H.
  assert (WalkAbsolute l fs prefix recursive process s = (s, None)) as E.
  { rewrite os_Stat_resolve in H.
    unfold WalkAbsolute, filepath_Walk, visits, os_ReadDir.
    destruct (locate fs prefix) as [p|e].
    - destruct (resolve p (root fs)) as [n|e]; [discriminate |].
      injection H as ->. now destruct recursive.
    - injection H as ->. now destruct recursive. }
  split; [exact E |]. intros remotePath <-. exact E.
Qed.

(** X16.  On a prefix that names a regular file the two modes differ: the
    recursive walk succeeds with no entries, the non-recursive one fails
    with [ENOTDIR]. *)
Theorem WalkAbsolute_file_prefix {S : Type} (l : Local) (fs : filesystem)
    (prefix : string) (p : list string) (i : nat)
    (process : S → localFile → S * option error) (s : S) :
  locate fs prefix = Ok p → resolve p (root fs) = Ok (File i) →
  WalkAbsolute l fs prefix true process s = (s, None)
  ∧ WalkAbsolute l fs prefix false process s = (s, Some (ErrPath ENOTDIR)).
Proof.
  intros Hl Hr.
  unfold WalkAbsolute, filepath_Walk, visits, os_ReadDir. rewrite Hl, Hr.
  split; [| reflexivity]. simpl.
  unfold filepath_Rel. now rewrite String.eqb_refl.
Qed.

(** X17.  The non-recursive listing of a directory is its immediate
    children: one File Descriptor per entry, named by the entry (not by a
    path), in byte-wise name order, subdirectories included; each one
    describes the node of its entry. *)
Theorem WalkAbsolute_lists_children (l : Local) (fs : filesystem)
    (prefix : string) (p : list string) (mt : Z)
    (es : list (string * node)) :
  locate fs prefix = Ok p → resolve p (root fs) = Ok (Dir mt es) →
  ∃ entries,
    WalkAbsolute l fs prefix false collect [] = (entries, None)
    ∧ map name entries ≡ₚ map fst es
    ∧ Sorted (fun f g => String.leb (name f) (name g) = true) entries
    ∧ ∀ f, f ∈ entries →
           ∃ n, (name f, n) ∈ es ∧ describes (inodes fs) f n.
Proof.
  intros Hl Hr. unfold WalkAbsolute, os_ReadDir. rewrite Hl, Hr.
  set (mk := fun x : string * node =>
               entry_file {| de_name := x.1;
                             de_info := info_of (inodes fs) x.1 x.2 |}).
  rewrite walk_entries_feed, feed_collect, app_nil_l.
  exists (map mk (by_name es)). split; [now rewrite map_map |].
  assert (by_name es ≡ₚ es) as HP by apply merge_sort_Permutation.
  split; [| split].
  - rewrite map_map. change (map (fun x => name (mk x)) (by_name es))
      with (map fst (by_name es)).
    rewrite !map_fmap. now rewrite HP.
  - rewrite map_fmap.
    pose proof ((fun x y => String.leb_total x.1 y.1)
                : Total (@name_le node)) as Htot.
    eapply Sorted_fmap; [| apply (Sorted_merge_sort name_le)].
    intros x y Hxy. exact Hxy.
  - intros f Hf. rewrite map_fmap in Hf.
    apply list_elem_of_fmap in Hf as ([nm n] & -> & Hin).
    exists n. split; [now rewrite <- HP |].
    simpl. now destruct n.
Qed.

End VisitorProperties.

(** ** Cancelling a batch delete *)

Section BatchCancel.

Lemma batch_loop_cancelled (ctx : Context) (basePath : string) (k : nat) :
  ∀ (keys : list string) (i : nat) (fs : filesystem)
    (failures : list KeyError) (n : nat),
    (k < length keys)%nat →
    (∀ j, (i ≤ j < i + k)%nat → Done ctx j = false) →
    Done ctx (i + k) = true →
    batch_loop ctx basePath keys i fs failures n
    = (fst (attempt_all basePath fs (firstn k keys)), Err (CtxErr ctx)).
Proof.
  induction k as [|k IH]; intros keys i fs failures n Hk Hj Hd;
    (destruct keys as [|key rest]; [simpl in Hk; lia |]).
  - simpl. rewrite Nat.add_0_r in Hd. now rewrite Hd.
  - simpl in Hk. simpl batch_loop. rewrite (Hj i) by lia.
    simpl firstn. simpl attempt_all. unfold attempt.
    assert (∀ fs1 failures1 n1,
              batch_loop ctx basePath rest (S i) fs1 failures1 n1
              = (fst (attempt_all basePath fs1 (firstn k rest)),
                 Err (CtxErr ctx))) as Hrec.
    { intros. apply IH; [lia | intros j ?; apply Hj; lia |].
      now replace (S i + k)%nat with (i + S k)%nat by lia. }
    destruct (containedPath basePath key) as [p|e].
    + destruct (RemoveAll fs p) as [fs1 [e|]]; rewrite Hrec;
        now destruct (attempt_all basePath fs1 (firstn k rest)).
    + rewrite Hrec. now destruct (attempt_all basePath fs (firstn k rest)).
Qed.

(** X26.  A batch delete that finds its context cancelled before the
    [k]-th key (counting from zero) has attempted exactly the first [k]
    keys, each once and in order; what they removed stays removed, and the
    result is the context's error alone: the failures recorded so far are
    not reported. *)
Theorem deleteKeysBatchInternal_cancelled (l : Local) (ctx : Context)
    (fs : filesystem) (basePath : string) (keys : list string) (k : nat) :
  (k < length keys)%nat →
  (∀ j, (j < k)%nat → Done ctx j = false) → Done ctx k = true →
  deleteKeysBatchInternal l ctx fs basePath keys
  = (fst (attempt_all basePath fs (firstn k keys)),
     Some (BatchAborted (CtxErr ctx))).
Proof.
  intros Hk Hj Hd. unfold deleteKeysBatchInternal.
  rewrite (batch_loop_cancelled ctx basePath k); auto.
  intros j ?. apply Hj. lia.
Qed.

End BatchCancel.

(** ** Connecting *)

Section ConnectFacts.

Lemma is_directory_resolve (fs : filesystem) (name : string) :
  is_directory fs name
  ↔ ∃ p mt es, locate fs name = Ok p ∧ resolve p (root fs) = Ok (Dir mt es).
Proof.
  unfold is_directory. rewrite os_Stat_resolve.
  destruct (locate fs name) as [p|e].
  - destruct (resolve p (root fs)) as [[i|mt es]|e] eqn:Er.
    + split; [intros (info & [= <-] & H); discriminate |].
      intros (p' & mt & es & [= <-] & H). congruence.
    + split; [eauto 6 | eauto].
    + split; [intros (info & H & _); discriminate |].
      intros (p' & mt & es & [= <-] & H). congruence.
  - split; [intros (info & H & _); discriminate |].
    intros (p' & mt & es & H & _). discriminate.
Qed.

Lemma os_MkdirAll_keeps_directory (fs fs1 : filesystem) (name d : string) :
  os_MkdirAll fs name = Ok fs1 → is_directory fs d → is_directory fs1 d.
Proof.
  intros H. rewrite !is_directory_resolve. intros (p & mt & es & Hl & Hr).
  pose proof (os_MkdirAll_shape _ _ _ H) as (Hc & _).
  destruct (os_MkdirAll_keeps_dir _ _ _ p H) as (mt' & es' & Hr'); [eauto |].
  exists p, mt', es'. split; [| exact Hr'].
  now rewrite (locate_cwd fs).
Qed.

Lemma os_MkdirAll_of_directory (fs : filesystem) (name : string) :
  is_directory fs name → os_MkdirAll fs name = Ok fs.
Proof.
  rewrite is_directory_resolve. intros (p & mt & es & Hl & Hr).
  eapply os_MkdirAll_existing; eassumption.
Qed.

Lemma way_clear_MkdirAll (fs fs1 : filesystem) (name d : string) :
  os_MkdirAll fs name = Ok fs1 → way_clear fs d → way_clear fs1 d.
Proof.
  intros H. unfold way_clear. rewrite !no_file_on_spec.
  intros Hw q i Hq Hr.
  pose proof (os_MkdirAll_shape _ _ _ H) as (Hc & _).
  rewrite (abs_cwd fs) in Hq by assumption.
  apply (Hw q i Hq). now apply (os_MkdirAll_files _ _ _ q i H).
Qed.

Lemma os_MkdirAll_clear (fs : filesystem) (name : string) :
  name ≠ "" → way_clear fs name → ∃ fs1, os_MkdirAll fs name = Ok fs1.
Proof.
  intros Hne Hw. apply (os_MkdirAll_total fs name (abs fs name)).
  - unfold locate. now destruct (String.eqb_spec name "").
  - now apply no_file_on_spec.
Qed.

End ConnectFacts.

Section ConnectProperties.

(** X5.  [Connect] succeeds as soon as the base path and, when it is
    configured, the object-disk path are absolute paths in cleaned form
    made of valid names, and no regular file lies on the way to either
    directory; both directories exist afterwards. *)
Theorem Connect_succeeds (l : Local) (fs : filesystem) :
  plain_path (Path (Config l)) →
  way_clear fs (Path (Config l)) →
  (ObjectDiskPath (Config l) ≠ "" →
   plain_path (ObjectDiskPath (Config l))
   ∧ way_clear fs (ObjectDiskPath (Config l))) →
  ∃ fs', Connect l fs = (fs', None)
         ∧ is_directory fs' (Path (Config l))
         ∧ (ObjectDiskPath (Config l) ≠ "" →
            is_directory fs' (ObjectDiskPath (Config l))).
Proof.
  intros Hpp Hw Hwo.
  assert (Path (Config l) ≠ "") as Hne.
  { intros E. destruct Hpp as [Hr _]. rewrite E in Hr. discriminate. }
  unfold Connect.
  destruct (String.eqb_spec (Path (Config l)) ""); [contradiction |].
  destruct (os_MkdirAll_clear _ _ Hne Hw) as [fs1 Em]. rewrite Em.
  pose proof (os_MkdirAll_is_dir _ _ _ Em) as Hd1.
  destruct (String.eqb_spec (ObjectDiskPath (Config l)) "") as [E | Hno].
  - exists fs1. simpl. split; [reflexivity |]. split; [exact Hd1 |].
    now intros.
  - simpl.
    destruct (os_MkdirAll_clear fs1 _ Hno) as [fs2 Em2].
    { eapply way_clear_MkdirAll; [exact Em | now apply Hwo]. }
    rewrite Em2. exists fs2. split; [reflexivity |]. split.
    + eapply os_MkdirAll_keeps_directory; eassumption.
    + intros _. eapply os_MkdirAll_is_dir; exact Em2.
Qed.

(** X6.  After a successful [Connect] the base path is configured, the
    base directory and the object-disk directory (when configured) exist,
    and connecting again changes nothing. *)
Theorem Connect_establishes (l : Local) (fs fs' : filesystem) :
  Connect l fs = (fs', None) →
  Path (Config l) ≠ ""
  ∧ is_directory fs' (Path (Config l))
  ∧ (ObjectDiskPath (Config l) ≠ "" →
     is_directory fs' (ObjectDiskPath (Config l)))
  ∧ Connect l fs' = (fs', None).
Proof.
  unfold Connect.
  destruct (String.eqb_spec (Path (Config l)) "") as [| Hne];
    [discriminate |].
  destruct (os_MkdirAll fs (Path (Config l))) as [fs1|] eqn:Em;
    [| discriminate].
  pose proof (os_MkdirAll_is_dir _ _ _ Em) as Hd1.
  destruct (String.eqb_spec (ObjectDiskPath (Config l)) "") as [E | Hno];
    simpl.
  - intros [= <-]. split; [exact Hne |]. split; [exact Hd1 |].
    split; [now intros |].
    now rewrite (os_MkdirAll_of_directory _ _ Hd1).
  - destruct (os_MkdirAll fs1 (ObjectDiskPath (Config l))) as [fs2|] eqn:Em2;
      [| discriminate].
    intros [= <-].
    pose proof (os_MkdirAll_is_dir _ _ _ Em2) as Hd2.
    pose proof (os_MkdirAll_keeps_directory _ _ _ _ Em2 Hd1) as Hd1'.
    split; [exact Hne |]. split; [exact Hd1' |]. split; [now intros |].
    rewrite (os_MkdirAll_of_directory _ _ Hd1').
    now rewrite (os_MkdirAll_of_directory _ _ Hd2).
Qed.

(** X7.  [Connect] only creates directories: whatever its outcome, the
    regular files are the same before and after, at the same paths, under
    the same inodes and with the same bytes. *)
Theorem Connect_keeps_files (l : Local) (fs fs' : filesystem)
    (oe : option error) :
  Connect l fs = (fs', oe) →
  inodes fs' = inodes fs
  ∧ ∀ q i, resolve q (root fs') = Ok (File i)
           ↔ resolve q (root fs) = Ok (File i).
Proof.
  unfold Connect.
  destruct (String.eqb (Path (Config l)) ""); [now intros [= <- _] |].
  destruct (os_MkdirAll fs (Path (Config l))) as [fs1|] eqn:Em;
    [| now intros [= <- _]].
  pose proof (os_MkdirAll_shape _ _ _ Em) as (_ & Hi1 & _).
  assert (∀ q i, resolve q (root fs1) = Ok (File i)
                 ↔ resolve q (root fs) = Ok (File i)) as Hf1
    by (intros; now apply (os_MkdirAll_files _ _ _ q i Em)).
  destruct (negb (String.eqb (ObjectDiskPath (Config l)) ""));
    [| now intros [= <- _]].
  destruct (os_MkdirAll fs1 (ObjectDiskPath (Config l))) as [fs2|] eqn:Em2;
    [| now intros [= <- _]].
  intros [= <- _].
  pose proof (os_MkdirAll_shape _ _ _ Em2) as (_ & Hi2 & _).
  split; [congruence |]. intros q i.
  rewrite (os_MkdirAll_files _ _ _ q i Em2). apply Hf1.
Qed.

End ConnectProperties.

(** ** What a cross-location copy leaves behind *)

Section CopyFrames.

Lemma os_Open_file (fs : filesystem) (name : string) (i : nat) :
  os_Open fs name = Ok (HFile i)
  ↔ ∃ p, locate fs name = Ok p ∧ resolve p (root fs) = Ok (File i).
Proof.
  unfold os_Open. destruct (locate fs name) as [p|e].
  - destruct (resolve p (root fs)) as [[j|mt es]|e] eqn:Er.
    + split; [intros [= <-]; eauto |].
      intros (p' & [= <-] & H). congruence.
    + split; [discriminate |]. intros (p' & [= <-] & H). congruence.
    + split; [discriminate |]. intros (p' & [= <-] & H). congruence.
  - split; [discriminate |]. intros (p' & H & _). discriminate.
Qed.

Lemma os_Link_frame (fs fs2 : filesystem) (oldname newname : string) :
  os_Link fs oldname newname = Ok fs2 →
  cwd fs2 = cwd fs ∧ inodes fs2 = inodes fs
  ∧ ∀ q i, resolve q (root fs) = Ok (File i) →
           resolve q (root fs2) = Ok (File i).
Proof.
  unfold os_Link. intros H.
  destruct (locate fs oldname) as [src|]; [| discriminate].
  destruct (locate fs newname) as [dst|]; [| discriminate].
  destruct (resolve src (root fs)) as [n|]; [| discriminate].
  destruct (resolve dst (root fs)) as [|e] eqn:Erd; [discriminate |].
  destruct e; try discriminate.
  destruct (resolve (parent dst) (root fs)) as [[|mt es]|]; try discriminate.
  destruct dst as [|c dst]; [discriminate |].
  destruct (negb _); [discriminate |].
  destruct n as [i|]; [| discriminate].
  destruct (at_dir (parent (c :: dst)) _ (root fs)) as [r|] eqn:Ea;
    [| discriminate].
  injection H as <-.
  rewrite cwd_with_root, inodes_with_root.
  rewrite root_with_root
    by (eapply at_dir_is_dir; [apply add_entry_dir | exact Ea]).
  split; [reflexivity |]. split; [reflexivity |].
  intros q j Hq. eapply at_dir_add_frame; [exact Ea | | exact Hq].
  now rewrite <- path_split.
Qed.

Lemma os_Link_needs_file (fs : filesystem) (oldname newname : string) :
  (∀ i, os_Open fs oldname ≠ Ok (HFile i)) →
  ∃ e, os_Link fs oldname newname = Err e.
Proof.
  unfold os_Link, os_Open. intros H.
  destruct (locate fs oldname) as [src|]; [| eauto].
  destruct (locate fs newname) as [dst|]; [| eauto].
  destruct (resolve src (root fs)) as [[i|mt es]|]; [| | eauto].
  { now destruct (H i). }
  destruct (resolve dst (root fs)) as [|e]; [eauto |].
  destruct e; eauto.
  destruct (resolve (parent dst) (root fs)) as [[|mt' es']|]; eauto.
  destruct dst; eauto. destruct (negb _); eauto.
Qed.

Lemma os_Link_existing (fs : filesystem) (oldname newname : string)
    (h h' : handle) :
  os_Open fs oldname = Ok h → os_Open fs newname = Ok h' →
  os_Link fs oldname newname = Err EEXIST.
Proof.
  unfold os_Link, os_Open. intros Ho Hn.
  destruct (locate fs oldname) as [src|]; [| discriminate].
  destruct (locate fs newname) as [dst|]; [| discriminate].
  destruct (resolve src (root fs)); [| discriminate].
  now destruct (resolve dst (root fs)).
Qed.

Lemma copy_fallback_frame (fs fs' : filesystem) (srcPath dstPath : string)
    (res : result error Z) :
  copy_fallback fs srcPath dstPath = (fs', res) →
  cwd fs' = cwd fs
  ∧ (∀ q i, resolve q (root fs) = Ok (File i) →
            resolve q (root fs') = Ok (File i))
  ∧ (∀ i, (i < next_ino fs)%nat →
          resolve (abs fs dstPath) (root fs) ≠ Ok (File i) →
          file_data i (inodes fs') = file_data i (inodes fs)).
Proof.
  unfold copy_fallback. intros H.
  destruct (os_Open fs srcPath) as [src|]; [| injection H as <- _; auto].
  destruct (os_Create fs dstPath) as [[fs2 j]|] eqn:Ec;
    [| injection H as <- _; auto].
  destruct (io_Copy fs2 j (file_reader fs2 src)) as [[fs3 n] oe] eqn:Eio.
  assert (fs' = fs3) as -> by (destruct oe; now injection H as <- _).
  pose proof (os_Create_spec _ _ _ _ Ec) as (p & _ & _ & _ & Hcw & _).
  pose proof (os_Create_inode _ _ _ _ Ec) as [Hj Hother].
  pose proof (io_Copy_spec _ _ _ _ _ _ Eio) as (Hr3 & Hc3 & _).
  split; [congruence |]. split.
  - intros q i Hq. rewrite Hr3. eapply os_Create_frame; eassumption.
  - intros i Hlt Hd. assert (i ≠ j) as Hij.
    { intros ->. destruct Hj as [Hj | Hj]; [contradiction | lia]. }
    rewrite (io_Copy_other _ _ _ _ _ _ _ Eio) by congruence.
    now apply Hother.
Qed.

End CopyFrames.

Section CopyProperties.

(** X21.  [CopyObject] never unlinks or replaces a file: whatever its
    outcome, every regular file is found afterwards at its path under the
    same inode, and its bytes are unchanged unless it is the inode the
    destination path already names.  Inode numbers in use are below the
    allocation counter. *)
Theorem CopyObject_keeps_files (l : Local) (fs fs' : filesystem)
    (srcSize : Z) (srcBucket srcKey dstKey : string) (res : result error Z)
    (q : list string) (i : nat) :
  let dstPath := path_Join (ObjectDiskPath (Config l)) dstKey in
  CopyObject l fs srcSize srcBucket srcKey dstKey = (fs', res) →
  resolve q (root fs) = Ok (File i) →
  resolve q (root fs') = Ok (File i)
  ∧ ((i < next_ino fs)%nat →
     resolve (abs fs dstPath) (root fs) ≠ Ok (File i) →
     file_data i (inodes fs') = file_data i (inodes fs)).
Proof.
  intros dstPath. unfold CopyObject. fold dstPath. intros H Hq.
  destruct (os_MkdirAll fs (filepath_Dir dstPath)) as [fs1|] eqn:Em.
  2: { injection H as <- _. auto. }
  pose proof (os_MkdirAll_shape _ _ _ Em) as (Hc1 & Hi1 & Hn1).
  assert (resolve q (root fs1) = Ok (File i)) as Hq1
    by now apply (os_MkdirAll_files _ _ _ q i Em).
  destruct (os_Link fs1 _ dstPath) as [fs2|] eqn:El.
  - injection H as <- _.
    destruct (os_Link_frame _ _ _ _ El) as (_ & Hi2 & Hf2).
    split; [now apply Hf2 | now rewrite Hi2, Hi1].
  - destruct (copy_fallback_frame _ _ _ _ _ H) as (_ & Hf & Hb).
    split; [now apply Hf |]. intros Hlt Hd.
    rewrite Hb; [now rewrite Hi1 | lia |].
    rewrite (abs_cwd fs fs1) by assumption.
    intros E. apply Hd. now apply (os_MkdirAll_files _ _ _ _ _ Em).
Qed.

(** X22.  [CopyObject] onto a destination that already is a hard link of
    the source (as a repeated call finds it) does not copy: creating the
    destination truncates the shared inode, so the source is emptied and
    the call reports success with zero bytes. *)
Theorem CopyObject_onto_own_link_truncates (l : Local) (fs fs1 : filesystem)
    (srcSize : Z) (srcBucket srcKey dstKey : string) (i : nat) :
  let srcPath := path_Join (Path (Config l)) srcKey in
  let dstPath := path_Join (ObjectDiskPath (Config l)) dstKey in
  os_MkdirAll fs (filepath_Dir dstPath) = Ok fs1 →
  os_Open fs srcPath = Ok (HFile i) → os_Open fs dstPath = Ok (HFile i) →
  ∃ fs', CopyObject l fs srcSize srcBucket srcKey dstKey = (fs', Ok 0%Z)
         ∧ os_Open fs' srcPath = Ok (HFile i)
         ∧ os_Open fs' dstPath = Ok (HFile i)
         ∧ file_data i (inodes fs') = [].
Proof.
  intros srcPath dstPath Em Hs Hd.
  pose proof (os_MkdirAll_shape _ _ _ Em) as (Hc1 & _).
  assert (∀ name, os_Open fs name = Ok (HFile i) →
                  os_Open fs1 name = Ok (HFile i)) as Hkeep.
  { intros name. rewrite !os_Open_file. intros (p & Hl & Hr).
    exists p. split; [now rewrite (locate_cwd fs) |].
    now apply (os_MkdirAll_files _ _ _ p i Em). }
  pose proof (Hkeep _ Hs) as Hs1. pose proof (Hkeep _ Hd) as Hd1.
  pose proof (os_Link_existing _ _ _ _ _ Hs1 Hd1) as El.
  apply os_Open_file in Hd1 as (pd & Hld & Hrd).
  pose proof Hs1 as Hs1'. apply os_Open_file in Hs1' as (ps & Hls & Hrs).
  set (fs2 := tick (set_inode fs1 i {| i_data := []; i_mtime := clock fs1 |})).
  assert (os_Create fs1 dstPath = Ok (fs2, i)) as Ec.
  { unfold os_Create. now rewrite Hld, Hrd. }
  assert (file_data i (inodes fs2) = []) as Hempty.
  { simpl. apply file_data_insert. }
  exists fs2. split; [| split; [| split]].
  - unfold CopyObject. fold dstPath srcPath. rewrite Em, El.
    unfold copy_fallback. rewrite Hs1, Ec.
    unfold file_reader, file_ReadAll. rewrite Hempty. reflexivity.
  - apply os_Open_file. exists ps. split; [exact Hls | exact Hrs].
  - apply os_Open_file. exists pd. split; [exact Hld | exact Hrd].
  - exact Hempty.
Qed.

(** X23.  [CopyObject] does not clean up after a failed copy: when the
    source is a directory the link is refused, the destination file is
    created, the copy fails with [EISDIR], and the empty destination file
    stays behind. *)
Theorem CopyObject_directory_source (l : Local) (fs fs1 fs2 : filesystem)
    (srcSize : Z) (srcBucket srcKey dstKey : string) (j : nat) :
  let srcPath := path_Join (Path (Config l)) srcKey in
  let dstPath := path_Join (ObjectDiskPath (Config l)) dstKey in
  os_MkdirAll fs (filepath_Dir dstPath) = Ok fs1 →
  os_Open fs1 srcPath = Ok HDir →
  os_Create fs1 dstPath = Ok (fs2, j) →
  CopyObject l fs srcSize srcBucket srcKey dstKey
  = (fs2, Err (ErrPath EISDIR))
  ∧ os_Open fs2 dstPath = Ok (HFile j)
  ∧ file_data j (inodes fs2) = [].
Proof.
  intros srcPath dstPath Em Hs Ec.
  destruct (os_Link_needs_file fs1 srcPath dstPath) as [e El].
  { intros i. rewrite Hs. discriminate. }
  pose proof (os_Create_spec _ _ _ _ Ec) as (p & Hl & _ & Hr & Hcw & Hd).
  split; [| split].
  - unfold CopyObject. fold dstPath srcPath. rewrite Em, El.
    unfold copy_fallback. now rewrite Hs, Ec.
  - apply os_Open_file. exists p. split; [| exact Hr].
    now rewrite (locate_cwd fs1).
  - exact Hd.
Qed.

(** X24.  [CopyObject] with a source that cannot be opened returns the
    error of [os.Open] as it is (never the not-found sentinel), after the
    destination directory has been created: that directory stays, and
    nothing else has changed. *)
Theorem CopyObject_unreadable_source (l : Local) (fs fs1 : filesystem)
    (srcSize : Z) (srcBucket srcKey dstKey : string) (e : errno) :
  let srcPath := path_Join (Path (Config l)) srcKey in
  let dstPath := path_Join (ObjectDiskPath (Config l)) dstKey in
  os_MkdirAll fs (filepath_Dir dstPath) = Ok fs1 →
  os_Open fs1 srcPath = Err e →
  CopyObject l fs srcSize srcBucket srcKey dstKey = (fs1, Err (ErrPath e))
  ∧ is_directory fs1 (filepath_Dir dstPath).
Proof.
  intros srcPath dstPath Em Hs.
  destruct (os_Link_needs_file fs1 srcPath dstPath) as [e' El].
  { intros i. rewrite Hs. discriminate. }
  split.
  - unfold CopyObject. fold dstPath srcPath. rewrite Em, El.
    unfold copy_fallback. now rewrite Hs.
  - eapply os_MkdirAll_is_dir. exact Em.
Qed.

End CopyProperties.

(** ** The guard on ordinary bases *)

Section GuardProperties.

Lemma render_app_names (r : bool) (B names : list string) :
  B ≠ [] → Forall is_name B → names ≠ [] →
  render r (B ++ names)
  = render r B +:+ "/" +:+ String.concat "/" names.
Proof.
  intros HB HBn Hn. destruct r.
  - rewrite !render_rooted, concat_app by assumption.
    now rewrite append_cons_l.
  - destruct B as [|b B]; [contradiction |].
    assert (b ≠ "") as Hb by (inversion HBn as [|? ? [[? _] _]]; assumption).
    change ((b :: B) ++ names) with (b :: (B ++ names)).
    rewrite !render_relative by assumption.
    change (b :: (B ++ names)) with ((b :: B) ++ names).
    now rewrite concat_app.
Qed.

(** X1.  On a base that begins with an ordinary name the guard is exact:
    it returns the cleaned join of base and key when that path is the base
    or lies below it, and the path-escape error otherwise; what it returns
    is in cleaned form. *)
Theorem containedPath_exact (basePath key : string) :
  ordinary_base basePath →
  (within (Clean basePath) (Clean (basePath +:+ "/" +:+ key))
   ↔ containedPath basePath key = Ok (Clean (basePath +:+ "/" +:+ key)))
  ∧ (¬ within (Clean basePath) (Clean (basePath +:+ "/" +:+ key))
     ↔ containedPath basePath key = Err (ErrPathEscape key basePath))
  ∧ (∀ p, containedPath basePath key = Ok p →
          p = Clean (basePath +:+ "/" +:+ key) ∧ Clean p = p).
Proof.
  intros Hob.
  destruct (containedPath_ordinary basePath key Hob) as [Hin Hout].
  assert (∀ p, containedPath basePath key = Ok p →
               p = Clean (basePath +:+ "/" +:+ key)
               ∧ within (Clean basePath) p) as Hok.
  { intros p Hc.
    destruct (containedPath_shape _ _ _ Hob Hc)
      as (R & HB & HBne & HR & EB & Ep & Ej).
    split; [exact Ej |]. rewrite EB, Ep.
    destruct R as [|x R].
    - left. now rewrite app_nil_r.
    - right. apply strict_descendant_render.
      + apply names_normal, Forall_app. now split.
      + now apply names_normal.
      + exists (x :: R). split; [discriminate |]. now split. }
  split; [| split].
  - split; [exact Hin |]. intros Hc. destruct (Hok _ Hc) as [_ Hw]. exact Hw.
  - split; [exact Hout |]. intros Hc Hw. rewrite (Hin Hw) in Hc.
    discriminate.
  - intros p Hc. destruct (Hok _ Hc) as [-> _].
    split; [reflexivity | apply Clean_idem].
Qed.

(** X2.  A key made of ordinary names is always accepted, on every base
    that begins with an ordinary name, and resolves to the text of the
    cleaned base, a separator, and the key. *)
Theorem containedPath_plain_key (basePath : string) (names : list string) :
  ordinary_base basePath → names ≠ [] → Forall is_name names →
  containedPath basePath (String.concat "/" names)
  = Ok (Clean basePath +:+ "/" +:+ String.concat "/" names).
Proof.
  intros Hob Hne Hn.
  pose proof (ordinary_base_nonempty _ Hob) as Hb.
  set (r := IsRooted basePath). set (B := elements basePath).
  assert (∃ b B', B = b :: B' ∧ b ≠ "..") as (b & B' & EBB & Hbd).
  { unfold ordinary_base in Hob. fold B in Hob.
    destruct B as [|b B']; [contradiction | eauto]. }
  assert (Forall is_name B) as HBn.
  { rewrite EBB. apply (normal_head_name r); [| exact Hbd].
    rewrite <- EBB. apply elements_normal. }
  assert (B ≠ []) as HBne by (rewrite EBB; discriminate).
  assert (Clean (basePath +:+ "/" +:+ String.concat "/" names)
          = render r (B ++ names)) as EJ.
  { change (basePath +:+ "/" +:+ String.concat "/" names)
      with (basePath +:+ String Separator (String.concat "/" names)).
    rewrite Clean_render, IsRooted_append by assumption.
    now rewrite elements_join_names. }
  destruct (containedPath_ordinary basePath (String.concat "/" names) Hob)
    as [Hin _].
  rewrite Hin.
  - rewrite EJ, render_app_names by assumption.
    now rewrite (Clean_render basePath).
  - rewrite EJ, (Clean_render basePath). right.
    apply strict_descendant_render.
    + apply names_normal, Forall_app. now split.
    + now apply names_normal.
    + exists names. now repeat split.
Qed.


End GuardProperties.

(** ** Instances of the further properties on the sample disk *)

Section FurtherWitnesses.

Import Sample.

Lemma DeleteFile_confined_witness :
  keeps_outside "/backup" disk (fst (DeleteFile backend disk "b1")).
Proof.
  apply (DeleteFile_confined backend disk _ "b1"
           (snd (DeleteFile backend disk "b1"))).
  - vm_compute. discriminate.
  - apply surjective_pairing.
Defined.

Lemma DeleteFileFromObjectDiskBackup_confined_witness :
  keeps_outside "/disks" after_link
    (fst (DeleteFileFromObjectDiskBackup backend after_link "d1")).
Proof.
  apply (DeleteFileFromObjectDiskBackup_confined backend after_link _ "d1"
           (snd (DeleteFileFromObjectDiskBackup backend after_link "d1"))).
  - vm_compute. discriminate.
  - apply surjective_pairing.
Defined.

Lemma deleteKeysBatchInternal_confined_witness :
  keeps_outside "/backup" disk
    (fst (deleteKeysBatchInternal backend cancelled_after_one disk "/backup"
            ["b1/data.bin"; "../etc/passwd"; "b1/shadow"])).
Proof.
  apply (deleteKeysBatchInternal_confined backend cancelled_after_one disk _
           "/backup" ["b1/data.bin"; "../etc/passwd"; "b1/shadow"]
           (snd (deleteKeysBatchInternal backend cancelled_after_one disk
                   "/backup" ["b1/data.bin"; "../etc/passwd"; "b1/shadow"]))).
  - vm_compute. discriminate.
  - apply surjective_pairing.
Defined.

Lemma DeleteFile_then_not_found_witness :
  StatFile backend (fst (DeleteFile backend disk "b1/data.bin")) "b1/data.bin"
  = Err ErrNotFound
  ∧ GetFileReader backend (fst (DeleteFile backend disk "b1/data.bin"))
      "b1/data.bin"
    = Err (ErrPath ENOENT)
  ∧ DeleteFile backend (fst (DeleteFile backend disk "b1/data.bin"))
      "b1/data.bin"
    = (fst (DeleteFile backend disk "b1/data.bin"), None).
Proof.
  apply (DeleteFile_then_not_found backend disk).
  vm_compute. reflexivity.
Defined.


Lemma DeleteFile_missing_key_witness :
  DeleteFile backend disk "b1/nothing" = (disk, None).
Proof.
  apply (DeleteFile_missing_key backend disk "b1/nothing"
           "/backup/b1/nothing").
  - vm_compute. reflexivity.
  - discriminate.
  - vm_compute. reflexivity.
Defined.

Lemma PutFile_keeps_other_files_witness :
  resolve ["backup"; "b1"; "data.bin"]
    (root (fst (PutFile backend disk "b1/new.bin" bad_reader 5)))
  = Ok (File 1)
  ∧ ((1 < next_ino disk)%nat →
     resolve (abs disk "/backup/b1/new.bin") (root disk) ≠ Ok (File 1) →
     file_data 1 (inodes (fst (PutFile backend disk "b1/new.bin"
                                 bad_reader 5)))
     = file_data 1 (inodes disk)).
Proof.
  apply (PutFile_keeps_other_files backend disk _ "b1/new.bin"
           "/backup/b1/new.bin" bad_reader 5
           (snd (PutFile backend disk "b1/new.bin" bad_reader 5))).
  - vm_compute. reflexivity.
  - apply surjective_pairing.
  - vm_compute. reflexivity.
  - vm_compute. discriminate.
Defined.

Lemma PutFile_onto_directory_witness :
  PutFile backend disk "b1/shadow" good_reader 5
  = (disk, Some (ErrPath EISDIR)).
Proof.
  apply (PutFile_onto_directory backend disk "b1/shadow"
           "/backup/b1/shadow").
  - vm_compute. discriminate.
  - vm_compute. reflexivity.
  - eexists. split; vm_compute; reflexivity.
Defined.

Lemma PutFile_creates_missing_directories_witness :
  ∃ fs', PutFile backend disk "b2/deep/new.bin" good_reader 5 = (fs', None)
         ∧ is_directory fs' (filepath_Dir "/backup/b2/deep/new.bin").
Proof.
  apply (PutFile_creates_missing_directories backend disk
           "b2/deep/new.bin" "/backup/b2/deep/new.bin").
  - vm_compute. discriminate.
  - vm_compute. reflexivity.
  - apply (bool_decide_unpack _). vm_compute. exact I.
  - reflexivity.
  - vm_compute. reflexivity.
  - vm_compute. discriminate.
Defined.

Lemma WalkAbsolute_feeds_visitor_witness :
  WalkAbsolute backend disk "/backup/b1" true stop_at_shadow 0%nat
  = feed stop_at_shadow
      (fst (WalkAbsolute backend disk "/backup/b1" true collect [])) 0%nat
  ∧ (∀ remotePath,
       path_Join (Path (Config backend)) remotePath = "/backup/b1" →
       Walk backend disk remotePath true stop_at_shadow 0%nat
       = feed stop_at_shadow
           (fst (WalkAbsolute backend disk "/backup/b1" true collect []))
           0%nat).
Proof.
  apply (WalkAbsolute_feeds_visitor backend disk "/backup/b1" true).
  vm_compute. reflexivity.
Defined.

Lemma WalkAbsolute_missing_prefix_witness :
  WalkAbsolute backend disk "/backup/b9" false stop_at_shadow 0%nat
  = (0%nat, None)
  ∧ (∀ remotePath,
       path_Join (Path (Config backend)) remotePath = "/backup/b9" →
       Walk backend disk remotePath false stop_at_shadow 0%nat
       = (0%nat, None)).
Proof.
  apply (WalkAbsolute_missing_prefix backend disk "/backup/b9" false).
  vm_compute. reflexivity.
Defined.

Lemma WalkAbsolute_file_prefix_witness :
  WalkAbsolute backend disk "/backup/b1/data.bin" true collect [] = ([], None)
  ∧ WalkAbsolute backend disk "/backup/b1/data.bin" false collect []
    = ([], Some (ErrPath ENOTDIR)).
Proof.
  apply (WalkAbsolute_file_prefix backend disk "/backup/b1/data.bin"
           ["backup"; "b1"; "data.bin"] 1).
  - vm_compute. reflexivity.
  - vm_compute. reflexivity.
Defined.

Lemma WalkAbsolute_lists_children_witness :
  ∃ entries,
    WalkAbsolute backend disk "/backup/b1" false collect [] = (entries, None)
    ∧ map name entries
      ≡ₚ map fst [("data.bin", File 1);
                  ("shadow", Dir 0 [("part.bin", File 2)])]
    ∧ Sorted (fun f g => String.leb (name f) (name g) = true) entries
    ∧ ∀ f, f ∈ entries →
           ∃ n, (name f, n) ∈ [("data.bin", File 1);
                               ("shadow", Dir 0 [("part.bin", File 2)])]
                ∧ describes (inodes disk) f n.
Proof.
  apply (WalkAbsolute_lists_children backend disk "/backup/b1"
           ["backup"; "b1"] 0).
  - vm_compute. reflexivity.
  - vm_compute. reflexivity.
Defined.

Lemma deleteKeysBatchInternal_cancelled_witness :
  deleteKeysBatchInternal backend cancelled_after_one disk "/backup"
    ["../etc/passwd"; "b1/shadow"]
  = (fst (attempt_all "/backup" disk (firstn 1 ["../etc/passwd"; "b1/shadow"])),
     Some (BatchAborted ErrCanceled)).
Proof.
  apply (deleteKeysBatchInternal_cancelled backend cancelled_after_one disk
           "/backup" ["../etc/passwd"; "b1/shadow"] 1).
  - simpl. lia.
  - intros j Hj. destruct j; [reflexivity | lia].
  - reflexivity.
Defined.

Lemma Connect_succeeds_witness :
  ∃ fs', Connect fresh disk = (fs', None)
         ∧ is_directory fs' "/srv/store"
         ∧ ("/srv/disks" ≠ "" → is_directory fs' "/srv/disks").
Proof.
  apply (Connect_succeeds fresh disk).
  - apply (bool_decide_unpack _). vm_compute. exact I.
  - vm_compute. reflexivity.
  - intros _. split.
    + apply (bool_decide_unpack _). vm_compute. exact I.
    + vm_compute. reflexivity.
Defined.

Lemma Connect_establishes_witness :
  "/srv/store" ≠ ""
  ∧ is_directory (fst (Connect fresh disk)) "/srv/store"
  ∧ ("/srv/disks" ≠ "" → is_directory (fst (Connect fresh disk)) "/srv/disks")
  ∧ Connect fresh (fst (Connect fresh disk))
    = (fst (Connect fresh disk), None).
Proof.
  apply (Connect_establishes fresh disk).
  vm_compute. reflexivity.
Defined.

Lemma Connect_keeps_files_witness :
  inodes (fst (Connect fresh disk)) = inodes disk
  ∧ ∀ q i, resolve q (root (fst (Connect fresh disk))) = Ok (File i)
           ↔ resolve q (root disk) = Ok (File i).
Proof.
  apply (Connect_keeps_files fresh disk _ (snd (Connect fresh disk))).
  apply surjective_pairing.
Defined.

Lemma CopyObject_keeps_files_witness :
  resolve ["etc"; "passwd"] (root (fst after_escape)) = Ok (File 3)
  ∧ ((3 < next_ino disk)%nat →
     resolve (abs disk (path_Join "/disks" "../work/stolen")) (root disk)
     ≠ Ok (File 3) →
     file_data 3 (inodes (fst after_escape)) = file_data 3 (inodes disk)).
Proof.
  apply (CopyObject_keeps_files backend disk _ 5 "" "../etc/passwd"
           "../work/stolen" (snd after_escape)).
  - apply surjective_pairing.
  - vm_compute. reflexivity.
Defined.

Lemma CopyObject_onto_own_link_truncates_witness :
  ∃ fs', CopyObject backend after_link 5 "" "b1/data.bin" "d1/obj"
         = (fs', Ok 0%Z)
         ∧ os_Open fs' (path_Join "/backup" "b1/data.bin") = Ok (HFile 1)
         ∧ os_Open fs' (path_Join "/disks" "d1/obj") = Ok (HFile 1)
         ∧ file_data 1 (inodes fs') = [].
Proof.
  apply (CopyObject_onto_own_link_truncates backend after_link after_link 5
           "" "b1/data.bin" "d1/obj" 1).
  - vm_compute. reflexivity.
  - vm_compute. reflexivity.
  - vm_compute. reflexivity.
Defined.

Lemma CopyObject_directory_source_witness :
  ∃ fs2,
    CopyObject backend disk 5 "" "b1/shadow" "d1/obj"
    = (fs2, Err (ErrPath EISDIR))
    ∧ os_Open fs2 (path_Join "/disks" "d1/obj") = Ok (HFile 4)
    ∧ file_data 4 (inodes fs2) = [].
Proof.
  eexists.
  eapply (CopyObject_directory_source backend disk after_mkdir _ 5 ""
            "b1/shadow" "d1/obj" 4).
  - vm_compute. reflexivity.
  - vm_compute. reflexivity.
  - vm_compute. reflexivity.
Defined.

Lemma CopyObject_unreadable_source_witness :
  CopyObject backend disk 5 "" "b1/nothing" "d1/obj"
  = (after_mkdir, Err (ErrPath ENOENT))
  ∧ is_directory after_mkdir (filepath_Dir (path_Join "/disks" "d1/obj")).
Proof.
  apply (CopyObject_unreadable_source backend disk after_mkdir 5 ""
           "b1/nothing" "d1/obj" ENOENT).
  - vm_compute. reflexivity.
  - vm_compute. reflexivity.
Defined.

Lemma containedPath_exact_witness :
  (within (Clean "/backup") (Clean ("/backup" +:+ "/" +:+ "../etc/passwd"))
   ↔ containedPath "/backup" "../etc/passwd"
     = Ok (Clean ("/backup" +:+ "/" +:+ "../etc/passwd")))
  ∧ (¬ within (Clean "/backup")
         (Clean ("/backup" +:+ "/" +:+ "../etc/passwd"))
     ↔ containedPath "/backup" "../etc/passwd"
       = Err (ErrPathEscape "../etc/passwd" "/backup"))
  ∧ (∀ p, containedPath "/backup" "../etc/passwd" = Ok p →
          p = Clean ("/backup" +:+ "/" +:+ "../etc/passwd") ∧ Clean p = p).
Proof.
  apply (containedPath_exact "/backup" "../etc/passwd").
  vm_compute. discriminate.
Defined.

Lemma containedPath_plain_key_witness :
  containedPath "/backup" (String.concat "/" ["b1"; "shadow"; "part.bin"])
  = Ok (Clean "/backup" +:+ "/"
        +:+ String.concat "/" ["b1"; "shadow"; "part.bin"]).
Proof.
  apply (containedPath_plain_key "/backup" ["b1"; "shadow"; "part.bin"]).
  - vm_compute. discriminate.
  - discriminate.
  - apply (bool_decide_unpack _). vm_compute. exact I.
Defined.


Lemma guarded_operations_refuse_escaping_keys_witness :
  StatFile backend disk "b1/../../etc/passwd"
  = Err (ErrPathEscape "b1/../../etc/passwd" "/backup")
  ∧ GetFileReader backend disk "b1/../../etc/passwd"
    = Err (ErrPathEscape "b1/../../etc/passwd" "/backup")
  ∧ PutFile backend disk "b1/../../etc/passwd" good_reader 5
    = (disk, Some (ErrPathEscape "b1/../../etc/passwd" "/backup"))
  ∧ DeleteFile backend disk "b1/../../etc/passwd"
    = (disk, Some (ErrPathEscape "b1/../../etc/passwd" "/backup")).
Proof.
  apply (guarded_operations_refuse_escaping_keys backend disk
           "b1/../../etc/passwd" good_reader 5).
  - vm_compute. discriminate.
  - change (Clean (Path (Config backend) +:+ "/" +:+ "b1/../../etc/passwd"))
      with (render true ["etc"; "passwd"]).
    change (Clean (Path (Config backend))) with (render true ["backup"]).
    intros [E | Hs].
    + vm_compute in E. discriminate.
    + apply strict_descendant_render in Hs as (R & _ & _ & E);
        [discriminate E | |];
        apply names_normal, (bool_decide_unpack _); vm_compute; exact I.
Defined.

End FurtherWitnesses.

(** ** Hard links across operations *)

Section HardLinkProperties.

(** X27.  [PutFile] over a key that names an existing regular file writes
    in place: the file keeps its inode, so every other name of that inode
    (a hard link, as [CopyObject] makes them) reads the new bytes
    afterwards. *)
Theorem PutFile_writes_through_hard_links (l : Local) (fs fs' : filesystem)
    (key p : string) (r : reader error) (localSize : Z) (q : list string)
    (i : nat) :
  containedPath (Path (Config l)) key = Ok p →
  os_Open fs p = Ok (HFile i) →
  resolve q (root fs) = Ok (File i) →
  PutFile l fs key r localSize = (fs', None) →
  resolve q (root fs') = Ok (File i)
  ∧ file_data i (inodes fs') = reader_bytes r.
Proof.
  intros Hc Ho Hq H. unfold PutFile in H. rewrite Hc in H.
  unfold PutFileAbsolute in H.
  destruct (os_MkdirAll fs (filepath_Dir p)) as [fs1|] eqn:Em;
    [| discriminate].
  pose proof (os_MkdirAll_shape _ _ _ Em) as (Hc1 & _).
  apply os_Open_file in Ho as (pp & Hl & Hr).
  assert (resolve pp (root fs1) = Ok (File i)) as Hr1
    by now apply (os_MkdirAll_files _ _ _ pp i Em).
  assert (resolve q (root fs1) = Ok (File i)) as Hq1
    by now apply (os_MkdirAll_files _ _ _ q i Em).
  assert (os_Create fs1 p
          = Ok (tick (set_inode fs1 i {| i_data := [];
                                         i_mtime := clock fs1 |}), i))
    as Ecr.
  { unfold os_Create. now rewrite (locate_cwd fs fs1), Hl, Hr1. }
  rewrite Ecr in H.
  destruct (io_Copy _ i r) as [[fs3 n] oe] eqn:Eio.
  pose proof (io_Copy_spec _ _ _ _ _ _ Eio) as (Hr3 & _ & Hd3 & _).
  destruct oe as [err|].
  { destruct (os_Remove fs3 p); discriminate. }
  injection H as <-. split.
  - rewrite Hr3. exact Hq1.
  - rewrite Hd3. simpl. now rewrite file_data_insert.
Qed.

(** X28.  [DeleteFile] removes nothing but its target: whatever the
    outcome, every regular file whose path does not pass through the
    resolved path stays where it is, with its bytes; in particular a hard
    link of a deleted file keeps the data. *)
Theorem DeleteFile_keeps_other_files (l : Local) (fs fs' : filesystem)
    (key p : string) (oe : option error) (q : list string) (i : nat) :
  containedPath (Path (Config l)) key = Ok p →
  DeleteFile l fs key = (fs', oe) →
  is_prefix (abs fs p) q = false →
  resolve q (root fs) = Ok (File i) →
  resolve q (root fs') = Ok (File i)
  ∧ file_data i (inodes fs') = file_data i (inodes fs).
Proof.
  intros Hc H Hp Hq. unfold DeleteFile in H. rewrite Hc in H.
  apply RemoveAll_frame in H as (_ & Hi & Hf).
  split; [now apply Hf | now rewrite Hi].
Qed.

End HardLinkProperties.

Section HardLinkWitnesses.

Import Sample.

Lemma PutFile_writes_through_hard_links_witness :
  resolve ["disks"; "d1"; "obj"]
    (root (fst (PutFile backend after_link "b1/data.bin"
                  (RChunk secret REOF) 10)))
  = Ok (File 1)
  ∧ file_data 1 (inodes (fst (PutFile backend after_link "b1/data.bin"
                                (RChunk secret REOF) 10)))
    = reader_bytes (RChunk secret (@REOF error)).
Proof.
  apply (PutFile_writes_through_hard_links backend after_link _
           "b1/data.bin" "/backup/b1/data.bin" (RChunk secret REOF) 10).
  - vm_compute. reflexivity.
  - vm_compute. reflexivity.
  - vm_compute. reflexivity.
  - vm_compute. reflexivity.
Defined.

Lemma DeleteFile_keeps_other_files_witness :
  resolve ["disks"; "d1"; "obj"]
    (root (fst (DeleteFile backend after_link "b1/data.bin")))
  = Ok (File 1)
  ∧ file_data 1 (inodes (fst (DeleteFile backend after_link "b1/data.bin")))
    = file_data 1 (inodes after_link).
Proof.
  apply (DeleteFile_keeps_other_files backend after_link _ "b1/data.bin"
           "/backup/b1/data.bin"
           (snd (DeleteFile backend after_link "b1/data.bin"))).
  - vm_compute. reflexivity.
  - apply surjective_pairing.
  - vm_compute. reflexivity.
  - vm_compute. reflexivity.
Defined.

End HardLinkWitnesses.

(** ** The two strategies of a cross-location copy *)

Section CopyObjectStrategies.

(** The streamed copy of a regular file onto a destination that can be
    created and is another inode: every byte of the source is written, the
    count of them is returned, the source is left as it was. *)
Lemma copy_fallback_copies (fs fs2 : filesystem) (srcPath dstPath : string)
    (i j : nat) :
  os_Open fs srcPath = Ok (HFile i) →
  os_Create fs dstPath = Ok (fs2, j) → i ≠ j →
  ∃ fs3,
    copy_fallback fs srcPath dstPath
    = (fs3, Ok (Z.of_nat (length (file_data i (inodes fs)))))
    ∧ os_Open fs3 srcPath = Ok (HFile i)
    ∧ os_Open fs3 dstPath = Ok (HFile j)
    ∧ file_data j (inodes fs3) = file_data i (inodes fs)
    ∧ file_data i (inodes fs3) = file_data i (inodes fs).
Proof.
  intros Ho Ec Hij.
  pose proof (os_Create_spec _ _ _ _ Ec) as (p & Hl & _ & Hr & Hcw & Hd).
  pose proof (os_Create_inode _ _ _ _ Ec) as [_ Hother].
  assert (file_data i (inodes fs2) = file_data i (inodes fs)) as Hi2
    by now apply Hother.
  destruct (io_Copy fs2 j (file_reader fs2 (HFile i))) as [[fs3 n] oe]
    eqn:Eio.
  pose proof (io_Copy_spec _ _ _ _ _ _ Eio) as (Hr3 & Hc3 & Hd3 & Hn & Hoe).
  pose proof (io_Copy_other _ _ _ _ _ _ _ Eio (not_eq_sym Hij)) as Hi3.
  unfold file_reader, file_ReadAll in Hd3, Hn, Hoe. simpl in Hd3, Hn, Hoe.
  rewrite app_nil_r in Hd3, Hn. rewrite Hd, Hi2 in Hd3. rewrite Hi2 in Hn.
  subst oe n. exists fs3.
  pose proof Ho as Ho'. apply os_Open_file in Ho' as (q & Hlq & Hrq).
  split; [| split; [| split; [| split]]].
  - unfold copy_fallback. now rewrite Ho, Ec, Eio.
  - apply os_Open_file. exists q. split.
    + rewrite <- Hlq. apply locate_cwd. congruence.
    + rewrite Hr3. eapply os_Create_frame; eassumption.
  - apply os_Open_file. exists p. split.
    + rewrite <- Hl. apply locate_cwd. congruence.
    + now rewrite Hr3.
  - exact Hd3.
  - now rewrite Hi3.
Qed.


(** C7.  [CopyObject] never consults the guard.  Whatever the keys, its
    error is never a path-escape error; and once the directory of the
    plainly joined destination path has been made, the copy goes ahead on
    the two plainly joined paths, wherever they lead: a hard link that
    succeeds makes the destination a second name of the source's inode,
    and when the link fails a regular source is streamed into the
    destination. *)
Theorem CopyObject_unguarded (l : Local) (fs : filesystem) (srcSize : Z)
    (srcBucket srcKey dstKey : string) :
  let srcPath := path_Join (Path (Config l)) srcKey in
  let dstPath := path_Join (ObjectDiskPath (Config l)) dstKey in
  (∀ key base, snd (CopyObject l fs srcSize srcBucket srcKey dstKey)
               ≠ Err (ErrPathEscape key base))
  ∧ (∀ fs1, os_MkdirAll fs (filepath_Dir dstPath) = Ok fs1 →
       (∀ fs2, os_Link fs1 srcPath dstPath = Ok fs2 →
          CopyObject l fs srcSize srcBucket srcKey dstKey
          = (fs2, Ok srcSize)
          ∧ inodes fs2 = inodes fs1
          ∧ ∃ i, os_Open fs2 srcPath = Ok (HFile i)
                 ∧ os_Open fs2 dstPath = Ok (HFile i))
       ∧ (∀ e i fs2 j, os_Link fs1 srcPath dstPath = Err e →
            os_Open fs1 srcPath = Ok (HFile i) →
            os_Create fs1 dstPath = Ok (fs2, j) → i ≠ j →
            ∃ fs3,
              CopyObject l fs srcSize srcBucket srcKey dstKey
              = (fs3, Ok (Z.of_nat (length (file_data i (inodes fs1)))))
              ∧ os_Open fs3 dstPath = Ok (HFile j)
              ∧ file_data j (inodes fs3) = file_data i (inodes fs1))).
Proof.
  intros srcPath dstPath. split.
  - intros key base. unfold CopyObject. fold srcPath dstPath.
    destruct (os_MkdirAll fs (filepath_Dir dstPath)) as [fs1|e];
      [| discriminate].
    destruct (os_Link fs1 srcPath dstPath) as [fs2|e]; [discriminate |].
    unfold copy_fallback.
    destruct (os_Open fs1 srcPath); [| discriminate].
    destruct (os_Create fs1 dstPath) as [[fs2 j]|]; [| discriminate].
    destruct (io_Copy fs2 j _) as [[fs3 n] [err|]]; discriminate.
  - intros fs1 Hm. unfold CopyObject. fold srcPath dstPath. rewrite Hm.
    split.
    + intros fs2 El. rewrite El. split; [reflexivity |].
      destruct (os_Link_frame _ _ _ _ El) as (_ & Hi & _).
      split; [exact Hi |]. exact (os_Link_success _ _ _ _ El).
    + intros e i fs2 j El Ho Ec Hij. rewrite El.
      destruct (copy_fallback_copies _ _ _ _ _ _ Ho Ec Hij)
        as (fs3 & H1 & _ & H3 & H4 & _).
      exists fs3. auto.
Qed.

End CopyObjectStrategies.

Section CopyObjectWitnesses.

Import Sample.


(** Both keys are refused by the guard, and the copy is made all the same:
    [/etc/passwd], outside the base, becomes readable as [/work/stolen],
    outside the object-disk directory. *)
Lemma CopyObject_unguarded_witness :
  containedPath (Path (Config backend)) "../etc/passwd"
  = Err (ErrPathEscape "../etc/passwd" "/backup")
  ∧ containedPath (ObjectDiskPath (Config backend)) "../work/stolen"
    = Err (ErrPathEscape "../work/stolen" "/disks")
  ∧ os_Open disk "/work/stolen" = Err ENOENT
  ∧ CopyObject backend disk 5 "" "../etc/passwd" "../work/stolen"
    = (fst after_escape, Ok 5%Z)
  ∧ inodes (fst after_escape) = inodes disk
  ∧ ∃ i, os_Open (fst after_escape) "/etc/passwd" = Ok (HFile i)
         ∧ os_Open (fst after_escape) "/work/stolen" = Ok (HFile i).
Proof.
  split; [vm_compute; reflexivity |]. split; [vm_compute; reflexivity |].
  split; [vm_compute; reflexivity |].
  destruct (CopyObject_unguarded backend disk 5 "" "../etc/passwd"
              "../work/stolen") as [_ H].
  destruct (H disk) as [Hlink _].
  { vm_compute. reflexivity. }
  apply (Hlink (fst after_escape)).
  vm_compute. reflexivity.
Defined.

End CopyObjectWitnesses.
